(** * Image-to-Music: the file-identity reconciliation core of [src/index.ts]

    A shallow embedding of the naming, scanning, map-building and matching
    functions of the server, together with the part of the Node.js platform
    they call ([path.parse], [path.extname], string and array primitives, a
    snapshot of the file system). *)

From Stdlib Require Import List ZArith NArith Lia Bool String Ascii.
From Stdlib Require Import Permutation Sorted.
Import ListNotations.

Local Open Scope Z_scope.

(** ** JavaScript strings

    A JavaScript string is a finite sequence of UTF-16 code units.  The
    functions below only ever look at code units, never at code points. *)

Definition jschar := N.
Definition jsstring := list jschar.

(** An ASCII string literal of the source, code unit by code unit. *)
Definition js (s : string) : jsstring :=
  List.map N_of_ascii (list_ascii_of_string s).

Definition jschar_eqb (a b : jschar) : bool := N.eqb a b.

Fixpoint jsstring_eqb (a b : jsstring) : bool :=
  match a, b with
  | [], [] => true
  | x :: a', y :: b' => jschar_eqb x y && jsstring_eqb a' b'
  | _, _ => false
  end.

Definition jsstring_eq_dec : forall a b : jsstring, {a = b} + {a <> b} :=
  list_eq_dec N.eq_dec.

Definition CHAR_FORWARD_SLASH : jschar := 47%N.
Definition CHAR_DOT : jschar := 46%N.
Definition CHAR_DASH : jschar := 45%N.

(** [s.length] *)
Definition jslength (s : jsstring) : Z := Z.of_nat (List.length s).

(** [s.charCodeAt(i)] for an index inside the string. *)
Definition charCodeAt (s : jsstring) (i : Z) : jschar :=
  nth (Z.to_nat i) s 0%N.

(** [s.lastIndexOf(c)] for a one-code-unit search string: the greatest index
    holding [c], or -1. *)
Fixpoint lastIndexOf_from (c : jschar) (s : jsstring) (i : Z) : Z :=
  match s with
  | [] => -1
  | x :: r =>
      let later := lastIndexOf_from c r (i + 1) in
      if later >=? 0 then later
      else if jschar_eqb x c then i else -1
  end.

Definition lastIndexOf (c : jschar) (s : jsstring) : Z :=
  lastIndexOf_from c s 0.

(** [s.substring(start, end)]: both indices are clamped to [0, length] and
    swapped when out of order. *)
Definition clamp (len i : Z) : Z := Z.min (Z.max i 0) len.

Definition substring (s : jsstring) (istart iend : Z) : jsstring :=
  let len := jslength s in
  let a := clamp len istart in
  let b := clamp len iend in
  let from := Z.min a b in
  let to := Z.max a b in
  firstn (Z.to_nat (to - from)) (skipn (Z.to_nat from) s).

(** [s.substring(start)] *)
Definition substring_from (s : jsstring) (istart : Z) : jsstring :=
  substring s istart (jslength s).

(** [s.slice(start, end)] for 0 <= start <= end <= length, the only way
    [path.parse] and [path.extname] call it. *)
Definition slice (s : jsstring) (istart iend : Z) : jsstring :=
  firstn (Z.to_nat (iend - istart)) (skipn (Z.to_nat istart) s).

(** [/^\d+$/.test(s)]: [\d] is [0-9] and, without the [m] flag, [$] only
    matches at the very end. *)
Definition is_digit (c : jschar) : bool := (48 <=? c)%N && (c <=? 57)%N.

Definition test_digits (s : jsstring) : bool :=
  match s with
  | [] => false
  | _ => forallb is_digit s
  end.

(** [String.prototype.toLowerCase].  Basic Latin and Latin-1 letters are
    mapped; the other code units are left as they are (the full Unicode table
    is not reproduced).  No proof below looks inside this function. *)
Definition lower_char (c : jschar) : jschar :=
  if ((65 <=? c) && (c <=? 90))%N then (c + 32)%N
  else if ((192 <=? c) && (c <=? 222) && negb (c =? 215))%N then (c + 32)%N
  else c.

Definition toLowerCase (s : jsstring) : jsstring := List.map lower_char s.

(** [String.prototype.trim]: removes leading and trailing WhiteSpace and
    LineTerminator code units. *)
Definition is_white_space (c : jschar) : bool :=
  ((c =? 9) || (c =? 10) || (c =? 11) || (c =? 12) || (c =? 13) || (c =? 32)
   || (c =? 160) || (c =? 5760) || ((8192 <=? c) && (c <=? 8202))
   || (c =? 8232) || (c =? 8233) || (c =? 8239) || (c =? 8287)
   || (c =? 12288) || (c =? 65279))%N.

Fixpoint trimStart (s : jsstring) : jsstring :=
  match s with
  | [] => []
  | c :: r => if is_white_space c then trimStart r else s
  end.

Definition trimEnd (s : jsstring) : jsstring := rev (trimStart (rev s)).

Definition trim (s : jsstring) : jsstring := trimEnd (trimStart s).

(** [s.split(sep)] for a one-code-unit separator: never the empty array. *)
Fixpoint split (sep : jschar) (s : jsstring) : list jsstring :=
  match s with
  | [] => [[]]
  | c :: r =>
      if jschar_eqb c sep then [] :: split sep r
      else match split sep r with
           | h :: t => (c :: h) :: t
           | [] => [[c]]
           end
  end.

(** [arr.pop()]: the last element, [undefined] on the empty array. *)
Fixpoint pop (l : list jsstring) : option jsstring :=
  match l with
  | [] => None
  | [x] => Some x
  | _ :: r => pop r
  end.

(** [v || ''] for [v : string | undefined]. *)
Definition or_empty (v : option jsstring) : jsstring :=
  match v with
  | Some (c :: r) => c :: r
  | _ => []
  end.

(** ** The POSIX [path] module *)

Module path.

(** The variables of the scanning loop shared by [parse] and [extname]. *)
Record scan_state := {
  startDot : Z;
  startPart : Z;
  end_ : Z;
  matchedSlash : bool;
  preDotState : Z
}.

Definition scan_init : scan_state :=
  {| startDot := -1; startPart := 0; end_ := -1;
     matchedSlash := true; preDotState := 0 |}.

(** The body of the loop at index [i] for a code unit that is not a
    separator. *)
Definition visit (i : Z) (code : jschar) (st : scan_state) : scan_state :=
  let st1 :=
    if end_ st =? -1 then
      (* the first non-separator: the end of the extension *)
      {| startDot := startDot st; startPart := startPart st;
         end_ := i + 1; matchedSlash := false;
         preDotState := preDotState st |}
    else st in
  if jschar_eqb code CHAR_DOT then
    if startDot st1 =? -1 then
      {| startDot := i; startPart := startPart st1;
         end_ := end_ st1; matchedSlash := matchedSlash st1;
         preDotState := preDotState st1 |}
    else if negb (preDotState st1 =? 1) then
      {| startDot := startDot st1; startPart := startPart st1;
         end_ := end_ st1; matchedSlash := matchedSlash st1;
         preDotState := 1 |}
    else st1
  else if negb (startDot st1 =? -1) then
    {| startDot := startDot st1; startPart := startPart st1;
       end_ := end_ st1; matchedSlash := matchedSlash st1;
       preDotState := -1 |}
  else st1.

(** [for (; i >= lo; --i)] from [i = n - 1]; a separator met after the
    last component has begun breaks out of the loop. *)
Fixpoint scan (p : jsstring) (lo : Z) (n : nat) (st : scan_state)
  : scan_state :=
  match n with
  | O => st
  | S n' =>
      let i := Z.of_nat n' in
      if i <? lo then st
      else
        let code := charCodeAt p i in
        if jschar_eqb code CHAR_FORWARD_SLASH then
          if negb (matchedSlash st) then
            {| startDot := startDot st; startPart := i + 1;
               end_ := end_ st; matchedSlash := matchedSlash st;
               preDotState := preDotState st |}
          else scan p lo n' st
        else scan p lo n' (visit i code st)
  end.

(** The test that decides that the last component has no extension. *)
Definition no_ext (st : scan_state) : bool :=
  (startDot st =? -1)
  || (preDotState st =? 0)
  || ((preDotState st =? 1)
      && (startDot st =? end_ st - 1)
      && (startDot st =? startPart st + 1)).

Record parsed := {
  root : jsstring;
  dir : jsstring;
  base : jsstring;
  ext : jsstring;
  name : jsstring
}.

(** [path.parse(p)] *)
Definition parse (p : jsstring) : parsed :=
  match p with
  | [] => {| root := []; dir := []; base := []; ext := []; name := [] |}
  | c0 :: _ =>
      let isAbsolute := jschar_eqb c0 CHAR_FORWARD_SLASH in
      let lo := if isAbsolute then 1 else 0 in
      let st := scan p lo (List.length p) scan_init in
      let start :=
        if (startPart st =? 0) && isAbsolute then 1 else startPart st in
      let whole := slice p start (end_ st) in
      let d :=
        if 0 <? startPart st then slice p 0 (startPart st - 1)
        else if isAbsolute then [CHAR_FORWARD_SLASH] else [] in
      let r := if isAbsolute then [CHAR_FORWARD_SLASH] else [] in
      if end_ st =? -1 then
        {| root := r; dir := d; base := []; ext := []; name := [] |}
      else if no_ext st then
        {| root := r; dir := d; base := whole; ext := []; name := whole |}
      else
        {| root := r; dir := d; base := whole;
           ext := slice p (startDot st) (end_ st);
           name := slice p start (startDot st) |}
  end.

(** [path.extname(p)] *)
Definition extname (p : jsstring) : jsstring :=
  let st := scan p 0 (List.length p) scan_init in
  if (end_ st =? -1) || no_ext st then []
  else slice p (startDot st) (end_ st).

(** [path.join(d, f)] for a normalised directory [d] without a trailing
    separator and a single path segment [f], which is how the server calls
    it: the two joined by one separator. *)
Definition join (d f : jsstring) : jsstring :=
  d ++ CHAR_FORWARD_SLASH :: f.

End path.

(** ** File name utility functions *)

Definition getBaseName (filename : jsstring) : jsstring :=
  let parsed := path.parse filename in
  let nameWithoutExt := path.name parsed in
  let lastDashIndex := lastIndexOf CHAR_DASH nameWithoutExt in
  if lastDashIndex >? 0 then
    let suffix := substring_from nameWithoutExt (lastDashIndex + 1) in
    if test_digits suffix then substring nameWithoutExt 0 lastDashIndex
    else nameWithoutExt
  else nameWithoutExt.

(** ** A snapshot of the file system

    What [fs.existsSync], [fs.statSync], [fs.readdirSync] and
    [fs.readFileSync] observe.  A path is absent, a file or a directory.
    [mtimeMs] is a double in the source; only its order and the sign of a
    difference are used, so it is an integer number of milliseconds here.
    A listing names its entries whether or not they can be stat'ed (a
    dangling link is listed and does not exist). *)

Inductive node :=
| File (mtimeMs : Z) (utf8 : option jsstring)
    (* [None]: reading the file throws *)
| Dir (mtimeMs : Z) (entries : list jsstring).

Definition FS := jsstring -> option node.

Definition node_mtimeMs (n : node) : Z :=
  match n with
  | File t _ => t
  | Dir t _ => t
  end.

Definition existsSync (fs : FS) (p : jsstring) : bool :=
  match fs p with
  | Some _ => true
  | None => false
  end.

(** [fs.readdirSync(p)]; [None] when it throws (not a directory). *)
Definition readdirSync (fs : FS) (p : jsstring) : option (list jsstring) :=
  match fs p with
  | Some (Dir _ es) => Some es
  | _ => None
  end.

(** [fs.readFileSync(p, 'utf-8')]; [None] when it throws. *)
Definition readFileSync (fs : FS) (p : jsstring) : option jsstring :=
  match fs p with
  | Some (File _ c) => c
  | _ => None
  end.

(** [fs.existsSync(p) ? fs.statSync(p).mtimeMs : 0] *)
Definition mtimeOrZero (fs : FS) (p : jsstring) : Z :=
  match fs p with
  | Some n => node_mtimeMs n
  | None => 0
  end.

(** [fs.writeFileSync(dir/name, content)] at time [now] into an existing
    directory: the file is created or replaced and the directory lists it. *)
Definition writeFileSync (fs : FS) (d f : jsstring) (now : Z)
  (content : jsstring) : FS :=
  fun p =>
    if jsstring_eqb p (path.join d f) then Some (File now (Some content))
    else if jsstring_eqb p d then
      match fs d with
      | Some (Dir t es) =>
          Some (Dir (if existsb (jsstring_eqb f) es then t else now)
                    (if existsb (jsstring_eqb f) es then es else es ++ [f]))
      | other => other
      end
    else fs p.

(** ** Configuration constants *)

Definition IMAGE_EXTENSIONS : list jsstring :=
  [js ".jpg"; js ".jpeg"; js ".png"; js ".gif"; js ".webp"].

Definition AUDIO_EXTENSIONS : list jsstring := [js ".wav"].

(** [PATHS], relative to [process.cwd()]. *)
Module PATHS.
Definition UPLOADS (cwd : jsstring) : jsstring := path.join cwd (js "uploads").
Definition OUTPUTS (cwd : jsstring) : jsstring := path.join cwd (js "outputs").
Definition TEXTS (cwd : jsstring) : jsstring := path.join cwd (js "texts").
End PATHS.

(** ** Text files *)

Definition readTextFile (fs : FS) (filePath : jsstring) : jsstring :=
  if negb (existsSync fs filePath) then []
  else
    match readFileSync fs filePath with
    | Some content => trim content
    | None => []   (* catch *)
    end.

(** ** File matching functions *)

(** [extensions.includes(ext)] *)
Definition includes (l : list jsstring) (x : jsstring) : bool :=
  existsb (jsstring_eqb x) l.

(** [None] stands for the exception [fs.readdirSync] throws. *)
Definition getFilesByExtension (fs : FS) (dirPath : jsstring)
  (extensions : list jsstring) : option (list jsstring) :=
  if negb (existsSync fs dirPath) then Some []
  else
    match readdirSync fs dirPath with
    | Some entries =>
        Some (filter (fun file =>
                        let ext := toLowerCase (path.extname file) in
                        includes extensions ext) entries)
    | None => None
    end.

(** *** [Map<string, string>]

    A JavaScript [Map] iterates in insertion order and [set] on a present key
    keeps the key's position: an association list without duplicate keys. *)

Definition JsMap := list (jsstring * jsstring).

Fixpoint map_get (k : jsstring) (m : JsMap) : option jsstring :=
  match m with
  | [] => None
  | (k', v) :: r => if jsstring_eqb k k' then Some v else map_get k r
  end.

Definition map_has (k : jsstring) (m : JsMap) : bool :=
  match map_get k m with
  | Some _ => true
  | None => false
  end.

Fixpoint map_set (k v : jsstring) (m : JsMap) : JsMap :=
  match m with
  | [] => [(k, v)]
  | (k', v') :: r =>
      if jsstring_eqb k k' then (k', v) :: r else (k', v') :: map_set k v r
  end.

Definition map_keys (m : JsMap) : list jsstring := List.map fst m.

(** The callback of [files.forEach] in [createFileMap]. *)
Definition createFileMap_step (fs : FS)
  (getBaseNameFn : jsstring -> jsstring) (dirPath : jsstring)
  (map : JsMap) (file : jsstring) : JsMap :=
  let baseName := getBaseNameFn file in
  if negb (map_has baseName map) then map_set baseName file map
  else
    match map_get baseName map with
    | Some existingFile =>
        let existingPath := path.join dirPath existingFile in
        let newPath := path.join dirPath file in
        let existingMtime := mtimeOrZero fs existingPath in
        let newMtime := mtimeOrZero fs newPath in
        if newMtime >? existingMtime then map_set baseName file map
        else map
    | None => map   (* [map.get(baseName)!]: not reached, the key is there *)
    end.

Definition createFileMap (fs : FS) (files : list jsstring)
  (getBaseNameFn : jsstring -> jsstring) (dirPath : jsstring) : JsMap :=
  fold_left (createFileMap_step fs getBaseNameFn dirPath) files [].

Record MatchedFile := {
  imageUrl : jsstring;
  audioUrl : jsstring;
  name : jsstring;
  prompt : option jsstring
}.

(** [new Set(keys)]: the keys in order of first occurrence. *)
Fixpoint new_Set_from (seen : list jsstring) (l : list jsstring)
  : list jsstring :=
  match l with
  | [] => rev seen
  | k :: r =>
      if existsb (jsstring_eqb k) seen then new_Set_from seen r
      else new_Set_from (k :: seen) r
  end.

Definition new_Set (l : list jsstring) : list jsstring := new_Set_from [] l.

(** A value of type [string | undefined] in a condition. *)
Definition truthy (v : option jsstring) : bool :=
  match v with
  | Some (_ :: _) => true
  | _ => false
  end.

(** [prompt || undefined] *)
Definition or_undefined (s : jsstring) : option jsstring :=
  match s with
  | [] => None
  | _ => Some s
  end.

(** [Array.prototype.sort(compareFn)]: the language requires a stable sort,
    and a consistent comparator leaves one possible result, computed here by
    insertion.  [a] goes before [b] when [compareFn a b < 0]. *)
Section Sort.
Context {A : Type} (compareFn : A -> A -> Z).

Fixpoint sort_insert (x : A) (l : list A) : list A :=
  match l with
  | [] => [x]
  | y :: r =>
      if compareFn x y <=? 0 then x :: y :: r else y :: sort_insert x r
  end.

Fixpoint sort (l : list A) : list A :=
  match l with
  | [] => []
  | x :: r => sort_insert x (sort r)
  end.
End Sort.

(** The modification time the comparator of [matchFiles] reads for a record. *)
Definition sort_mtime (cwd : jsstring) (fs : FS) (a : MatchedFile) : Z :=
  let imagePath :=
    path.join (PATHS.UPLOADS cwd)
      (or_empty (pop (split CHAR_FORWARD_SLASH (imageUrl a)))) in
  mtimeOrZero fs imagePath.

Definition matchFiles_compare (cwd : jsstring) (fs : FS)
  (a b : MatchedFile) : Z :=
  let mtimeA := sort_mtime cwd fs a in
  let mtimeB := sort_mtime cwd fs b in
  mtimeB - mtimeA.

(** [`${v}`] for [v : string | undefined]. *)
Definition template (v : option jsstring) : jsstring :=
  match v with
  | Some s => s
  | None => js "undefined"
  end.

(** The callback of [allBaseNames.forEach]. *)
Definition matchFiles_step (cwd : jsstring) (fs : FS)
  (imageMap audioMap : JsMap) (matchedFiles : list MatchedFile)
  (baseName : jsstring) : list MatchedFile :=
  let imageFile := map_get baseName imageMap in
  let audioFile := map_get baseName audioMap in
  if truthy imageFile && truthy audioFile then
    let textFilePath :=
      path.join (PATHS.TEXTS cwd) (baseName ++ js ".txt") in
    let prompt := readTextFile fs textFilePath in
    matchedFiles ++
      [{| imageUrl := js "/uploads/" ++ template imageFile;
          audioUrl := js "/outputs/" ++ template audioFile;
          name := baseName;
          prompt := or_undefined prompt |}]
  else matchedFiles.

(** The resolver the audio map is built with. *)
Definition audioBaseName (file : jsstring) : jsstring :=
  path.name (path.parse file).

(** What [matchFiles] does once both listings are known. *)
Definition matchFiles_from (cwd : jsstring) (fs : FS)
  (uploadFiles outputFiles : list jsstring) : list MatchedFile :=
  let imageMap :=
    createFileMap fs uploadFiles getBaseName (PATHS.UPLOADS cwd) in
  let audioMap :=
    createFileMap fs outputFiles audioBaseName (PATHS.OUTPUTS cwd) in
  let allBaseNames := new_Set (map_keys imageMap ++ map_keys audioMap) in
  let matchedFiles :=
    fold_left (matchFiles_step cwd fs imageMap audioMap) allBaseNames [] in
  sort (matchFiles_compare cwd fs) matchedFiles.

(** [matchFiles()]; [None] stands for an exception. *)
Definition matchFiles (cwd : jsstring) (fs : FS)
  : option (list MatchedFile) :=
  match getFilesByExtension fs (PATHS.UPLOADS cwd) IMAGE_EXTENSIONS with
  | None => None
  | Some uploadFiles =>
      match getFilesByExtension fs (PATHS.OUTPUTS cwd) AUDIO_EXTENSIONS with
      | None => None
      | Some outputFiles =>
          Some (matchFiles_from cwd fs uploadFiles outputFiles)
      end
  end.

(** ** [POST /api/generate]

    The names and files of a request that succeeds: the upload [multer]
    stored, then the audio and the prompt text the handler writes. *)

(** The [filename] callback of the disk storage. *)
Definition storage_filename (originalname : jsstring) : jsstring :=
  let originalName := path.name (path.parse originalname) in
  let ext := path.extname originalname in
  originalName ++ ext.

Record GenerateResponse := {
  res_imageUrl : jsstring;
  res_prompt : jsstring;
  res_audioUrl : jsstring;
  res_filename : jsstring
}.

Definition generate_imageBaseName (originalname : jsstring) : jsstring :=
  path.name (path.parse originalname).

Definition generate_outputFilename (originalname : jsstring) : jsstring :=
  generate_imageBaseName originalname ++ js ".wav".

Definition generate_textFilename (originalname : jsstring) : jsstring :=
  generate_imageBaseName originalname ++ js ".txt".

(** A successful request: [image] and [audio] are the bytes of the upload and
    of the synthesised track (their content plays no role in matching),
    [musicPrompt] the text the analysis returned, [now] the time of the
    writes.  All three writes succeed: the directories exist and no directory
    stands at a target. *)
Definition generate_success (cwd : jsstring) (fs : FS)
  (originalname image musicPrompt audio : jsstring) (now : Z)
  : FS * GenerateResponse :=
  let filename := storage_filename originalname in
  let fs1 := writeFileSync fs (PATHS.UPLOADS cwd) filename now image in
  let outputFilename := generate_outputFilename originalname in
  let fs2 := writeFileSync fs1 (PATHS.OUTPUTS cwd) outputFilename now audio in
  let fs3 :=
    writeFileSync fs2 (PATHS.TEXTS cwd) (generate_textFilename originalname)
      now musicPrompt in
  (fs3,
   {| res_imageUrl := js "/uploads/" ++ filename;
      res_prompt := musicPrompt;
      res_audioUrl := js "/outputs/" ++ outputFilename;
      res_filename := outputFilename |}).

(** * Vocabulary of the statements *)

(** A non-empty string of decimal digits. *)
Definition decimal_digits (d : jsstring) : Prop :=
  d <> [] /\ forall c, In c d -> (48 <= c <= 57)%N.

(** The modification time [createFileMap] compares a file by. *)
Definition file_mtime (fs : FS) (dirPath file : jsstring) : Z :=
  mtimeOrZero fs (path.join dirPath file).

(** What the map holds once the files [l] have been visited: under each
    key a visited file of that name that no visited file of that name is
    newer than, and every visited file's name is a key. *)
Definition built (fs : FS) (getBaseNameFn : jsstring -> jsstring)
  (dirPath : jsstring) (l : list jsstring) (m : JsMap) : Prop :=
  (forall k w, map_get k m = Some w ->
     In w l /\ getBaseNameFn w = k /\
     forall f, In f l -> getBaseNameFn f = k ->
               file_mtime fs dirPath f <= file_mtime fs dirPath w)
  /\ (forall f, In f l -> map_get (getBaseNameFn f) m <> None).

(** Newest first, for a sort key [key]. *)
Definition descending {A : Type} (key : A -> Z) (a b : A) : Prop :=
  key b <= key a.

(** The path of the prompt text of a name. *)
Definition textFilePath (cwd baseName : jsstring) : jsstring :=
  path.join (PATHS.TEXTS cwd) (baseName ++ js ".txt").

(** The record pushed for a name with image [i] and audio [a]. *)
Definition record_for (cwd : jsstring) (fs : FS) (k i a : jsstring)
  : MatchedFile :=
  {| imageUrl := js "/uploads/" ++ i;
     audioUrl := js "/outputs/" ++ a;
     name := k;
     prompt := or_undefined (readTextFile fs (textFilePath cwd k)) |}.

(** What one turn of the loop over the names pushes. *)
Definition emitted (cwd : jsstring) (fs : FS) (imageMap audioMap : JsMap)
  (k : jsstring) : list MatchedFile :=
  matchFiles_step cwd fs imageMap audioMap [] k.

Definition imageMapOf (cwd : jsstring) (fs : FS) (uploadFiles : list jsstring)
  : JsMap :=
  createFileMap fs uploadFiles getBaseName (PATHS.UPLOADS cwd).

Definition audioMapOf (cwd : jsstring) (fs : FS) (outputFiles : list jsstring)
  : JsMap :=
  createFileMap fs outputFiles audioBaseName (PATHS.OUTPUTS cwd).

(** The names [matchFiles] iterates over. *)
Definition allBaseNamesOf (cwd : jsstring) (fs : FS)
  (uploadFiles outputFiles : list jsstring) : list jsstring :=
  new_Set (map_keys (imageMapOf cwd fs uploadFiles)
           ++ map_keys (audioMapOf cwd fs outputFiles)).

(** ** The scanning loop of [path.parse] on a single segment *)

(** The state of the loop once the code units [suf], which start at index
    [off] and hold no separator, have been visited from the right. *)
Definition scanned (off : Z) (suf : jsstring) : path.scan_state :=
  match suf with
  | [] => path.scan_init
  | c :: r =>
      {| path.startDot := lastIndexOf_from CHAR_DOT suf off;
         path.startPart := 0;
         path.end_ := off + jslength suf;
         path.matchedSlash := false;
         path.preDotState :=
           if lastIndexOf_from CHAR_DOT r (off + 1) =? -1 then 0
           else if jschar_eqb c CHAR_DOT then 1 else -1 |}
  end.

(** ** The claims that fail, as the specification words them *)

(** The resolver as the specification words it: any trailing dash-digits
    segment of the stem is stripped, also one that is the whole stem. *)
Definition resolves_as_stated (filename : jsstring) : Prop :=
  let stem := path.name (path.parse filename) in
  (forall p d, stem = p ++ CHAR_DASH :: d -> decimal_digits d ->
               getBaseName filename = p)
  /\ ((~ exists p d, stem = p ++ CHAR_DASH :: d /\ decimal_digits d) ->
      getBaseName filename = stem).

(** Two extensions that differ by case only. *)
Definition eq_ignoring_case (a b : jsstring) : Prop :=
  toLowerCase a = toLowerCase b.

(** The scanner as the specification words it, for any accepted set. *)
Definition scans_as_stated (fs : FS) (dirPath : jsstring)
  (extensions : list jsstring) : Prop :=
  (existsSync fs dirPath = false ->
   getFilesByExtension fs dirPath extensions = Some [])
  /\ forall entries,
       readdirSync fs dirPath = Some entries ->
       exists files,
         getFilesByExtension fs dirPath extensions = Some files
         /\ forall f,
              In f files <->
              In f entries
              /\ exists e, In e extensions
                           /\ eq_ignoring_case (path.extname f) e.


(** ** Example snapshots *)

(** The three directories right after [setupDirectories()], empty. *)
Definition empty_dirs (cwd : jsstring) : FS :=
  fun p =>
    if jsstring_eqb p (PATHS.UPLOADS cwd) then Some (Dir 0 [])
    else if jsstring_eqb p (PATHS.OUTPUTS cwd) then Some (Dir 0 [])
    else if jsstring_eqb p (PATHS.TEXTS cwd) then Some (Dir 0 [])
    else None.

(** A snapshot given by the listings of the uploads and outputs directories
    and a table of the other paths. *)
Fixpoint lookup_node (p : jsstring) (table : list (jsstring * node))
  : option node :=
  match table with
  | [] => None
  | (q, n) :: r => if jsstring_eqb p q then Some n else lookup_node p r
  end.

Definition snapshot (cwd : jsstring) (uploads outputs : list jsstring)
  (table : list (jsstring * node)) : FS :=
  fun p =>
    if jsstring_eqb p (PATHS.UPLOADS cwd) then Some (Dir 0 uploads)
    else if jsstring_eqb p (PATHS.OUTPUTS cwd) then Some (Dir 0 outputs)
    else lookup_node p table.

Definition cwd0 : jsstring := js "/srv".

(** Images of times 300, 100 and 200, each with its audio; "e.JPG" is listed
    but cannot be stat'ed; "a.txt" holds a prompt, "b.txt" only blanks,
    "c.txt" is missing and "e.txt" is a directory. *)
Definition gallery : FS :=
  snapshot cwd0
    [js "a.jpg"; js "b.png"; js "c.gif"; js "d.txt"; js "e.JPG"; js "lone.webp"]
    [js "a.wav"; js "b.wav"; js "c.wav"; js "e.wav"; js "zz.wav"]
    [(js "/srv/uploads/a.jpg", File 300 None);
     (js "/srv/uploads/b.png", File 100 None);
     (js "/srv/uploads/c.gif", File 200 None);
     (js "/srv/texts/a.txt", File 5 (Some (js "  calm piano  ")));
     (js "/srv/texts/b.txt", File 5 (Some (js "   ")));
     (js "/srv/texts/e.txt", Dir 5 [])].

(** The entries of the gallery that have an accepted extension. *)
Definition gallery_uploads : list jsstring :=
  [js "a.jpg"; js "b.png"; js "c.gif"; js "e.JPG"; js "lone.webp"].

Definition gallery_outputs : list jsstring :=
  [js "a.wav"; js "b.wav"; js "c.wav"; js "e.wav"; js "zz.wav"].

(** Three matched images of times 300, 100, 200, in listing order. *)
Definition three_images : FS :=
  snapshot cwd0 [js "x.jpg"; js "y.jpg"; js "z.jpg"]
    [js "x.wav"; js "y.wav"; js "z.wav"]
    [(js "/srv/uploads/x.jpg", File 300 None);
     (js "/srv/uploads/y.jpg", File 100 None);
     (js "/srv/uploads/z.jpg", File 200 None)].

(** Two uploads of one logical name, the second one newer. *)
Definition two_sunsets : FS :=
  snapshot cwd0 [js "sunset-1.jpg"; js "sunset-2.jpg"] []
    [(js "/srv/uploads/sunset-1.jpg", File 10 (Some (js "old")));
     (js "/srv/uploads/sunset-2.jpg", File 20 (Some (js "new")))].

(** The same names and times with other contents. *)
Definition two_sunsets' : FS :=
  snapshot cwd0 [js "sunset-1.jpg"; js "sunset-2.jpg"] [js "sunset.wav"]
    [(js "/srv/uploads/sunset-1.jpg", File 10 None);
     (js "/srv/uploads/sunset-2.jpg", Dir 20 [])].

(** A directory that holds one image with an upper-case extension. *)
Definition upper_case_dir : FS := snapshot cwd0 [js "a.JPG"] [] [].

(** * Further definitions *)

(** ** The region the scanning loop has settled

    Once the loop of [path.parse] has visited the indices from [n] on, either
    it has seen separators only, or the last component ends at [end_], no
    separator stands in [n, end_), and the first dot found from the right, if
    any, stands in that range. *)
Definition scan_inv (p : jsstring) (n : Z) (st : path.scan_state) : Prop :=
  path.startPart st = 0
  /\ ((path.end_ st = -1 /\ path.startDot st = -1
       /\ path.matchedSlash st = true)
      \/ (path.matchedSlash st = false
          /\ n < path.end_ st <= jslength p
          /\ (forall i, n <= i < path.end_ st ->
                        charCodeAt p i <> CHAR_FORWARD_SLASH)
          /\ (path.startDot st = -1
              \/ (n <= path.startDot st < path.end_ st
                  /\ charCodeAt p (path.startDot st) = CHAR_DOT)))).

(** What the loop leaves behind when it is over, for the lower bound [lo]:
    the last component is [b, end_), with [b] the greater of [lo] and
    [startPart]. *)
Definition scan_post (p : jsstring) (lo : Z) (st : path.scan_state) : Prop :=
  path.end_ st = -1
  \/ (let b := Z.max lo (path.startPart st) in
      (path.startPart st = 0 \/ lo < path.startPart st)
      /\ 0 <= b < path.end_ st /\ path.end_ st <= jslength p
      /\ (forall i, b <= i < path.end_ st ->
                    charCodeAt p i <> CHAR_FORWARD_SLASH)
      /\ (path.startDot st = -1
          \/ (b <= path.startDot st < path.end_ st
              /\ charCodeAt p (path.startDot st) = CHAR_DOT))).

(** ** Upload filter and MIME types *)

(** [s.startsWith(prefix)] *)
Definition startsWith (s prefix : jsstring) : bool :=
  jsstring_eqb (firstn (List.length prefix) s) prefix.

(** The [fileFilter] of the upload middleware: [true] for [cb(null, true)],
    [false] for [cb(new Error('Only image files are allowed!'))]. *)
Definition fileFilter (originalname mimetype : jsstring) : bool :=
  let ext := toLowerCase (path.extname originalname) in
  let isValidExtension := includes IMAGE_EXTENSIONS ext in
  let isValidMimeType := startsWith mimetype (js "image/") in
  isValidExtension && isValidMimeType.

(** The own properties of the object [MIME_TYPES].  It is only ever indexed
    by an extension, which is empty or starts with a dot, so no inherited
    property is ever reached. *)
Definition MIME_TYPES : list (jsstring * jsstring) :=
  [(js ".jpg", js "image/jpeg");
   (js ".jpeg", js "image/jpeg");
   (js ".png", js "image/png");
   (js ".gif", js "image/gif");
   (js ".webp", js "image/webp")].

Definition getMimeType (filePath : jsstring) : jsstring :=
  let ext := toLowerCase (path.extname filePath) in
  match map_get ext MIME_TYPES with
  | Some (c :: r) => c :: r
  | _ => js "image/png"
  end.

(** ** Which file of a name the map keeps

    Once the files [l] have been visited, the file held under a name stands
    in [l] after strictly older files of that name only, and before files of
    that name that are not newer. *)
Definition first_newest (fs : FS) (getBaseNameFn : jsstring -> jsstring)
  (dirPath : jsstring) (l : list jsstring) (m : JsMap) : Prop :=
  forall k w, map_get k m = Some w ->
    exists l1 l2,
      l = l1 ++ w :: l2
      /\ (forall f, In f l1 -> getBaseNameFn f = k ->
                    file_mtime fs dirPath f < file_mtime fs dirPath w)
      /\ (forall f, In f l2 -> getBaseNameFn f = k ->
                    file_mtime fs dirPath f <= file_mtime fs dirPath w).

(** ** [GET /api/files] *)

(** [res.json({ files })] with status 200, or status 500 with the error. *)
Inductive FilesResponse :=
| Files200 (files : list MatchedFile)
| Files500.

Definition api_files (cwd : jsstring) (fs : FS) : FilesResponse :=
  match matchFiles cwd fs with
  | Some files => Files200 files
  | None => Files500   (* catch *)
  end.

(** A string that neither starts nor ends with white space. *)
Definition trimmed (s : jsstring) : Prop :=
  match s with
  | [] => True
  | c :: _ => is_white_space c = false
  end
  /\ match rev s with
     | [] => True
     | c :: _ => is_white_space c = false
     end.

(** [s.isWellFormed()]: no surrogate code unit stands alone.  A text is
    written as UTF-8 and decoded when it is read back with ['utf-8'], which
    turns every lone surrogate into U+FFFD: what is read is what was written
    exactly for the strings that are well formed. *)
Definition is_high_surrogate (c : jschar) : bool :=
  ((55296 <=? c) && (c <=? 56319))%N.

Definition is_low_surrogate (c : jschar) : bool :=
  ((56320 <=? c) && (c <=? 57343))%N.

Fixpoint isWellFormed (s : jsstring) : bool :=
  match s with
  | [] => true
  | c :: r =>
      if is_high_surrogate c then
        match r with
        | c' :: r' => is_low_surrogate c' && isWellFormed r'
        | [] => false
        end
      else negb (is_low_surrogate c) && isWellFormed r
  end.

(** A name that is part of one path segment: it holds no separator and no
    NUL, which no file name may hold.  Joined to a directory, a segment made
    of such a name and an extension is a child of that directory, and
    distinct segments are distinct children. *)
Definition plain_name (k : jsstring) : Prop :=
  ~ In CHAR_FORWARD_SLASH k /\ ~ In 0%N k.

(** A snapshot in which the uploads path is a regular file. *)
Definition uploads_is_a_file : FS :=
  fun p =>
    if jsstring_eqb p (PATHS.UPLOADS cwd0) then Some (File 1 (Some (js "x")))
    else if jsstring_eqb p (PATHS.OUTPUTS cwd0) then Some (Dir 1 [])
    else None.

(** The record [matchFiles] is to return for an upload once its audio and
    prompt have been written. *)
Definition generated_record (originalname musicPrompt : jsstring)
  : MatchedFile :=
  {| imageUrl := js "/uploads/" ++ originalname;
     audioUrl := js "/outputs/" ++ generate_outputFilename originalname;
     name := generate_imageBaseName originalname;
     prompt := or_undefined (trim musicPrompt) |}.

(** ** Exceptions *)

(** What a function returns or throws.  [Throw (Some m)] is [new Error(m)];
    [Throw None] is an error raised by the platform or by a service, whose
    message is not modelled. *)
Inductive result (A : Type) :=
| Ok (a : A)
| Throw (message : option jsstring).

Arguments Ok {A} a.
Arguments Throw {A} message.

(** ** Authentication set-up *)

(** [PATHS.SERVICE_ACCOUNT_KEY], for an absolute [process.cwd()]. *)
Definition SERVICE_ACCOUNT_KEY (cwd : jsstring) : jsstring :=
  path.join cwd (js "service-account-key.json").

(** [setupAuthentication()], on the value of
    [process.env.GOOGLE_APPLICATION_CREDENTIALS]; returns its new value. *)
Definition setupAuthentication (cwd : jsstring) (fs : FS)
  (credentials : option jsstring) : result (option jsstring) :=
  if negb (truthy credentials) then
    if negb (existsSync fs (SERVICE_ACCOUNT_KEY cwd)) then
      Throw (Some (js "Service account key file not found at: "
                   ++ SERVICE_ACCOUNT_KEY cwd))
    else Ok (Some (SERVICE_ACCOUNT_KEY cwd))
  else Ok credentials.

(** ** The answer of the analysis service *)

Module Gemini.

(** The fields of the result of [generateContent] that are read. *)
Record Part := { text : option jsstring }.
Record Content := { parts : option (list Part) }.
Record Candidate := { content : option Content }.
Record GenerateContentResponse :=
  { candidates : option (list (option Candidate)) }.
Record GenerateContentResult :=
  { response : option GenerateContentResponse }.

(** [generateMusicPromptFromImage] from the point where the call has
    returned [answer]. *)
Definition musicPromptOf (answer : option GenerateContentResult)
  : result jsstring :=
  match answer with
  | Some {| response := Some r |} =>
      match candidates r with
      | Some (candidate :: _) =>
          let parts :=
            match candidate with
            | Some {| content := Some c |} => parts c
            | _ => None
            end in
          match parts with
          | Some (part :: _) =>
              let musicPrompt := option_map trim (text part) in
              match musicPrompt with
              | Some (c :: r) => Ok (c :: r)
              | _ =>
                  Throw (Some (js "Analysis failed: Gemini could not generate a music prompt"))
              end
          | _ => Throw (Some (js "Invalid candidate structure"))
          end
      | _ => Throw (Some (js "No candidates in Gemini response"))
      end
  | _ => Throw (Some (js "Invalid response from Gemini API"))
  end.

End Gemini.

(** ** The answer of the synthesis service *)

Module Lyria.

Record Prediction := {
  audioContent : option jsstring;
  bytesBase64Encoded : option jsstring
}.

(** The response of [fetch]: [status] is the status code as the template
    literal prints it, [text] the body read on failure, [predictions] the
    field of the parsed body ([Throw] when [response.json()] rejects). *)
Record Response := {
  ok : bool;
  status : jsstring;
  statusText : jsstring;
  text : jsstring;
  predictions : result (option (list Prediction))
}.

(** [a || b] on [string | undefined]. *)
Definition or_else (a b : option jsstring) : option jsstring :=
  if truthy a then a else b.

(** [generateMusicWithLyria] between the answer of [fetch] and the decoding:
    the base64 text of the audio. *)
Definition audioContentOf (response : Response) : result jsstring :=
  if negb (ok response) then
    Throw (Some (js "Lyria API error: " ++ status response ++ js " "
                 ++ statusText response ++ js ". " ++ text response))
  else
    match predictions response with
    | Throw m => Throw m
    | Ok (Some (prediction :: _)) =>
        let audioContentBase64 :=
          or_else (bytesBase64Encoded prediction) (audioContent prediction) in
        match audioContentBase64 with
        | Some (c :: r) => Ok (c :: r)
        | _ => Throw (Some (js "No audio data in prediction"))
        end
    | Ok _ => Throw (Some (js "Lyria returned no audio prediction"))
    end.

End Lyria.

(** ** The handler of [POST /api/generate] *)

(** [fs.writeFileSync(d/f, content)] with its failures: it throws when [d]
    is not an existing directory or when [d/f] is a directory. *)
Definition writeFileSync_checked (fs : FS) (d f : jsstring) (now : Z)
  (content : jsstring) : option FS :=
  match fs d with
  | Some (Dir _ _) =>
      match fs (path.join d f) with
      | Some (Dir _ _) => None
      | _ => Some (writeFileSync fs d f now content)
      end
  | _ => None
  end.

(** [saveTextFile(d/f, content)]: a failed write is logged and dropped. *)
Definition saveTextFile (fs : FS) (d f : jsstring) (now : Z)
  (content : jsstring) : FS :=
  match writeFileSync_checked fs d f now content with
  | Some fs' => fs'
  | None => fs   (* catch *)
  end.

(** [req.file] as the disk storage fills it in. *)
Record MulterFile := {
  originalname : jsstring;
  filename : jsstring;
  path_ : jsstring
}.

Definition multer_file (cwd originalname : jsstring) : MulterFile :=
  {| originalname := originalname;
     filename := storage_filename originalname;
     path_ := path.join (PATHS.UPLOADS cwd) (storage_filename originalname) |}.

(** [generateMusicPromptFromImage(imagePath)].  The request (the bytes of
    the image and its MIME type) is not modelled; [analysis] is what the call
    to the service gives. *)
Definition generateMusicPromptFromImage (fs : FS) (imagePath : jsstring)
  (analysis : result (option Gemini.GenerateContentResult))
  : result jsstring :=
  if negb (existsSync fs imagePath) then
    Throw (Some (js "File not found at path: " ++ imagePath))
  else
    match readFileSync fs imagePath with
    | None => Throw None
    | Some _ =>
        match analysis with
        | Throw m => Throw m
        | Ok answer => Gemini.musicPromptOf answer
        end
    end.

(** [generateMusicWithLyria(prompt, d/f)].  [synthesis] is what obtaining a
    token and calling the service give, [decode] the base64 decoder of
    [Buffer.from]. *)
Definition generateMusicWithLyria (fs : FS)
  (synthesis : result Lyria.Response) (decode : jsstring -> jsstring)
  (d f : jsstring) (now : Z) : result FS :=
  match synthesis with
  | Throw m => Throw m
  | Ok response =>
      match Lyria.audioContentOf response with
      | Throw m => Throw m
      | Ok audioContentBase64 =>
          match writeFileSync_checked fs d f now
                  (decode audioContentBase64) with
          | Some fs' => Ok fs'
          | None => Throw None
          end
      end
  end.

(** The answers of the handler: 400, 500 with [error.message || 'Failed to
    generate music'] ([None] for a message that is not modelled), 200. *)
Inductive GenerateAnswer :=
| Generate400
| Generate500 (error : option jsstring)
| Generate200 (body : GenerateResponse).

Definition error_of (message : option jsstring) : option jsstring :=
  match message with
  | Some [] => Some (js "Failed to generate music")
  | other => other
  end.

Definition api_generate (cwd : jsstring) (fs : FS) (file : option MulterFile)
  (analysis : result (option Gemini.GenerateContentResult))
  (synthesis : result Lyria.Response) (decode : jsstring -> jsstring)
  (now : Z) : FS * GenerateAnswer :=
  match file with
  | None => (fs, Generate400)
  | Some file =>
      let imagePath := path_ file in
      let imageUrl := js "/uploads/" ++ filename file in
      let outputFilename := generate_outputFilename (originalname file) in
      let outputUrl := js "/outputs/" ++ outputFilename in
      match generateMusicPromptFromImage fs imagePath analysis with
      | Throw m => (fs, Generate500 (error_of m))
      | Ok musicPrompt =>
          match generateMusicWithLyria fs synthesis decode
                  (PATHS.OUTPUTS cwd) outputFilename now with
          | Throw m => (fs, Generate500 (error_of m))
          | Ok fs' =>
              (saveTextFile fs' (PATHS.TEXTS cwd)
                 (generate_textFilename (originalname file)) now musicPrompt,
               Generate200
               {| res_imageUrl := imageUrl;
                  res_prompt := musicPrompt;
                  res_audioUrl := outputUrl;
                  res_filename := outputFilename |})
          end
      end
  end.

(** A response of the synthesis service with one prediction. *)
Definition lyria_ok (b64 : jsstring) : Lyria.Response :=
  {| Lyria.ok := true; Lyria.status := js "200"; Lyria.statusText := js "OK";
     Lyria.text := [];
     Lyria.predictions :=
       Ok (Some [{| Lyria.audioContent := None;
                    Lyria.bytesBase64Encoded := Some b64 |}]) |}.

(** An answer of the analysis service with one text part. *)
Definition gemini_ok (t : jsstring) : option Gemini.GenerateContentResult :=
  Some {| Gemini.response :=
    Some {| Gemini.candidates :=
      Some [Some {| Gemini.content :=
        Some {| Gemini.parts := Some [{| Gemini.text := Some t |}] |} |}]
    |} |}.

(** The modification time of the image the map holds under a name. *)
Definition image_time (cwd : jsstring) (fs : FS)
  (uploadFiles : list jsstring) (k : jsstring) : Z :=
  match map_get k (imageMapOf cwd fs uploadFiles) with
  | Some i => file_mtime fs (PATHS.UPLOADS cwd) i
  | None => 0
  end.

(** Three matched images, "y" and "x" of the same time, listed in that
    order, and an older "w" listed first. *)
Definition tied_images : FS :=
  snapshot cwd0 [js "w.jpg"; js "y.jpg"; js "x.jpg"]
    [js "x.wav"; js "w.wav"; js "y.wav"]
    [(js "/srv/uploads/w.jpg", File 1 None);
     (js "/srv/uploads/y.jpg", File 5 None);
     (js "/srv/uploads/x.jpg", File 5 None)].

(** * Properties *)

Ltac absent_char :=
  vm_compute; let H := fresh in
  intros H; repeat (destruct H as [H|H]; [discriminate H|]); exact H.

(** ** Strings *)

Lemma jsstring_eqb_eq (a b : jsstring) : jsstring_eqb a b = true <-> a = b.
Proof.
  revert b; induction a as [|x a IH]; intros [|y b]; simpl;
    try (split; [discriminate | discriminate]); try tauto.
  unfold jschar_eqb. rewrite andb_true_iff, N.eqb_eq, IH.
  split; [intros [-> ->]; reflexivity | intros H; inversion H; auto].
Qed.

Lemma jsstring_eqb_refl (a : jsstring) : jsstring_eqb a a = true.
Proof. apply jsstring_eqb_eq; reflexivity. Qed.

Lemma jsstring_eqb_neq (a b : jsstring) : jsstring_eqb a b = false <-> a <> b.
Proof.
  rewrite <- jsstring_eqb_eq. destruct (jsstring_eqb a b); split; congruence.
Qed.

Lemma jslength_app (a b : jsstring) : jslength (a ++ b) = jslength a + jslength b.
Proof. unfold jslength. rewrite length_app. lia. Qed.

Lemma jslength_nonneg (a : jsstring) : 0 <= jslength a.
Proof. unfold jslength. lia. Qed.

Lemma jslength_cons (c : jschar) (a : jsstring) :
  jslength (c :: a) = 1 + jslength a.
Proof. unfold jslength. rewrite length_cons. lia. Qed.

Lemma jslength_nil : jslength [] = 0.
Proof. reflexivity. Qed.

(** *** [lastIndexOf] *)

Lemma lastIndexOf_from_absent c s i :
  ~ In c s -> lastIndexOf_from c s i = -1.
Proof.
  revert i; induction s as [|x r IH]; intros i Hn; simpl; [reflexivity|].
  rewrite IH by (intros H; apply Hn; right; exact H).
  simpl. unfold jschar_eqb.
  destruct (N.eqb_spec x c) as [->|]; [exfalso; apply Hn; left; reflexivity|].
  reflexivity.
Qed.

Lemma lastIndexOf_from_last c p d i :
  ~ In c d -> 0 <= i ->
  lastIndexOf_from c (p ++ c :: d) i = i + jslength p.
Proof.
  intros Hd. revert i; induction p as [|x p IH]; intros i Hi;
    cbn [app lastIndexOf_from].
  - rewrite lastIndexOf_from_absent by exact Hd.
    cbn [Z.geb Z.compare]. unfold jschar_eqb. rewrite N.eqb_refl.
    rewrite jslength_nil. lia.
  - rewrite IH by lia.
    assert (H : (i + 1 + jslength p >=? 0) = true).
    { apply Z.geb_le. pose proof (jslength_nonneg p). lia. }
    rewrite H, jslength_cons. lia.
Qed.

Lemma lastIndexOf_from_range c s i :
  0 <= i -> lastIndexOf_from c s i = -1 \/ i <= lastIndexOf_from c s i.
Proof.
  revert i; induction s as [|x r IH]; intros i Hi; cbn [lastIndexOf_from].
  - left; reflexivity.
  - destruct (IH (i + 1) ltac:(lia)) as [H|H].
    + rewrite H. cbn [Z.geb Z.compare].
      destruct (jschar_eqb x c); [right; lia | left; reflexivity].
    + destruct (lastIndexOf_from c r (i + 1) >=? 0) eqn:E.
      * right; lia.
      * rewrite Z.geb_leb in E; apply Z.leb_gt in E. lia.
Qed.

Lemma lastIndexOf_from_present c s i :
  0 <= i -> In c s -> 0 <= lastIndexOf_from c s i.
Proof.
  revert i; induction s as [|x r IH]; intros i Hi Hin; [destruct Hin|].
  cbn [lastIndexOf_from].
  destruct (lastIndexOf_from c r (i + 1) >=? 0) eqn:E.
  - apply Z.geb_le in E. exact E.
  - destruct Hin as [->|Hin].
    + unfold jschar_eqb. rewrite N.eqb_refl. exact Hi.
    + apply (IH (i + 1)) in Hin; [|lia].
      rewrite Z.geb_leb in E; apply Z.leb_gt in E. lia.
Qed.

Lemma lastIndexOf_from_found c s i k :
  0 <= i -> lastIndexOf_from c s i = k -> 0 <= k ->
  exists p d, s = p ++ c :: d /\ ~ In c d /\ k = i + jslength p.
Proof.
  revert i k; induction s as [|x r IH]; intros i k Hi Hk Hk0;
    cbn [lastIndexOf_from] in Hk.
  - lia.
  - destruct (lastIndexOf_from c r (i + 1) >=? 0) eqn:E.
    + apply Z.geb_le in E.
      destruct (IH (i + 1) k ltac:(lia) Hk ltac:(lia)) as (p & d & -> & Hd & ->).
      exists (x :: p), d. repeat split; auto.
      rewrite jslength_cons. lia.
    + unfold jschar_eqb in Hk. destruct (N.eqb_spec x c) as [->|]; [|lia].
      exists [], r. repeat split.
      * intros Hin. apply (lastIndexOf_from_present c r (i + 1)) in Hin; [|lia].
        rewrite Z.geb_leb in E; apply Z.leb_gt in E. lia.
      * rewrite jslength_nil. lia.
Qed.

Lemma lastIndexOf_last c p d :
  ~ In c d -> lastIndexOf c (p ++ c :: d) = jslength p.
Proof.
  intros Hd. unfold lastIndexOf. rewrite lastIndexOf_from_last; auto; lia.
Qed.

Lemma lastIndexOf_found c s k :
  lastIndexOf c s = k -> 0 <= k ->
  exists p d, s = p ++ c :: d /\ ~ In c d /\ k = jslength p.
Proof.
  intros Hk Hk0.
  destruct (lastIndexOf_from_found c s 0 k ltac:(lia) Hk Hk0)
    as (p & d & Hs & Hd & Hp).
  exists p, d. repeat split; auto.
Qed.

(** *** [substring] *)

Lemma substring_prefix p c d :
  substring (p ++ c :: d) 0 (jslength p) = p.
Proof.
  unfold substring, clamp. rewrite jslength_app.
  pose proof (jslength_nonneg p). pose proof (jslength_nonneg (c :: d)).
  replace (Z.min (Z.min (Z.max 0 0) (jslength p + jslength (c :: d)))
             (Z.min (Z.max (jslength p) 0) (jslength p + jslength (c :: d))))
    with 0 by lia.
  replace (Z.max (Z.min (Z.max 0 0) (jslength p + jslength (c :: d)))
             (Z.min (Z.max (jslength p) 0) (jslength p + jslength (c :: d))))
    with (jslength p) by lia.
  simpl skipn. rewrite Z.sub_0_r. unfold jslength. rewrite Nat2Z.id.
  rewrite firstn_app, Nat.sub_diag, firstn_all. simpl. apply app_nil_r.
Qed.

Lemma substring_from_suffix p c d :
  substring_from (p ++ c :: d) (jslength p + 1) = d.
Proof.
  unfold substring_from, substring, clamp. rewrite jslength_app.
  pose proof (jslength_nonneg p). pose proof (jslength_nonneg d).
  rewrite (jslength_cons c d).
  replace (Z.min (Z.min (Z.max (jslength p + 1) 0) (jslength p + (1 + jslength d)))
             (Z.min (Z.max (jslength p + (1 + jslength d)) 0)
                (jslength p + (1 + jslength d))))
    with (jslength p + 1) by lia.
  replace (Z.max (Z.min (Z.max (jslength p + 1) 0) (jslength p + (1 + jslength d)))
             (Z.min (Z.max (jslength p + (1 + jslength d)) 0)
                (jslength p + (1 + jslength d))))
    with (jslength p + (1 + jslength d)) by lia.
  replace (jslength p + (1 + jslength d) - (jslength p + 1)) with (jslength d) by lia.
  unfold jslength. rewrite Nat2Z.id.
  replace (Z.to_nat (Z.of_nat (List.length p) + 1))
    with (List.length p + 1)%nat by lia.
  rewrite skipn_app.
  rewrite (skipn_all2 (n := List.length p + 1) p) by lia.
  replace (List.length p + 1 - List.length p)%nat with 1%nat by lia.
  simpl. apply firstn_all.
Qed.

(** *** Decimal digits *)

Lemma is_digit_spec c : is_digit c = true <-> (48 <= c <= 57)%N.
Proof.
  unfold is_digit. rewrite andb_true_iff, !N.leb_le. tauto.
Qed.

Lemma test_digits_spec d : test_digits d = true <-> decimal_digits d.
Proof.
  unfold decimal_digits. destruct d as [|c r].
  - simpl. split; [discriminate | intros [H _]; congruence].
  - unfold test_digits. rewrite forallb_forall.
    split.
    + intros H; split; [discriminate|].
      intros x Hx. apply is_digit_spec, H, Hx.
    + intros [_ H] x Hx. apply is_digit_spec, H, Hx.
Qed.

Lemma decimal_digits_no_dash d : decimal_digits d -> ~ In CHAR_DASH d.
Proof.
  intros [_ H] Hin. apply H in Hin. unfold CHAR_DASH in Hin. lia.
Qed.

(** ** [getBaseName] *)

(** The two exits of [getBaseName], on the stem. *)
Lemma getBaseName_strips filename p d :
  path.name (path.parse filename) = p ++ CHAR_DASH :: d ->
  p <> [] -> decimal_digits d ->
  getBaseName filename = p.
Proof.
  intros Hs Hp Hd. unfold getBaseName. rewrite Hs.
  rewrite lastIndexOf_last by (apply decimal_digits_no_dash; exact Hd).
  assert (Hl : (jslength p >? 0) = true).
  { apply Z.gtb_lt. destruct p; [congruence|].
    rewrite jslength_cons. pose proof (jslength_nonneg p). lia. }
  rewrite Hl. cbv zeta. rewrite substring_from_suffix.
  apply test_digits_spec in Hd. rewrite Hd. apply substring_prefix.
Qed.

Lemma getBaseName_keeps filename :
  (~ exists p d, path.name (path.parse filename) = p ++ CHAR_DASH :: d
                 /\ p <> [] /\ decimal_digits d) ->
  getBaseName filename = path.name (path.parse filename).
Proof.
  intros Hn. unfold getBaseName.
  set (stem := path.name (path.parse filename)) in *.
  destruct (lastIndexOf CHAR_DASH stem >? 0) eqn:E; [|reflexivity].
  apply Z.gtb_lt in E. cbv zeta.
  destruct (lastIndexOf_found CHAR_DASH stem _ eq_refl ltac:(lia))
    as (p & d & Hs & Hd & Hk).
  rewrite Hk. rewrite Hs at 1. rewrite substring_from_suffix.
  destruct (test_digits d) eqn:Ed; [|reflexivity].
  exfalso. apply Hn. exists p, d. split; [exact Hs|]. split.
  - intros ->. rewrite Hk, jslength_nil in E. lia.
  - apply test_digits_spec. exact Ed.
Qed.

(** ** [Map] operations *)

Lemma map_get_set_eq k v m : map_get k (map_set k v m) = Some v.
Proof.
  induction m as [|[k' v'] r IH]; simpl.
  - rewrite jsstring_eqb_refl. reflexivity.
  - destruct (jsstring_eqb k k') eqn:E; simpl; rewrite E; auto.
Qed.

Lemma map_get_set_neq k k' v m :
  k' <> k -> map_get k' (map_set k v m) = map_get k' m.
Proof.
  intros Hne. induction m as [|[k0 v0] r IH]; simpl.
  - apply jsstring_eqb_neq in Hne. rewrite Hne. reflexivity.
  - destruct (jsstring_eqb k k0) eqn:E; simpl.
    + apply jsstring_eqb_eq in E. subst k0.
      apply jsstring_eqb_neq in Hne. rewrite Hne. reflexivity.
    + rewrite IH. reflexivity.
Qed.

Lemma map_get_keys k m : In k (map_keys m) <-> map_get k m <> None.
Proof.
  induction m as [|[k' v'] r IH]; simpl.
  - split; [intros [] | congruence].
  - destruct (jsstring_eqb k k') eqn:E.
    + apply jsstring_eqb_eq in E. subst. split; [discriminate | auto].
    + apply jsstring_eqb_neq in E. rewrite <- IH.
      split; [intros [H|H]; [congruence | exact H] | auto].
Qed.

Lemma map_has_get k m : map_has k m = true <-> map_get k m <> None.
Proof.
  unfold map_has. destruct (map_get k m); split; congruence.
Qed.

(** ** [createFileMap] *)

Section CreateFileMap.
Variable fs : FS.
Variable getBaseNameFn : jsstring -> jsstring.
Variable dirPath : jsstring.

Local Abbreviation step := (createFileMap_step fs getBaseNameFn dirPath).
Local Abbreviation mt := (file_mtime fs dirPath).
Local Abbreviation built := (built fs getBaseNameFn dirPath).

Lemma createFileMap_step_unseen m f :
  map_get (getBaseNameFn f) m = None ->
  step m f = map_set (getBaseNameFn f) f m.
Proof.
  intros H. unfold createFileMap_step, map_has. rewrite H. reflexivity.
Qed.

Lemma createFileMap_step_newer m f e :
  map_get (getBaseNameFn f) m = Some e -> mt e < mt f ->
  step m f = map_set (getBaseNameFn f) f m.
Proof.
  intros H Hlt. unfold createFileMap_step, map_has. rewrite H. cbv zeta.
  cbn [negb].
  fold (mt f). fold (mt e).
  destruct (Z.gtb_spec (mt f) (mt e)); [reflexivity | lia].
Qed.

Lemma createFileMap_step_kept m f e :
  map_get (getBaseNameFn f) m = Some e -> mt f <= mt e ->
  step m f = m.
Proof.
  intros H Hle. unfold createFileMap_step, map_has. rewrite H. cbv zeta.
  cbn [negb].
  fold (mt f). fold (mt e).
  destruct (Z.gtb_spec (mt f) (mt e)); [lia | reflexivity].
Qed.

Lemma built_nil : built [] [].
Proof. split; [discriminate | intros f []]. Qed.

Lemma built_step l m f : built l m -> built (l ++ [f]) (step m f).
Proof.
  intros [Hv Hk].
  destruct (map_get (getBaseNameFn f) m) as [e|] eqn:E.
  - destruct (Hv _ _ E) as (He & Hbe & Hmax).
    destruct (Z_lt_le_dec (mt e) (mt f)) as [Hlt|Hle].
    + rewrite (createFileMap_step_newer m f e E Hlt). split.
      * intros k w Hg.
        destruct (jsstring_eq_dec k (getBaseNameFn f)) as [->|Hne].
        -- rewrite map_get_set_eq in Hg. injection Hg as <-.
           split; [apply in_or_app; right; left; reflexivity|].
           split; [reflexivity|].
           intros g Hg Hbg. apply in_app_or in Hg.
           destruct Hg as [Hg|[<-|[]]]; [|lia].
           specialize (Hmax g Hg Hbg). lia.
        -- rewrite map_get_set_neq in Hg by exact Hne.
           destruct (Hv _ _ Hg) as (Hw & Hbw & Hm).
           split; [apply in_or_app; left; exact Hw|].
           split; [exact Hbw|].
           intros g Hg' Hbg. apply in_app_or in Hg'.
           destruct Hg' as [Hg'|[<-|[]]]; [auto | congruence].
      * intros g Hg. apply in_app_or in Hg.
        destruct (jsstring_eq_dec (getBaseNameFn g) (getBaseNameFn f))
          as [->|Hne].
        -- rewrite map_get_set_eq. discriminate.
        -- rewrite map_get_set_neq by exact Hne.
           destruct Hg as [Hg|[<-|[]]]; [auto | congruence].
    + rewrite (createFileMap_step_kept m f e E Hle). split.
      * intros k w Hg. destruct (Hv _ _ Hg) as (Hw & Hbw & Hm).
        split; [apply in_or_app; left; exact Hw|].
        split; [exact Hbw|].
        intros g Hg' Hbg. apply in_app_or in Hg'.
        destruct Hg' as [Hg'|[<-|[]]]; [auto|].
        assert (w = e) by congruence. subst w. exact Hle.
      * intros g Hg. apply in_app_or in Hg.
        destruct Hg as [Hg|[<-|[]]]; [auto | congruence].
  - rewrite (createFileMap_step_unseen m f E). split.
    + intros k w Hg.
      destruct (jsstring_eq_dec k (getBaseNameFn f)) as [->|Hne].
      * rewrite map_get_set_eq in Hg. injection Hg as <-.
        split; [apply in_or_app; right; left; reflexivity|].
        split; [reflexivity|].
        intros g Hg Hbg. apply in_app_or in Hg.
        destruct Hg as [Hg|[<-|[]]]; [|lia].
        exfalso. apply (Hk g Hg). rewrite Hbg. exact E.
      * rewrite map_get_set_neq in Hg by exact Hne.
        destruct (Hv _ _ Hg) as (Hw & Hbw & Hm).
        split; [apply in_or_app; left; exact Hw|].
        split; [exact Hbw|].
        intros g Hg' Hbg. apply in_app_or in Hg'.
        destruct Hg' as [Hg'|[<-|[]]]; [auto | congruence].
    + intros g Hg. apply in_app_or in Hg.
      destruct (jsstring_eq_dec (getBaseNameFn g) (getBaseNameFn f))
        as [->|Hne].
      * rewrite map_get_set_eq. discriminate.
      * rewrite map_get_set_neq by exact Hne.
        destruct Hg as [Hg|[<-|[]]]; [auto | congruence].
Qed.

Lemma built_fold files : forall l m,
  built l m -> built (l ++ files) (fold_left step files m).
Proof.
  induction files as [|f files IH]; intros l m Hb; simpl.
  - rewrite app_nil_r. exact Hb.
  - replace (l ++ f :: files) with ((l ++ [f]) ++ files)
      by (rewrite <- app_assoc; reflexivity).
    apply IH, built_step, Hb.
Qed.

Lemma createFileMap_built files :
  built files (createFileMap fs files getBaseNameFn dirPath).
Proof. apply (built_fold files [] []), built_nil. Qed.

(** Visiting again files that were already visited changes nothing. *)
Lemma built_fold_again l m files :
  built l m -> incl files l -> fold_left step files m = m.
Proof.
  intros [Hv Hk]. induction files as [|f files IH]; intros Hi; simpl.
  - reflexivity.
  - assert (Hf : In f l) by (apply Hi; left; reflexivity).
    destruct (map_get (getBaseNameFn f) m) as [e|] eqn:E.
    + destruct (Hv _ _ E) as (_ & _ & Hmax).
      rewrite (createFileMap_step_kept m f e E (Hmax f Hf eq_refl)).
      apply IH. intros x Hx. apply Hi. right. exact Hx.
    + exfalso. exact (Hk f Hf E).
Qed.

End CreateFileMap.

(** The map only depends on the snapshot through the modification times of
    the listed files. *)
Lemma createFileMap_fold_ext fs1 fs2 fn dir (L files : list jsstring) :
  (forall f, In f L -> file_mtime fs1 dir f = file_mtime fs2 dir f) ->
  incl files L ->
  forall m, (forall k w, map_get k m = Some w -> In w L) ->
  fold_left (createFileMap_step fs1 fn dir) files m
  = fold_left (createFileMap_step fs2 fn dir) files m.
Proof.
  intros Hmt. induction files as [|f files IH]; intros Hi m Hm; simpl.
  - reflexivity.
  - assert (Hf : In f L) by (apply Hi; left; reflexivity).
    assert (Hstep : createFileMap_step fs1 fn dir m f
                    = createFileMap_step fs2 fn dir m f).
    { unfold createFileMap_step, map_has.
      destruct (map_get (fn f) m) as [e|] eqn:E; [|reflexivity].
      cbv zeta. cbn [negb].
      fold (file_mtime fs1 dir f) (file_mtime fs1 dir e).
      fold (file_mtime fs2 dir f) (file_mtime fs2 dir e).
      rewrite (Hmt f Hf), (Hmt e (Hm _ _ E)). reflexivity. }
    rewrite Hstep. apply IH.
    + intros x Hx. apply Hi. right. exact Hx.
    + intros k w Hg. unfold createFileMap_step, map_has in Hg.
      assert (Hset : forall k w, map_get k (map_set (fn f) f m) = Some w ->
                                 In w L).
      { intros k0 w0 Hg0.
        destruct (jsstring_eq_dec k0 (fn f)) as [->|Hne].
        - rewrite map_get_set_eq in Hg0. injection Hg0 as <-. exact Hf.
        - rewrite map_get_set_neq in Hg0 by exact Hne. eapply Hm, Hg0. }
      destruct (map_get (fn f) m) as [e|] eqn:E.
      * cbv zeta in Hg. cbn [negb] in Hg.
        destruct (_ >? _) in Hg; [eapply Hset, Hg | eapply Hm, Hg].
      * eapply Hset, Hg.
Qed.

(** ** [getFilesByExtension] *)

Lemma includes_In l x : includes l x = true <-> In x l.
Proof.
  unfold includes. rewrite existsb_exists. split.
  - intros (y & Hy & E). apply jsstring_eqb_eq in E. subst. exact Hy.
  - intros H. exists x. split; [exact H | apply jsstring_eqb_refl].
Qed.

Lemma getFilesByExtension_missing fs dirPath extensions :
  fs dirPath = None -> getFilesByExtension fs dirPath extensions = Some [].
Proof.
  intros H. unfold getFilesByExtension, existsSync. rewrite H. reflexivity.
Qed.

Lemma getFilesByExtension_throws fs dirPath extensions :
  getFilesByExtension fs dirPath extensions = None
  <-> exists t c, fs dirPath = Some (File t c).
Proof.
  unfold getFilesByExtension, existsSync, readdirSync.
  destruct (fs dirPath) as [[t c|t es]|]; cbn [negb].
  - split; [intros _; exists t, c; reflexivity | reflexivity].
  - split; [discriminate | intros (t' & c' & H); discriminate H].
  - split; [discriminate | intros (t' & c' & H); discriminate H].
Qed.

Lemma getFilesByExtension_listed fs dirPath extensions entries :
  readdirSync fs dirPath = Some entries ->
  getFilesByExtension fs dirPath extensions
  = Some (filter (fun file =>
                    includes extensions (toLowerCase (path.extname file)))
                 entries).
Proof.
  intros H. unfold getFilesByExtension, existsSync.
  unfold readdirSync in *. destruct (fs dirPath) as [[t c|t es]|];
    try discriminate.
  injection H as ->. reflexivity.
Qed.

Lemma getFilesByExtension_In fs dirPath extensions files f :
  getFilesByExtension fs dirPath extensions = Some files ->
  In f files -> In (toLowerCase (path.extname f)) extensions.
Proof.
  unfold getFilesByExtension. destruct (negb (existsSync fs dirPath)).
  - intros H; injection H as <-. intros [].
  - destruct (readdirSync fs dirPath) as [entries|]; [|discriminate].
    intros H; injection H as <-. intros Hin.
    apply filter_In in Hin. apply includes_In, Hin.
Qed.

Lemma getFilesByExtension_nonempty fs dirPath extensions files f :
  ~ In [] extensions ->
  getFilesByExtension fs dirPath extensions = Some files ->
  In f files -> f <> [].
Proof.
  intros Hn Hg Hin ->. apply Hn.
  exact (getFilesByExtension_In _ _ _ _ _ Hg Hin).
Qed.

Lemma IMAGE_EXTENSIONS_nonempty : ~ In [] IMAGE_EXTENSIONS.
Proof. absent_char. Qed.

Lemma AUDIO_EXTENSIONS_nonempty : ~ In [] AUDIO_EXTENSIONS.
Proof. absent_char. Qed.

(** ** [Array.prototype.sort] *)

Section SortFacts.
Context {A : Type} (compareFn : A -> A -> Z).

Lemma sort_insert_perm x l : Permutation (x :: l) (sort_insert compareFn x l).
Proof.
  induction l as [|y r IH]; simpl.
  - apply Permutation_refl.
  - destruct (compareFn x y <=? 0).
    + apply Permutation_refl.
    + eapply perm_trans; [apply perm_swap|]. apply perm_skip, IH.
Qed.

Lemma sort_perm l : Permutation l (sort compareFn l).
Proof.
  induction l as [|x r IH]; simpl.
  - apply perm_nil.
  - eapply perm_trans; [apply perm_skip, IH | apply sort_insert_perm].
Qed.

(** A comparator that subtracts keys, as [(a, b) => key(b) - key(a)]. *)
Variable key : A -> Z.
Hypothesis compareFn_key : forall a b, compareFn a b = key b - key a.

Lemma sort_insert_sorted x l :
  StronglySorted (descending key) l ->
  StronglySorted (descending key) (sort_insert compareFn x l).
Proof.
  induction 1 as [|y r Hr IH Hy]; simpl.
  - constructor; constructor.
  - rewrite compareFn_key. destruct (Z.leb_spec (key y - key x) 0) as [Hle|Hgt].
    + constructor; [constructor; assumption|].
      constructor; [unfold descending; lia|].
      rewrite Forall_forall in *. intros z Hz. specialize (Hy z Hz).
      unfold descending in *. lia.
    + constructor; [exact IH|].
      rewrite Forall_forall in *. intros z Hz.
      apply (Permutation_in _ (Permutation_sym (sort_insert_perm x r))) in Hz.
      destruct Hz as [<-|Hz]; [unfold descending; lia | auto].
Qed.

Lemma sort_sorted l : StronglySorted (descending key) (sort compareFn l).
Proof.
  induction l as [|x r IH]; simpl.
  - constructor.
  - apply sort_insert_sorted, IH.
Qed.

End SortFacts.

(** ** [new Set] *)

Lemma existsb_eqb_In k l : existsb (jsstring_eqb k) l = true <-> In k l.
Proof.
  rewrite existsb_exists. split.
  - intros (y & Hy & E). apply jsstring_eqb_eq in E. subst. exact Hy.
  - intros H. exists k. split; [exact H | apply jsstring_eqb_refl].
Qed.

Lemma new_Set_from_In seen l k :
  In k (new_Set_from seen l) <-> In k seen \/ In k l.
Proof.
  revert seen; induction l as [|x r IH]; intros seen; simpl.
  - rewrite <- in_rev. tauto.
  - destruct (existsb (jsstring_eqb x) seen) eqn:E; rewrite IH.
    + apply existsb_eqb_In in E.
      split; [tauto | intros [H|[<-|H]]; auto].
    + simpl. split; [intros [[<-|H]|H]; auto | intros [H|[<-|H]]; auto].
Qed.

Lemma new_Set_from_NoDup seen l : NoDup seen -> NoDup (new_Set_from seen l).
Proof.
  revert seen; induction l as [|x r IH]; intros seen Hs; simpl.
  - apply NoDup_rev, Hs.
  - destruct (existsb (jsstring_eqb x) seen) eqn:E.
    + apply IH, Hs.
    + apply IH. constructor; [|exact Hs].
      intros Hin. apply existsb_eqb_In in Hin. congruence.
Qed.

Lemma new_Set_In l k : In k (new_Set l) <-> In k l.
Proof. unfold new_Set. rewrite new_Set_from_In. simpl. tauto. Qed.

Lemma new_Set_NoDup l : NoDup (new_Set l).
Proof. apply new_Set_from_NoDup. constructor. Qed.

(** ** [split] and [pop] *)

Lemma pop_last l x : pop (l ++ [x]) = Some x.
Proof.
  induction l as [|y r IH]; simpl; [reflexivity|].
  destruct (r ++ [x]) eqn:E; [destruct r; discriminate | exact IH].
Qed.

Lemma split_free sep s : ~ In sep s -> split sep s = [s].
Proof.
  induction s as [|c r IH]; intros Hn; simpl; [reflexivity|].
  unfold jschar_eqb. destruct (N.eqb_spec c sep) as [->|Hne].
  - exfalso. apply Hn. left. reflexivity.
  - rewrite IH by (intros H; apply Hn; right; exact H). reflexivity.
Qed.

Lemma split_last_segment sep p s :
  ~ In sep s -> exists h t, split sep (p ++ sep :: s) = h :: t ++ [s].
Proof.
  intros Hn. induction p as [|c r IH]; simpl.
  - unfold jschar_eqb. rewrite N.eqb_refl, split_free by exact Hn.
    exists [], []. reflexivity.
  - destruct IH as (h & t & ->).
    destruct (jschar_eqb c sep).
    + exists [], (h :: t). reflexivity.
    + exists (c :: h), t. reflexivity.
Qed.

Lemma pop_split_url sep p s :
  ~ In sep s -> or_empty (pop (split sep (p ++ sep :: s))) = s.
Proof.
  intros Hn. destruct (split_last_segment sep p s Hn) as (h & t & ->).
  change (h :: t ++ [s]) with ((h :: t) ++ [s]). rewrite pop_last.
  destruct s; reflexivity.
Qed.

(** ** [trim] *)

Lemma trimStart_blank s :
  (forall c, In c s -> is_white_space c = true) -> trimStart s = [].
Proof.
  induction s as [|c r IH]; intros H; simpl; [reflexivity|].
  rewrite (H c (or_introl eq_refl)). apply IH.
  intros x Hx. apply H. right. exact Hx.
Qed.

Lemma trim_blank s :
  (forall c, In c s -> is_white_space c = true) -> trim s = [].
Proof.
  intros H. unfold trim, trimEnd. rewrite (trimStart_blank s H). reflexivity.
Qed.

(** ** [matchFiles] *)

Section MatchFiles.
Variable cwd : jsstring.
Variable fs : FS.
Variables imageMap audioMap : JsMap.

Lemma matchFiles_step_app acc k :
  matchFiles_step cwd fs imageMap audioMap acc k
  = acc ++ emitted cwd fs imageMap audioMap k.
Proof.
  unfold emitted, matchFiles_step. cbv zeta.
  destruct (truthy (map_get k imageMap) && truthy (map_get k audioMap));
    [reflexivity | rewrite app_nil_r; reflexivity].
Qed.

Lemma matchFiles_fold keys : forall acc,
  fold_left (matchFiles_step cwd fs imageMap audioMap) keys acc
  = acc ++ flat_map (emitted cwd fs imageMap audioMap) keys.
Proof.
  induction keys as [|k r IH]; intros acc; simpl.
  - rewrite app_nil_r. reflexivity.
  - rewrite IH, matchFiles_step_app, <- app_assoc. reflexivity.
Qed.

Lemma emitted_cases k :
  (exists i a, map_get k imageMap = Some i /\ map_get k audioMap = Some a
               /\ i <> [] /\ a <> []
               /\ emitted cwd fs imageMap audioMap k = [record_for cwd fs k i a])
  \/ ((truthy (map_get k imageMap) && truthy (map_get k audioMap)) = false
      /\ emitted cwd fs imageMap audioMap k = []).
Proof.
  unfold emitted, matchFiles_step.
  destruct (map_get k imageMap) as [[|c i]|]; simpl; auto;
    destruct (map_get k audioMap) as [[|d a]|]; simpl; auto.
  left. exists (c :: i), (d :: a). repeat split; discriminate.
Qed.

Lemma emitted_names keys :
  List.map name (flat_map (emitted cwd fs imageMap audioMap) keys)
  = filter (fun k => truthy (map_get k imageMap)
                     && truthy (map_get k audioMap)) keys.
Proof.
  induction keys as [|k r IH]; simpl; [reflexivity|].
  rewrite map_app, IH.
  destruct (emitted_cases k) as [(i & a & Hi & Ha & Hin & Han & ->)|[Ht ->]].
  - rewrite Hi, Ha. destruct i, a; try congruence. reflexivity.
  - rewrite Ht. reflexivity.
Qed.

Lemma emitted_In keys r :
  In r (flat_map (emitted cwd fs imageMap audioMap) keys) <->
  exists k i a, In k keys /\ map_get k imageMap = Some i
                /\ map_get k audioMap = Some a /\ i <> [] /\ a <> []
                /\ r = record_for cwd fs k i a.
Proof.
  rewrite in_flat_map. split.
  - intros (k & Hk & Hr).
    destruct (emitted_cases k) as [(i & a & Hi & Ha & Hin & Han & E)|[_ E]];
      rewrite E in Hr; [|destruct Hr].
    destruct Hr as [<-|[]]. exists k, i, a. auto 10.
  - intros (k & i & a & Hk & Hi & Ha & Hin & Han & ->).
    exists k. split; [exact Hk|].
    destruct (emitted_cases k) as [(i' & a' & Hi' & Ha' & _ & _ & E)|[Ht _]].
    + rewrite E. left. congruence.
    + rewrite Hi, Ha in Ht. destruct i, a; try congruence. discriminate Ht.
Qed.

End MatchFiles.

Section MatchFilesFrom.
Variable cwd : jsstring.
Variable fs : FS.
Variables uploadFiles outputFiles : list jsstring.
Hypothesis uploads_named : forall f, In f uploadFiles -> f <> [].
Hypothesis outputs_named : forall f, In f outputFiles -> f <> [].

Local Abbreviation imageMap := (imageMapOf cwd fs uploadFiles).
Local Abbreviation audioMap := (audioMapOf cwd fs outputFiles).
Local Abbreviation allBaseNames :=
  (allBaseNamesOf cwd fs uploadFiles outputFiles).

Lemma matchFiles_from_perm :
  Permutation (flat_map (emitted cwd fs imageMap audioMap) allBaseNames)
    (matchFiles_from cwd fs uploadFiles outputFiles).
Proof.
  unfold matchFiles_from, allBaseNamesOf, imageMapOf, audioMapOf.
  rewrite matchFiles_fold. cbn [app]. apply sort_perm.
Qed.

Lemma imageMap_value k i : map_get k imageMap = Some i -> In i uploadFiles.
Proof.
  intros H.
  apply (createFileMap_built fs getBaseName (PATHS.UPLOADS cwd) uploadFiles)
    in H. apply H.
Qed.

Lemma audioMap_value k a : map_get k audioMap = Some a -> In a outputFiles.
Proof.
  intros H.
  apply (createFileMap_built fs audioBaseName (PATHS.OUTPUTS cwd) outputFiles)
    in H. apply H.
Qed.

Lemma imageMap_truthy k : truthy (map_get k imageMap) = map_has k imageMap.
Proof.
  unfold map_has. destruct (map_get k imageMap) as [i|] eqn:E; [|reflexivity].
  apply imageMap_value, uploads_named in E. destruct i; [congruence|reflexivity].
Qed.

Lemma audioMap_truthy k : truthy (map_get k audioMap) = map_has k audioMap.
Proof.
  unfold map_has. destruct (map_get k audioMap) as [a|] eqn:E; [|reflexivity].
  apply audioMap_value, outputs_named in E. destruct a; [congruence|reflexivity].
Qed.

Lemma allBaseNames_In k :
  In k allBaseNames <-> map_has k imageMap = true \/ map_has k audioMap = true.
Proof.
  unfold allBaseNamesOf. rewrite new_Set_In, in_app_iff, !map_get_keys,
    !map_has_get. tauto.
Qed.

Lemma matchFiles_from_names :
  NoDup (List.map name (matchFiles_from cwd fs uploadFiles outputFiles))
  /\ forall k,
       In k (List.map name (matchFiles_from cwd fs uploadFiles outputFiles))
       <-> map_has k imageMap = true /\ map_has k audioMap = true.
Proof.
  pose proof (Permutation_map name matchFiles_from_perm) as P.
  rewrite emitted_names in P. split.
  - eapply Permutation_NoDup; [exact P|].
    apply NoDup_filter, new_Set_NoDup.
  - intros k. split.
    + intros H. apply (Permutation_in _ (Permutation_sym P)) in H.
      apply filter_In in H. destruct H as [_ H].
      rewrite imageMap_truthy, audioMap_truthy in H.
      apply andb_true_iff in H. exact H.
    + intros [Hi Ha]. apply (Permutation_in _ P). apply filter_In. split.
      * apply allBaseNames_In. left. exact Hi.
      * rewrite imageMap_truthy, audioMap_truthy, Hi, Ha. reflexivity.
Qed.

Lemma matchFiles_from_record k i a :
  map_get k imageMap = Some i -> map_get k audioMap = Some a ->
  In (record_for cwd fs k i a) (matchFiles_from cwd fs uploadFiles outputFiles).
Proof.
  intros Hi Ha. apply (Permutation_in _ matchFiles_from_perm).
  apply emitted_In. exists k, i, a. split.
  - apply allBaseNames_In. left. apply map_has_get. congruence.
  - repeat split; auto.
    + apply uploads_named, (imageMap_value k), Hi.
    + apply outputs_named, (audioMap_value k), Ha.
Qed.

Lemma matchFiles_from_In r :
  In r (matchFiles_from cwd fs uploadFiles outputFiles) ->
  exists k i a, map_get k imageMap = Some i /\ map_get k audioMap = Some a
                /\ r = record_for cwd fs k i a.
Proof.
  intros H. apply (Permutation_in _ (Permutation_sym matchFiles_from_perm)) in H.
  apply emitted_In in H. destruct H as (k & i & a & _ & Hi & Ha & _ & _ & E).
  exists k, i, a. auto.
Qed.

Lemma matchFiles_from_sorted :
  StronglySorted (descending (sort_mtime cwd fs))
    (matchFiles_from cwd fs uploadFiles outputFiles).
Proof.
  unfold matchFiles_from. apply sort_sorted. reflexivity.
Qed.

End MatchFilesFrom.

Lemma matchFiles_listed cwd fs uploadFiles outputFiles :
  getFilesByExtension fs (PATHS.UPLOADS cwd) IMAGE_EXTENSIONS = Some uploadFiles ->
  getFilesByExtension fs (PATHS.OUTPUTS cwd) AUDIO_EXTENSIONS = Some outputFiles ->
  matchFiles cwd fs = Some (matchFiles_from cwd fs uploadFiles outputFiles).
Proof. intros H1 H2. unfold matchFiles. rewrite H1, H2. reflexivity. Qed.

(** ** [path.parse] on a single path segment *)

Lemma scan_visit p n st :
  charCodeAt p (Z.of_nat n) <> CHAR_FORWARD_SLASH ->
  path.scan p 0 (S n) st
  = path.scan p 0 n
      (path.visit (Z.of_nat n) (charCodeAt p (Z.of_nat n)) st).
Proof.
  intros Hc. cbn [path.scan].
  destruct (Z.ltb_spec (Z.of_nat n) 0) as [|_]; [lia|].
  unfold jschar_eqb at 1.
  destruct (N.eqb_spec (charCodeAt p (Z.of_nat n)) CHAR_FORWARD_SLASH);
    [contradiction | reflexivity].
Qed.

Lemma lastIndexOf_from_cons_absent c x r i :
  0 <= i -> lastIndexOf_from c (x :: r) i = -1 ->
  lastIndexOf_from c r (i + 1) = -1.
Proof.
  intros Hi H. cbn [lastIndexOf_from] in H.
  destruct (lastIndexOf_from_range c r (i + 1) ltac:(lia)) as [E|E];
    [exact E|].
  destruct (Z.geb_spec (lastIndexOf_from c r (i + 1)) 0); lia.
Qed.

Lemma visit_init i c :
  path.visit i c path.scan_init
  = {| path.startDot := if jschar_eqb c CHAR_DOT then i else -1;
       path.startPart := 0; path.end_ := i + 1;
       path.matchedSlash := false; path.preDotState := 0 |}.
Proof.
  unfold path.visit. simpl. destruct (jschar_eqb c CHAR_DOT); reflexivity.
Qed.

Lemma visit_later i c D e P :
  e <> -1 ->
  path.visit i c
    {| path.startDot := D; path.startPart := 0; path.end_ := e;
       path.matchedSlash := false; path.preDotState := P |}
  = {| path.startDot :=
         if D =? -1 then if jschar_eqb c CHAR_DOT then i else -1 else D;
       path.startPart := 0; path.end_ := e; path.matchedSlash := false;
       path.preDotState :=
         if D =? -1 then P else if jschar_eqb c CHAR_DOT then 1 else -1 |}.
Proof.
  intros He. unfold path.visit. simpl.
  destruct (Z.eqb_spec e (-1)) as [|_]; [contradiction|]. simpl.
  destruct (jschar_eqb c CHAR_DOT), (Z.eqb_spec D (-1)); simpl;
    subst; try reflexivity.
  destruct (Z.eqb_spec P 1) as [->|]; reflexivity.
Qed.

Lemma visit_scanned off c suf :
  0 <= off ->
  path.visit off c (scanned (off + 1) suf) = scanned off (c :: suf).
Proof.
  intros Hoff. destruct suf as [|d r].
  - unfold scanned at 1. rewrite visit_init. unfold scanned.
    cbn [lastIndexOf_from]. rewrite jslength_cons, jslength_nil.
    simpl. reflexivity.
  - unfold scanned.
    pose proof (jslength_nonneg (d :: r)) as Hl.
    rewrite visit_later by lia.
    rewrite (jslength_cons c (d :: r)).
    change (lastIndexOf_from CHAR_DOT (c :: d :: r) off)
      with (if lastIndexOf_from CHAR_DOT (d :: r) (off + 1) >=? 0
            then lastIndexOf_from CHAR_DOT (d :: r) (off + 1)
            else if jschar_eqb c CHAR_DOT then off else -1).
    pose proof (lastIndexOf_from_range CHAR_DOT (d :: r) (off + 1)
                  ltac:(lia)) as HD.
    pose proof (lastIndexOf_from_cons_absent CHAR_DOT d r (off + 1)
                  ltac:(lia)) as HP.
    set (D := lastIndexOf_from CHAR_DOT (d :: r) (off + 1)) in *.
    set (R := lastIndexOf_from CHAR_DOT r (off + 1 + 1)) in *.
    destruct (Z.eqb_spec D (-1)) as [E|E].
    + rewrite (HP E). rewrite E. rewrite !Z.eqb_refl.
      change (-1 >=? 0) with false. cbv iota. f_equal. lia.
    + destruct (Z.geb_spec D 0) as [_|]; [|lia]. f_equal. lia.
Qed.

Lemma scan_segment (pre : jsstring) : forall suf,
  ~ In CHAR_FORWARD_SLASH pre ->
  path.scan (pre ++ suf) 0 (List.length pre) (scanned (jslength pre) suf)
  = scanned 0 (pre ++ suf).
Proof.
  induction pre as [|c pre IH] using rev_ind; intros suf Hfree.
  - reflexivity.
  - assert (Hc : c <> CHAR_FORWARD_SLASH).
    { intros ->. apply Hfree. apply in_or_app. right. left. reflexivity. }
    assert (Hpre : ~ In CHAR_FORWARD_SLASH pre).
    { intros H. apply Hfree. apply in_or_app. left. exact H. }
    rewrite <- app_assoc. cbn [app].
    rewrite <- (IH (c :: suf) Hpre).
    rewrite length_app. cbn [List.length]. rewrite Nat.add_1_r.
    assert (Hnth : charCodeAt (pre ++ c :: suf) (Z.of_nat (List.length pre))
                   = c).
    { unfold charCodeAt. rewrite Nat2Z.id. apply nth_middle. }
    rewrite scan_visit by (rewrite Hnth; exact Hc).
    rewrite Hnth. f_equal.
    rewrite jslength_app, jslength_cons, jslength_nil.
    replace (jslength pre + (1 + 0)) with (jslength pre + 1) by lia.
    apply visit_scanned, jslength_nonneg.
Qed.

Lemma scan_whole p :
  ~ In CHAR_FORWARD_SLASH p ->
  path.scan p 0 (List.length p) path.scan_init = scanned 0 p.
Proof.
  intros H. pose proof (scan_segment p [] H) as E.
  rewrite app_nil_r in E. exact E.
Qed.

Lemma slice_prefix (s t : jsstring) : slice (s ++ t) 0 (jslength s) = s.
Proof.
  unfold slice, jslength. rewrite Z.sub_0_r, Nat2Z.id. cbn [Z.to_nat skipn].
  rewrite firstn_app, Nat.sub_diag, firstn_all. cbn [firstn].
  apply app_nil_r.
Qed.

Lemma slice_suffix (s t : jsstring) :
  slice (s ++ t) (jslength s) (jslength (s ++ t)) = t.
Proof.
  unfold slice. rewrite jslength_app.
  replace (jslength s + jslength t - jslength s) with (jslength t) by lia.
  unfold jslength. rewrite !Nat2Z.id.
  rewrite skipn_app, skipn_all, Nat.sub_diag. cbn [skipn app].
  apply firstn_all.
Qed.

(** A single segment with an extension: the name is what stands before the
    last dot and the extension what stands from that dot on.  The segment
    ".." has no extension, and a segment that starts with its only dot has
    none either (that is the case [s = []], left out here). *)
Lemma parse_segment (s e : jsstring) :
  s <> [] ->
  ~ In CHAR_FORWARD_SLASH s -> ~ In CHAR_FORWARD_SLASH e ->
  ~ In CHAR_DOT e ->
  ~ (s = [CHAR_DOT] /\ e = []) ->
  path.name (path.parse (s ++ CHAR_DOT :: e)) = s
  /\ path.ext (path.parse (s ++ CHAR_DOT :: e)) = CHAR_DOT :: e
  /\ path.extname (s ++ CHAR_DOT :: e) = CHAR_DOT :: e.
Proof.
  intros Hs Hfs Hfe Hde Hdots.
  assert (Hfree : ~ In CHAR_FORWARD_SLASH (s ++ CHAR_DOT :: e)).
  { intros H. apply in_app_or in H. destruct H as [H|[H|H]]; auto.
    discriminate H. }
  destruct s as [|c s']; [congruence|].
  assert (Hc : jschar_eqb c CHAR_FORWARD_SLASH = false).
  { unfold jschar_eqb. apply N.eqb_neq. intros ->. apply Hfs. left.
    reflexivity. }
  pose proof (scan_whole _ Hfree) as Hscan.
  set (p := (c :: s') ++ CHAR_DOT :: e) in *.
  assert (Hdot : path.startDot (scanned 0 p) = jslength (c :: s')).
  { unfold scanned, p. cbn [app path.startDot].
    change (c :: s' ++ CHAR_DOT :: e) with ((c :: s') ++ CHAR_DOT :: e).
    rewrite lastIndexOf_from_last by (auto; lia). lia. }
  assert (Hend : path.end_ (scanned 0 p) = jslength p).
  { unfold scanned, p. cbn [app path.end_]. lia. }
  assert (Hpart : path.startPart (scanned 0 p) = 0).
  { unfold scanned, p. cbn [app path.startPart]. reflexivity. }
  assert (Hpre : path.preDotState (scanned 0 p)
                 = if jschar_eqb c CHAR_DOT then 1 else -1).
  { unfold scanned, p. cbn [app path.preDotState].
    rewrite lastIndexOf_from_last by (auto; lia).
    pose proof (jslength_nonneg s').
    destruct (Z.eqb_spec (0 + 1 + jslength s') (-1)); [lia | reflexivity]. }
  assert (Hno : path.no_ext (scanned 0 p) = false).
  { unfold path.no_ext. rewrite Hdot, Hend, Hpart, Hpre.
    unfold p. rewrite jslength_app, !jslength_cons.
    pose proof (jslength_nonneg s'). pose proof (jslength_nonneg e).
    destruct (Z.eqb_spec (1 + jslength s') (-1)); [lia|].
    unfold jschar_eqb. destruct (N.eqb_spec c CHAR_DOT) as [->|_];
      [|reflexivity].
    cbn [Z.eqb orb andb].
    destruct (Z.eqb_spec (1 + jslength s')
                (1 + jslength s' + (1 + jslength e) - 1)) as [E1|];
      [|reflexivity].
    destruct (Z.eqb_spec (1 + jslength s') (0 + 1)) as [E2|]; [|reflexivity].
    exfalso. apply Hdots.
    destruct s'; [|rewrite jslength_cons in E2; pose proof (jslength_nonneg s'); lia].
    destruct e; [auto|].
    rewrite jslength_cons in E1. pose proof (jslength_nonneg e). lia. }
  assert (Hne : (path.end_ (scanned 0 p) =? -1) = false).
  { rewrite Hend. apply Z.eqb_neq. pose proof (jslength_nonneg p). lia. }
  split; [|split].
  - unfold path.parse. fold p. unfold p at 1. cbn [app]. fold p.
    rewrite Hc. cbv zeta. cbv iota. rewrite Hscan, Hne, Hno.
    cbn [path.name]. rewrite Hpart, Hdot. cbn [Z.eqb andb].
    apply slice_prefix.
  - unfold path.parse. fold p. unfold p at 1. cbn [app]. fold p.
    rewrite Hc. cbv zeta. cbv iota. rewrite Hscan, Hne, Hno.
    cbn [path.ext]. rewrite Hdot, Hend. apply slice_suffix.
  - unfold path.extname. rewrite Hscan, Hne, Hno. cbn [orb].
    rewrite Hdot, Hend. apply slice_suffix.
Qed.

(** * The claims *)

(** ** C1 and C9 *)

(** C1, as stated, fails on a stem whose only dash is its first character:
    the stem of "-123.jpg" is "-123", a dash followed by digits only, and
    [getBaseName] returns "-123", not the empty string. *)
Lemma getBaseName_leading_dash_not_stripped :
  ~ resolves_as_stated (js "-123.jpg").
Proof.
  intros [H _].
  specialize (H [] (js "123") eq_refl).
  assert (Hd : decimal_digits (js "123")).
  { apply test_digits_spec. reflexivity. }
  specialize (H Hd). vm_compute in H. discriminate H.
Qed.

(** C1 (amended): [getBaseName] strips the extension; if the stem is a
    non-empty prefix, a dash, and a non-empty string of decimal digits, the
    result is that prefix (the dash is then the last one, at a positive
    index); in every other case the result is the stem.  The four names of the
    specification resolve as it says. *)
Theorem getBaseName_resolves :
  (forall filename p d,
      path.name (path.parse filename) = p ++ CHAR_DASH :: d ->
      p <> [] -> decimal_digits d ->
      getBaseName filename = p)
  /\ (forall filename,
      (~ exists p d, path.name (path.parse filename) = p ++ CHAR_DASH :: d
                     /\ p <> [] /\ decimal_digits d) ->
      getBaseName filename = path.name (path.parse filename))
  /\ (forall p d e,
      p <> [] -> decimal_digits d ->
      ~ In CHAR_FORWARD_SLASH p -> ~ In CHAR_FORWARD_SLASH e ->
      ~ In CHAR_DOT e ->
      path.name (path.parse (p ++ CHAR_DASH :: d ++ CHAR_DOT :: e))
        = p ++ CHAR_DASH :: d
      /\ getBaseName (p ++ CHAR_DASH :: d ++ CHAR_DOT :: e) = p)
  /\ getBaseName (js "sunset-1700000000.jpg") = js "sunset"
  /\ getBaseName (js "sunset.jpg") = js "sunset"
  /\ getBaseName (js "a-b-12.png") = js "a-b"
  /\ getBaseName (js "a-b.png") = js "a-b".
Proof.
  split; [exact getBaseName_strips|].
  split; [exact getBaseName_keeps|].
  split; [|repeat split; vm_compute; reflexivity].
  intros p d e Hp Hd Hfp Hfe Hde.
  assert (Hname : path.name (path.parse (p ++ CHAR_DASH :: d ++ CHAR_DOT :: e))
                  = p ++ CHAR_DASH :: d).
  { replace (p ++ CHAR_DASH :: d ++ CHAR_DOT :: e)
      with ((p ++ CHAR_DASH :: d) ++ CHAR_DOT :: e)
      by (rewrite <- app_assoc; reflexivity).
    apply parse_segment; auto.
    - destruct p; discriminate.
    - intros H. apply in_app_or in H. destruct H as [H|[H|H]]; auto.
      + discriminate H.
      + destruct Hd as [_ Hd]. apply Hd in H.
        unfold CHAR_FORWARD_SLASH in H. lia.
    - intros [H _]. destruct p as [|x [|y p]]; discriminate H. }
  split; [exact Hname|].
  apply (getBaseName_strips _ p d Hname Hp Hd).
Qed.

Lemma getBaseName_resolves_witness :
  getBaseName (js "photo-2-3.jpeg") = js "photo-2"
  /\ getBaseName (js "photo-2-x.jpeg") = js "photo-2-x".
Proof.
  destruct getBaseName_resolves as (Hstrip & Hkeep & _ & _).
  split.
  - apply (Hstrip (js "photo-2-3.jpeg") (js "photo-2") (js "3")).
    + reflexivity.
    + discriminate.
    + split; [discriminate|].
      intros c [<-|[]]. vm_compute. split; discriminate.
  - apply (Hkeep (js "photo-2-x.jpeg")).
    intros (p & d & Hs & Hp & Hd).
    change (path.name (path.parse (js "photo-2-x.jpeg")))
      with (js "photo-2" ++ CHAR_DASH :: js "x") in Hs.
    assert (Hx : ~ In CHAR_DASH (js "x")).
    { absent_char. }
    pose proof (lastIndexOf_last CHAR_DASH (js "photo-2") (js "x") Hx) as L1.
    pose proof (lastIndexOf_last CHAR_DASH p d (decimal_digits_no_dash d Hd)) as L2.
    rewrite Hs in L1. rewrite L1 in L2.
    assert (Hd' : d = js "x").
    { rewrite <- (substring_from_suffix p CHAR_DASH d).
      rewrite <- (substring_from_suffix (js "photo-2") CHAR_DASH (js "x")).
      rewrite Hs, L2. reflexivity. }
    subst d. destruct Hd as [_ Hd].
    specialize (Hd 120%N (or_introl eq_refl)). lia.
Defined.

(** C9: a stem whose only dash is its first character is returned unchanged;
    whenever [getBaseName] returns something else than the stem, the last dash
    of the stem is at a strictly positive index; and a non-empty stem never
    resolves to the empty string. *)
Theorem getBaseName_nonempty :
  (forall filename rest,
      path.name (path.parse filename) = CHAR_DASH :: rest ->
      ~ In CHAR_DASH rest ->
      getBaseName filename = CHAR_DASH :: rest)
  /\ (forall filename,
      getBaseName filename <> path.name (path.parse filename) ->
      0 < lastIndexOf CHAR_DASH (path.name (path.parse filename)))
  /\ (forall filename,
      path.name (path.parse filename) <> [] -> getBaseName filename <> [])
  /\ path.name (path.parse (js "-123.jpg")) = js "-123"
  /\ getBaseName (js "-123.jpg") = js "-123".
Proof.
  split; [|split; [|split; [|split; vm_compute; reflexivity]]].
  - intros filename rest Hs Hr. unfold getBaseName. rewrite Hs.
    pose proof (lastIndexOf_last CHAR_DASH [] rest Hr) as L.
    cbn [app] in L. rewrite L. reflexivity.
  - intros filename Hne. unfold getBaseName in Hne.
    destruct (lastIndexOf CHAR_DASH (path.name (path.parse filename)) >? 0)
      eqn:E; [apply Z.gtb_lt in E; lia | congruence].
  - intros filename Hne. unfold getBaseName.
    set (stem := path.name (path.parse filename)) in *.
    destruct (lastIndexOf CHAR_DASH stem >? 0) eqn:E; [|exact Hne].
    apply Z.gtb_lt in E. cbv zeta.
    destruct (test_digits _); [|exact Hne].
    destruct (lastIndexOf_found CHAR_DASH stem _ eq_refl ltac:(lia))
      as (p & d & Hs & Hd & Hk).
    rewrite Hk. rewrite Hs at 1. rewrite substring_prefix.
    intros ->. rewrite Hk, jslength_nil in E. lia.
Qed.

Lemma getBaseName_nonempty_witness :
  getBaseName (js "-2024.png") = js "-2024"
  /\ getBaseName (js "-2024.png") <> [].
Proof.
  destruct getBaseName_nonempty as (Hlead & _ & Hne & _).
  split.
  - apply (Hlead (js "-2024.png") (js "2024")).
    + reflexivity.
    + absent_char.
  - apply (Hne (js "-2024.png")). vm_compute. discriminate.
Defined.

(** ** C2 *)

(** C2: the file the map holds under a logical name is one of the listed
    files of that name and none of them is newer; so when two of the listed
    files share a name (and no third one does) and one is strictly newer, the
    map holds the newer one, wherever the two stand in the list.  A candidate
    that is not strictly newer than the entry leaves the map as it is, and a
    file that does not exist is compared with time zero. *)
Theorem createFileMap_keeps_newest fs fn dir :
  (forall files k w,
      map_get k (createFileMap fs files fn dir) = Some w ->
      In w files /\ fn w = k
      /\ forall f, In f files -> fn f = k ->
                   file_mtime fs dir f <= file_mtime fs dir w)
  /\ (forall files f1 f2,
      In f1 files -> In f2 files -> fn f1 = fn f2 ->
      (forall f, In f files -> fn f = fn f1 -> f = f1 \/ f = f2) ->
      file_mtime fs dir f1 < file_mtime fs dir f2 ->
      map_get (fn f1) (createFileMap fs files fn dir) = Some f2)
  /\ (forall m f e,
      map_get (fn f) m = Some e ->
      file_mtime fs dir f <= file_mtime fs dir e ->
      createFileMap_step fs fn dir m f = m)
  /\ (forall f, existsSync fs (path.join dir f) = false ->
                file_mtime fs dir f = 0).
Proof.
  split; [|split; [|split]].
  - intros files k w H.
    exact (proj1 (createFileMap_built fs fn dir files) k w H).
  - intros files f1 f2 H1 H2 Hn Honly Hlt.
    destruct (createFileMap_built fs fn dir files) as [Hv Hk].
    destruct (map_get (fn f1) (createFileMap fs files fn dir)) as [w|] eqn:E.
    + destruct (Hv _ _ E) as (Hw & Hbw & Hmax).
      destruct (Honly w Hw Hbw) as [->| ->]; [|reflexivity].
      specialize (Hmax f2 H2 (eq_sym Hn)). lia.
    + exfalso. exact (Hk f1 H1 E).
  - intros m f e. apply createFileMap_step_kept.
  - intros f H. unfold file_mtime, mtimeOrZero. unfold existsSync in H.
    destruct (fs (path.join dir f)); [discriminate | reflexivity].
Qed.

Lemma createFileMap_keeps_newest_witness :
  map_get (getBaseName (js "sunset-1.jpg"))
    (createFileMap two_sunsets [js "sunset-1.jpg"; js "sunset-2.jpg"]
       getBaseName (PATHS.UPLOADS cwd0)) = Some (js "sunset-2.jpg")
  /\ map_get (getBaseName (js "sunset-1.jpg"))
    (createFileMap two_sunsets [js "sunset-2.jpg"; js "sunset-1.jpg"]
       getBaseName (PATHS.UPLOADS cwd0)) = Some (js "sunset-2.jpg")
  /\ createFileMap_step two_sunsets getBaseName (PATHS.UPLOADS cwd0)
       [(js "sunset", js "sunset-2.jpg")] (js "sunset-1.jpg")
     = [(js "sunset", js "sunset-2.jpg")]
  /\ file_mtime two_sunsets (PATHS.UPLOADS cwd0) (js "sunset-3.jpg") = 0.
Proof.
  destruct (createFileMap_keeps_newest two_sunsets getBaseName
              (PATHS.UPLOADS cwd0)) as (_ & Hnew & Hkept & Hzero).
  split; [|split; [|split]].
  - apply (Hnew [js "sunset-1.jpg"; js "sunset-2.jpg"]
             (js "sunset-1.jpg") (js "sunset-2.jpg")).
    + left; reflexivity.
    + right; left; reflexivity.
    + vm_compute; reflexivity.
    + intros f [<-|[<-|[]]] _; [left | right]; reflexivity.
    + vm_compute; reflexivity.
  - apply (Hnew [js "sunset-2.jpg"; js "sunset-1.jpg"]
             (js "sunset-1.jpg") (js "sunset-2.jpg")).
    + right; left; reflexivity.
    + left; reflexivity.
    + vm_compute; reflexivity.
    + intros f [<-|[<-|[]]] _; [right | left]; reflexivity.
    + vm_compute; reflexivity.
  - apply (Hkept [(js "sunset", js "sunset-2.jpg")] (js "sunset-1.jpg")
             (js "sunset-2.jpg")).
    + vm_compute; reflexivity.
    + vm_compute; discriminate.
  - apply (Hzero (js "sunset-3.jpg")). vm_compute; reflexivity.
Defined.

(** ** C8 *)

(** C8: the map is a function of the file list and of the modification
    times of the listed files, so two snapshots that agree on these give
    identical maps; and running the builder's loop once more over the same
    files, even on top of the map already built, leaves that map as it is. *)
Theorem createFileMap_deterministic fs1 fs2 files fn dir :
  (forall f, In f files -> file_mtime fs1 dir f = file_mtime fs2 dir f) ->
  createFileMap fs1 files fn dir = createFileMap fs2 files fn dir
  /\ fold_left (createFileMap_step fs1 fn dir) files
       (createFileMap fs1 files fn dir)
     = createFileMap fs1 files fn dir.
Proof.
  intros Hmt. split.
  - unfold createFileMap.
    apply (createFileMap_fold_ext fs1 fs2 fn dir files files Hmt).
    + apply incl_refl.
    + discriminate.
  - apply (built_fold_again fs1 fn dir files).
    + apply createFileMap_built.
    + apply incl_refl.
Qed.

Lemma createFileMap_deterministic_witness :
  createFileMap two_sunsets [js "sunset-1.jpg"; js "sunset-2.jpg"]
    getBaseName (PATHS.UPLOADS cwd0)
  = createFileMap two_sunsets' [js "sunset-1.jpg"; js "sunset-2.jpg"]
      getBaseName (PATHS.UPLOADS cwd0).
Proof.
  apply (createFileMap_deterministic two_sunsets two_sunsets'
           [js "sunset-1.jpg"; js "sunset-2.jpg"] getBaseName
           (PATHS.UPLOADS cwd0)).
  intros f [<-|[<-|[]]]; vm_compute; reflexivity.
Defined.

(** ** C3 *)

(** C3: once both directories are listed, [matchFiles] returns, a name is
    among the names of the returned records exactly when both the image map
    and the audio map have it, and no name occurs twice. *)
Theorem matchFiles_intersection cwd fs uploadFiles outputFiles :
  getFilesByExtension fs (PATHS.UPLOADS cwd) IMAGE_EXTENSIONS
    = Some uploadFiles ->
  getFilesByExtension fs (PATHS.OUTPUTS cwd) AUDIO_EXTENSIONS
    = Some outputFiles ->
  exists recs,
    matchFiles cwd fs = Some recs
    /\ forall k,
         (In k (List.map name recs) <->
            map_has k (imageMapOf cwd fs uploadFiles) = true
            /\ map_has k (audioMapOf cwd fs outputFiles) = true)
         /\ (In k (List.map name recs) ->
             count_occ jsstring_eq_dec (List.map name recs) k = 1%nat).
Proof.
  intros Hu Ho. exists (matchFiles_from cwd fs uploadFiles outputFiles).
  split; [apply matchFiles_listed; assumption|].
  assert (Hun : forall f, In f uploadFiles -> f <> []).
  { intros f. apply (getFilesByExtension_nonempty _ _ _ _ _
                       IMAGE_EXTENSIONS_nonempty Hu). }
  assert (Hon : forall f, In f outputFiles -> f <> []).
  { intros f. apply (getFilesByExtension_nonempty _ _ _ _ _
                       AUDIO_EXTENSIONS_nonempty Ho). }
  destruct (matchFiles_from_names cwd fs uploadFiles outputFiles Hun Hon)
    as [Hnd Hin].
  intros k. split.
  - apply Hin.
  - apply NoDup_count_occ', Hnd.
Qed.

Lemma matchFiles_intersection_witness :
  exists recs,
    matchFiles cwd0 gallery = Some recs
    /\ In (js "a") (List.map name recs)
    /\ ~ In (js "lone") (List.map name recs)
    /\ ~ In (js "zz") (List.map name recs)
    /\ count_occ jsstring_eq_dec (List.map name recs) (js "a") = 1%nat.
Proof.
  destruct (matchFiles_intersection cwd0 gallery gallery_uploads
              gallery_outputs) as (recs & Hr & Hk).
  - vm_compute; reflexivity.
  - vm_compute; reflexivity.
  - exists recs. split; [exact Hr|].
    assert (Ha : In (js "a") (List.map name recs)).
    { apply (Hk (js "a")). split; vm_compute; reflexivity. }
    split; [exact Ha|]. split; [|split].
    + intros H. destruct (Hk (js "lone")) as [[Hfwd _] _].
      destruct (Hfwd H) as [_ Hau]. vm_compute in Hau. discriminate Hau.
    + intros H. destruct (Hk (js "zz")) as [[Hfwd _] _].
      destruct (Hfwd H) as [Him _]. vm_compute in Him. discriminate Him.
    + apply (Hk (js "a")), Ha.
Defined.

(** ** C4 *)

(** C4: once both directories are listed (their entries being single path
    segments), [matchFiles] returns its records in descending order of the
    time the comparator reads, which for every returned record is the
    modification time of its image file, zero when that file does not exist;
    three matched images of times 300, 100, 200 come back as 300, 200, 100. *)
Theorem matchFiles_newest_first :
  (forall cwd fs uploadFiles outputFiles,
      getFilesByExtension fs (PATHS.UPLOADS cwd) IMAGE_EXTENSIONS
        = Some uploadFiles ->
      getFilesByExtension fs (PATHS.OUTPUTS cwd) AUDIO_EXTENSIONS
        = Some outputFiles ->
      (forall f, In f uploadFiles -> ~ In CHAR_FORWARD_SLASH f) ->
      exists recs,
        matchFiles cwd fs = Some recs
        /\ StronglySorted (descending (sort_mtime cwd fs)) recs
        /\ forall r, In r recs ->
             exists i,
               map_get (name r) (imageMapOf cwd fs uploadFiles) = Some i
               /\ sort_mtime cwd fs r = file_mtime fs (PATHS.UPLOADS cwd) i)
  /\ option_map (List.map (sort_mtime cwd0 three_images))
       (matchFiles cwd0 three_images) = Some [300; 200; 100]
  /\ option_map (List.map name) (matchFiles cwd0 three_images)
     = Some [js "x"; js "z"; js "y"].
Proof.
  split; [|split; vm_compute; reflexivity].
  intros cwd fs uploadFiles outputFiles Hu Ho Hsl.
  exists (matchFiles_from cwd fs uploadFiles outputFiles).
  split; [apply matchFiles_listed; assumption|].
  split; [apply matchFiles_from_sorted|].
  intros r Hr.
  destruct (matchFiles_from_In cwd fs uploadFiles outputFiles r Hr)
    as (k & i & a & Hi & Ha & ->).
  exists i. split; [exact Hi|].
  unfold sort_mtime, file_mtime, record_for. cbn [imageUrl].
  change (js "/uploads/" ++ i)
    with (js "/uploads" ++ CHAR_FORWARD_SLASH :: i).
  rewrite pop_split_url; [reflexivity|].
  apply Hsl. eapply imageMap_value, Hi.
Qed.

Lemma matchFiles_newest_first_witness :
  exists recs,
    matchFiles cwd0 gallery = Some recs
    /\ StronglySorted (descending (sort_mtime cwd0 gallery)) recs.
Proof.
  destruct matchFiles_newest_first as (Hsorted & _).
  destruct (Hsorted cwd0 gallery gallery_uploads gallery_outputs)
    as (recs & Hr & Hs & _).
  - vm_compute; reflexivity.
  - vm_compute; reflexivity.
  - intros f [<-|[<-|[<-|[<-|[<-|[]]]]]]; absent_char.
  - exists recs. split; assumption.
Defined.

(** ** C6 *)






(** ** C10 *)

(** C10: for every name that both maps hold whose prompt file can be read
    and holds white space only (or nothing), [readTextFile] returns the empty
    string and the returned records contain the record of that name without a
    prompt, the record a missing prompt file gives. *)
Theorem matchFiles_blank_prompt cwd fs uploadFiles outputFiles :
  getFilesByExtension fs (PATHS.UPLOADS cwd) IMAGE_EXTENSIONS
    = Some uploadFiles ->
  getFilesByExtension fs (PATHS.OUTPUTS cwd) AUDIO_EXTENSIONS
    = Some outputFiles ->
  exists recs,
    matchFiles cwd fs = Some recs
    /\ forall k i a content,
         map_get k (imageMapOf cwd fs uploadFiles) = Some i ->
         map_get k (audioMapOf cwd fs outputFiles) = Some a ->
         readFileSync fs (textFilePath cwd k) = Some content ->
         (forall c, In c content -> is_white_space c = true) ->
         readTextFile fs (textFilePath cwd k) = []
         /\ In {| imageUrl := js "/uploads/" ++ i;
                  audioUrl := js "/outputs/" ++ a;
                  name := k;
                  prompt := None |} recs.
Proof.
  intros Hu Ho. exists (matchFiles_from cwd fs uploadFiles outputFiles).
  split; [apply matchFiles_listed; assumption|].
  assert (Hun : forall f, In f uploadFiles -> f <> []).
  { intros f. apply (getFilesByExtension_nonempty _ _ _ _ _
                       IMAGE_EXTENSIONS_nonempty Hu). }
  assert (Hon : forall f, In f outputFiles -> f <> []).
  { intros f. apply (getFilesByExtension_nonempty _ _ _ _ _
                       AUDIO_EXTENSIONS_nonempty Ho). }
  intros k i a content Hi Ha Hread Hblank.
  assert (Ht : readTextFile fs (textFilePath cwd k) = []).
  { unfold readTextFile. rewrite Hread.
    destruct (negb (existsSync fs (textFilePath cwd k)));
      [reflexivity | apply trim_blank, Hblank]. }
  split; [exact Ht|].
  pose proof (matchFiles_from_record cwd fs uploadFiles outputFiles
                Hun Hon k i a Hi Ha) as Hin.
  unfold record_for in Hin. rewrite Ht in Hin. exact Hin.
Qed.

Lemma matchFiles_blank_prompt_witness :
  exists recs,
    matchFiles cwd0 gallery = Some recs
    /\ In {| imageUrl := js "/uploads/b.png"; audioUrl := js "/outputs/b.wav";
             name := js "b"; prompt := None |} recs.
Proof.
  destruct (matchFiles_blank_prompt cwd0 gallery gallery_uploads
              gallery_outputs) as (recs & Hr & Hk).
  - vm_compute; reflexivity.
  - vm_compute; reflexivity.
  - exists recs. split; [exact Hr|].
    apply (Hk (js "b") (js "b.png") (js "b.wav") (js "   ")).
    + vm_compute; reflexivity.
    + vm_compute; reflexivity.
    + vm_compute; reflexivity.
    + intros c [<-|[<-|[<-|[]]]]; vm_compute; reflexivity.
Defined.

(** ** C7 *)

(** C7, as stated, fails for an accepted set that is not in lower case:
    with [".JPG"] accepted, "a.JPG" is not returned. *)
Lemma getFilesByExtension_upper_case_set :
  ~ scans_as_stated upper_case_dir (PATHS.UPLOADS cwd0) [js ".JPG"].
Proof.
  intros [_ H].
  destruct (H [js "a.JPG"] eq_refl) as (files & Hf & Hiff).
  vm_compute in Hf. injection Hf as <-.
  destruct (Hiff (js "a.JPG")) as [_ Hback].
  apply Hback. split; [left; reflexivity|].
  exists (js ".JPG"). split; [left; reflexivity | reflexivity].
Qed.

(** C7 (amended): a directory that does not exist gives the empty list, not
    an error; a directory that is listed gives, in listing order, the entries
    whose lower-cased extension (leading dot included) is a member of the
    accepted set, which is a comparison ignoring case whenever the accepted
    extensions are in lower case, as those of both constant lists are. *)
Theorem getFilesByExtension_filters :
  (forall fs dirPath extensions,
      existsSync fs dirPath = false ->
      getFilesByExtension fs dirPath extensions = Some [])
  /\ (forall fs dirPath extensions entries,
      readdirSync fs dirPath = Some entries ->
      exists files,
        getFilesByExtension fs dirPath extensions = Some files
        /\ files = filter (fun f => includes extensions
                                      (toLowerCase (path.extname f))) entries
        /\ (forall f, In f files <->
                      In f entries
                      /\ In (toLowerCase (path.extname f)) extensions)
        /\ ((forall e, In e extensions -> toLowerCase e = e) ->
            forall f, In f files <->
                      In f entries
                      /\ exists e, In e extensions
                                   /\ eq_ignoring_case (path.extname f) e))
  /\ (forall e, In e (IMAGE_EXTENSIONS ++ AUDIO_EXTENSIONS) ->
                toLowerCase e = e).
Proof.
  split; [|split].
  - intros fs dirPath extensions H. unfold getFilesByExtension.
    rewrite H. reflexivity.
  - intros fs dirPath extensions entries Hl.
    eexists. split; [apply getFilesByExtension_listed, Hl|].
    split; [reflexivity|].
    assert (Hmem : forall f,
      In f (filter (fun f => includes extensions
                               (toLowerCase (path.extname f))) entries) <->
      In f entries /\ In (toLowerCase (path.extname f)) extensions).
    { intros f. rewrite filter_In, includes_In. tauto. }
    split; [exact Hmem|].
    intros Hlow f. rewrite Hmem. unfold eq_ignoring_case. split.
    + intros [He Hx]. split; [exact He|].
      exists (toLowerCase (path.extname f)). split; [exact Hx|].
      symmetry. apply Hlow, Hx.
    + intros [He (e & Hin & Heq)]. split; [exact He|].
      rewrite Heq, (Hlow e Hin). exact Hin.
  - intros e H. vm_compute in H.
    repeat (destruct H as [<-|H]; [vm_compute; reflexivity|]). destruct H.
Qed.

Lemma getFilesByExtension_filters_witness :
  getFilesByExtension gallery (js "/srv/nowhere") IMAGE_EXTENSIONS = Some []
  /\ exists files,
       getFilesByExtension gallery (PATHS.UPLOADS cwd0) IMAGE_EXTENSIONS
         = Some files
       /\ In (js "e.JPG") files /\ ~ In (js "d.txt") files.
Proof.
  destruct getFilesByExtension_filters as (Hmiss & Hlist & Hlow).
  split.
  - apply (Hmiss gallery (js "/srv/nowhere") IMAGE_EXTENSIONS).
    vm_compute; reflexivity.
  - destruct (Hlist gallery (PATHS.UPLOADS cwd0) IMAGE_EXTENSIONS
                [js "a.jpg"; js "b.png"; js "c.gif"; js "d.txt"; js "e.JPG";
                 js "lone.webp"])
      as (files & Hf & _ & _ & Hci).
    + vm_compute; reflexivity.
    + assert (Hl : forall e, In e IMAGE_EXTENSIONS -> toLowerCase e = e).
      { intros e He. apply Hlow. apply in_or_app. left. exact He. }
      exists files. split; [exact Hf|]. split.
      * apply (Hci Hl). split.
        -- vm_compute. do 4 right. left. reflexivity.
        -- exists (js ".jpg"). split; [left; reflexivity|].
           vm_compute; reflexivity.
      * intros Hd. apply (Hci Hl) in Hd.
        destruct Hd as [_ (e & He & Heq)].
        vm_compute in He, Heq.
        repeat (destruct He as [<-|He]; [discriminate Heq|]). destruct He.
Defined.

(** ** C5 *)

(** C5 does not hold on the code: the handler names the audio and the prompt
    text after the stem of the uploaded name, without resolving it.  For
    "sunset-1700000000.jpg" it writes "sunset-1700000000.wav" and
    "sunset-1700000000.txt"; nothing is written under the logical name
    "sunset", and [matchFiles] then pairs the image (name "sunset") with no
    audio: the generated item is not listed. *)
Theorem generate_names_by_stem :
  (forall originalname,
      generate_outputFilename originalname
      = path.name (path.parse originalname) ++ js ".wav"
      /\ generate_textFilename originalname
         = path.name (path.parse originalname) ++ js ".txt")
  /\ let originalname := js "sunset-1700000000.jpg" in
     let result :=
       generate_success cwd0 (empty_dirs cwd0) originalname (js "<image>")
         (js "calm piano") (js "<audio>") 1000 in
     res_filename (snd result) = js "sunset-1700000000.wav"
     /\ getBaseName originalname ++ js ".wav" = js "sunset.wav"
     /\ readdirSync (fst result) (PATHS.OUTPUTS cwd0)
        = Some [js "sunset-1700000000.wav"]
     /\ readdirSync (fst result) (PATHS.TEXTS cwd0)
        = Some [js "sunset-1700000000.txt"]
     /\ map_keys (imageMapOf cwd0 (fst result) [js "sunset-1700000000.jpg"])
        = [js "sunset"]
     /\ map_keys (audioMapOf cwd0 (fst result) [js "sunset-1700000000.wav"])
        = [js "sunset-1700000000"]
     /\ matchFiles cwd0 (fst result) = Some [].
Proof.
  split; [intros; split; reflexivity|].
  cbv zeta. repeat split; vm_compute; reflexivity.
Qed.

(** * Further properties *)

(** ** The last component found by [path.parse] and [path.extname] *)

Lemma visit_inv p n st :
  charCodeAt p (Z.of_nat n) <> CHAR_FORWARD_SLASH ->
  Z.of_nat n < jslength p ->
  scan_inv p (Z.of_nat n + 1) st ->
  scan_inv p (Z.of_nat n)
    (path.visit (Z.of_nat n) (charCodeAt p (Z.of_nat n)) st).
Proof.
  intros Hc Hn [Hsp Hst]. destruct st as [sd sp e ms pd].
  cbn [path.startPart path.end_ path.startDot path.matchedSlash] in *.
  subst sp. unfold path.visit.
  cbn [path.startPart path.end_ path.startDot path.matchedSlash
       path.preDotState].
  destruct Hst as [(-> & -> & ->)|(-> & He & Hreg & Hdot)].
  - cbn [Z.eqb]. rewrite Pos.eqb_refl.
    cbn [path.startPart path.end_ path.startDot path.matchedSlash
         path.preDotState Z.eqb].
    rewrite Pos.eqb_refl. unfold jschar_eqb.
    destruct (N.eqb_spec (charCodeAt p (Z.of_nat n)) CHAR_DOT) as [Ed|Ed];
      cbn [negb]; (split; [reflexivity|]); right;
      cbn [path.startPart path.end_ path.startDot path.matchedSlash];
      (split; [reflexivity|]); (split; [lia|]);
      (split; [intros i Hi; replace i with (Z.of_nat n) by lia; exact Hc|]).
    + right. split; [lia | exact Ed].
    + left. reflexivity.
  - destruct (Z.eqb_spec e (-1)) as [|_]; [lia|].
    assert (Hreg' : forall i, Z.of_nat n <= i < e ->
                              charCodeAt p i <> CHAR_FORWARD_SLASH).
    { intros i Hi. destruct (Z.eq_dec i (Z.of_nat n)) as [->|];
        [exact Hc | apply Hreg; lia]. }
    cbn [path.startPart path.end_ path.startDot path.matchedSlash
         path.preDotState].
    unfold jschar_eqb.
    destruct (N.eqb_spec (charCodeAt p (Z.of_nat n)) CHAR_DOT) as [Ed|Ed].
    + destruct (Z.eqb_spec sd (-1)) as [->|Hsd].
      * split; [reflexivity|]. right.
        cbn [path.startPart path.end_ path.startDot path.matchedSlash].
        split; [reflexivity|]. split; [lia|]. split; [exact Hreg'|].
        right. split; [lia | exact Ed].
      * destruct Hdot as [|Hdot]; [contradiction|].
        destruct (negb (pd =? 1)); (split; [reflexivity|]); right;
          cbn [path.startPart path.end_ path.startDot path.matchedSlash];
          (split; [reflexivity|]); (split; [lia|]);
          (split; [exact Hreg'|]); right; (split; [lia | apply Hdot]).
    + destruct (Z.eqb_spec sd (-1)) as [->|Hsd]; cbn [negb].
      * split; [reflexivity|]. right.
        cbn [path.startPart path.end_ path.startDot path.matchedSlash].
        split; [reflexivity|]. split; [lia|]. split; [exact Hreg'|].
        left. reflexivity.
      * destruct Hdot as [|Hdot]; [contradiction|].
        split; [reflexivity|]. right.
        cbn [path.startPart path.end_ path.startDot path.matchedSlash].
        split; [reflexivity|]. split; [lia|]. split; [exact Hreg'|].
        right. split; [lia | apply Hdot].
Qed.

Lemma scan_inv_post p lo : forall n st,
  0 <= lo -> lo <= Z.of_nat n -> Z.of_nat n <= jslength p ->
  scan_inv p (Z.of_nat n) st ->
  scan_post p lo (path.scan p lo n st).
Proof.
  induction n as [|n IH]; intros st Hlo Hn Hlen Hinv.
  - cbn [path.scan]. destruct Hinv as [Hsp [(He & _)|(Hms & He & Hreg & Hdot)]].
    + left. exact He.
    + right. cbv zeta. rewrite Hsp.
      replace (Z.max lo 0) with 0 by lia.
      change (Z.of_nat 0) with 0 in *.
      repeat split; auto; try lia.
  - cbn [path.scan]. cbv zeta.
    destruct (Z.ltb_spec (Z.of_nat n) lo) as [Hlt|Hge].
    + destruct Hinv as [Hsp [(He & _)|(Hms & He & Hreg & Hdot)]].
      * left. exact He.
      * right. cbv zeta. rewrite Hsp.
        replace (Z.max lo 0) with lo by lia.
        assert (Hn' : Z.of_nat (S n) = lo) by lia. rewrite Hn' in *.
        repeat split; auto; try lia.
    + replace (Z.of_nat (S n)) with (Z.of_nat n + 1) in * by lia.
      unfold jschar_eqb at 1.
      destruct (N.eqb_spec (charCodeAt p (Z.of_nat n)) CHAR_FORWARD_SLASH)
        as [Es|Es].
      * destruct (path.matchedSlash st) eqn:Ems; cbn [negb].
        -- apply IH; try lia.
           destruct Hinv as [Hsp [H|(Hms & _)]]; [|congruence].
           split; [exact Hsp|]. left. exact H.
        -- destruct Hinv as [Hsp [(_ & _ & Hms)|(_ & He & Hreg & Hdot)]];
             [congruence|].
           right. cbv zeta.
           cbn [path.startPart path.end_ path.startDot].
           replace (Z.max lo (Z.of_nat n + 1)) with (Z.of_nat n + 1) by lia.
           repeat split; auto; try lia.
      * apply IH; try lia. apply visit_inv; auto. lia.
Qed.

Lemma scan_init_inv p n : scan_inv p n path.scan_init.
Proof. split; [reflexivity|]. left. repeat split. Qed.

Lemma slice_In p a b c :
  0 <= a -> In c (slice p a b) ->
  exists i, a <= i < b /\ i < jslength p /\ charCodeAt p i = c.
Proof.
  intros Ha Hin. unfold slice in Hin.
  destruct (In_nth _ _ 0%N Hin) as (j & Hj & Hnth).
  rewrite length_firstn, length_skipn in Hj.
  rewrite nth_firstn in Hnth.
  destruct (Nat.ltb_spec j (Z.to_nat (b - a))) as [Hlt|]; [|lia].
  rewrite nth_skipn in Hnth.
  exists (a + Z.of_nat j). unfold jslength, charCodeAt.
  replace (Z.to_nat (a + Z.of_nat j)) with (Z.to_nat a + j)%nat by lia.
  split; [lia|]. split; [lia | exact Hnth].
Qed.

Lemma slice_first p a b :
  0 <= a < b -> a < jslength p ->
  exists r, slice p a b = charCodeAt p a :: r.
Proof.
  intros Hab Hlen. unfold slice, charCodeAt, jslength in *.
  pose proof (nth_skipn (Z.to_nat a) p 0 0%N) as Hn.
  rewrite Nat.add_0_r in Hn. rewrite <- Hn.
  destruct (skipn (Z.to_nat a) p) as [|x r] eqn:E.
  - pose proof (length_skipn (Z.to_nat a) p) as L. rewrite E in L.
    cbn [List.length] in L. lia.
  - destruct (Z.to_nat (b - a)) as [|k] eqn:Ek; [lia|].
    cbn [firstn nth]. eexists. reflexivity.
Qed.

Lemma firstn_plus {A : Type} (a b : nat) (l : list A) :
  firstn (a + b) l = firstn a l ++ firstn b (skipn a l).
Proof.
  revert l; induction a as [|a IH]; intros l; [reflexivity|].
  destruct l as [|x l]; cbn [Nat.add firstn skipn app].
  - destruct b; reflexivity.
  - rewrite IH. reflexivity.
Qed.

Lemma slice_split p a m b :
  0 <= a <= m -> m <= b ->
  slice p a m ++ slice p m b = slice p a b.
Proof.
  intros Ham Hmb. unfold slice.
  replace (Z.to_nat (b - a)) with (Z.to_nat (m - a) + Z.to_nat (b - m))%nat
    by lia.
  rewrite firstn_plus. f_equal.
  rewrite skipn_skipn. f_equal. f_equal. lia.
Qed.

(** The state [path.parse] works from. *)
Lemma parse_scan_post c0 rest :
  let p := c0 :: rest in
  let lo := if jschar_eqb c0 CHAR_FORWARD_SLASH then 1 else 0 in
  scan_post p lo (path.scan p lo (List.length p) path.scan_init).
Proof.
  intros p lo. apply scan_inv_post.
  - unfold lo. destruct (jschar_eqb c0 CHAR_FORWARD_SLASH); lia.
  - unfold lo, p. cbn [List.length].
    destruct (jschar_eqb c0 CHAR_FORWARD_SLASH); lia.
  - unfold jslength. lia.
  - apply scan_init_inv.
Qed.

Lemma extname_scan_post p :
  scan_post p 0 (path.scan p 0 (List.length p) path.scan_init).
Proof.
  apply scan_inv_post; try lia.
  - unfold jslength. lia.
  - apply scan_init_inv.
Qed.

Lemma parse_name_no_separator p :
  ~ In CHAR_FORWARD_SLASH (path.name (path.parse p)).
Proof.
  destruct p as [|c0 rest]; [intros []|].
  pose proof (parse_scan_post c0 rest) as Hpost. cbv zeta in Hpost.
  unfold path.parse.
  set (lo := if jschar_eqb c0 CHAR_FORWARD_SLASH then 1 else 0) in *.
  set (st := path.scan (c0 :: rest) lo (List.length (c0 :: rest))
               path.scan_init) in *.
  cbv zeta.
  destruct (Z.eqb_spec (path.end_ st) (-1)) as [He|He]; [intros []|].
  destruct Hpost as [|(Hsp & Hb & Hlen & Hreg & Hdot)]; [contradiction|].
  assert (Hstart :
    (if (path.startPart st =? 0) && jschar_eqb c0 CHAR_FORWARD_SLASH
     then 1 else path.startPart st) = Z.max lo (path.startPart st)).
  { unfold lo in *.
    destruct (jschar_eqb c0 CHAR_FORWARD_SLASH);
      destruct (Z.eqb_spec (path.startPart st) 0); cbn [andb]; lia. }
  rewrite Hstart.
  set (b := Z.max lo (path.startPart st)) in *.
  destruct (path.no_ext st) eqn:Eno; cbn [path.name]; intros Hin.
  - apply slice_In in Hin; [|lia]. destruct Hin as (i & Hi & _ & Hc).
    exact (Hreg i Hi Hc).
  - apply slice_In in Hin; [|lia]. destruct Hin as (i & Hi & _ & Hc).
    unfold path.no_ext in Eno.
    destruct (Z.eqb_spec (path.startDot st) (-1)) as [|Hsd];
      [discriminate Eno|].
    destruct Hdot as [|[Hd _]]; [contradiction|].
    apply (Hreg i); [lia | exact Hc].
Qed.

Lemma extname_cases p :
  path.extname p = []
  \/ exists e, path.extname p = CHAR_DOT :: e
               /\ ~ In CHAR_FORWARD_SLASH e.
Proof.
  pose proof (extname_scan_post p) as Hpost. unfold path.extname.
  set (st := path.scan p 0 (List.length p) path.scan_init) in *.
  destruct (Z.eqb_spec (path.end_ st) (-1)) as [He|He]; [left; reflexivity|].
  destruct (path.no_ext st) eqn:Eno; [left; reflexivity|]. right.
  cbn [orb].
  destruct Hpost as [|(Hsp & Hb & Hlen & Hreg & Hdot)]; [contradiction|].
  unfold path.no_ext in Eno.
  destruct (Z.eqb_spec (path.startDot st) (-1)) as [|Hsd];
    [discriminate Eno|].
  destruct Hdot as [|[Hd Hc]]; [contradiction|].
  destruct (slice_first p (path.startDot st) (path.end_ st)) as (r & Hr);
    try lia.
  exists r. split; [rewrite Hr, Hc; reflexivity|].
  intros Hin.
  assert (Hin' : In CHAR_FORWARD_SLASH (slice p (path.startDot st)
                                          (path.end_ st))).
  { rewrite Hr. right. exact Hin. }
  apply slice_In in Hin'; [|lia]. destruct Hin' as (i & Hi & _ & Hci).
  apply (Hreg i); [lia | exact Hci].
Qed.

Lemma extname_no_separator p : ~ In CHAR_FORWARD_SLASH (path.extname p).
Proof.
  destruct (extname_cases p) as [->|(e & -> & He)]; [intros []|].
  intros [H|H]; [discriminate H | exact (He H)].
Qed.

(** ** A file name that is a single path segment *)

Lemma segment_head p :
  ~ In CHAR_FORWARD_SLASH p -> p <> [] ->
  exists c r, p = c :: r /\ jschar_eqb c CHAR_FORWARD_SLASH = false.
Proof.
  intros Hfree Hne. destruct p as [|c r]; [congruence|].
  exists c, r. split; [reflexivity|].
  unfold jschar_eqb. apply N.eqb_neq. intros ->. apply Hfree. left.
  reflexivity.
Qed.

Lemma segment_base p :
  ~ In CHAR_FORWARD_SLASH p -> path.base (path.parse p) = p.
Proof.
  intros Hfree. destruct p as [|c r]; [reflexivity|].
  destruct (segment_head (c :: r) Hfree ltac:(discriminate))
    as (c' & r' & E & Hc). injection E as <- <-.
  pose proof (scan_whole _ Hfree) as Hscan.
  unfold path.parse. rewrite Hc. cbv zeta. cbv iota. rewrite Hscan.
  set (p := c :: r) in *.
  assert (Hend : path.end_ (scanned 0 p) = jslength p) by reflexivity.
  assert (Hpart : path.startPart (scanned 0 p) = 0) by reflexivity.
  assert (Hne : (path.end_ (scanned 0 p) =? -1) = false).
  { rewrite Hend. apply Z.eqb_neq. pose proof (jslength_nonneg p). lia. }
  rewrite Hne, Hpart, Hend. cbn [Z.eqb andb].
  pose proof (slice_prefix p []) as Hs. rewrite app_nil_r in Hs.
  destruct (path.no_ext (scanned 0 p)); cbn [path.base]; exact Hs.
Qed.

Lemma segment_without_ext p :
  ~ In CHAR_FORWARD_SLASH p ->
  path.no_ext (scanned 0 p) = true ->
  path.name (path.parse p) = p /\ path.ext (path.parse p) = []
  /\ path.extname p = [].
Proof.
  intros Hfree Hno. destruct p as [|c r]; [repeat split|].
  destruct (segment_head (c :: r) Hfree ltac:(discriminate))
    as (c' & r' & E & Hc). injection E as <- <-.
  pose proof (scan_whole _ Hfree) as Hscan.
  unfold path.parse, path.extname. rewrite Hc. cbv zeta. cbv iota.
  rewrite Hscan. set (p := c :: r) in *.
  assert (Hend : path.end_ (scanned 0 p) = jslength p) by reflexivity.
  assert (Hpart : path.startPart (scanned 0 p) = 0) by reflexivity.
  assert (Hne : (path.end_ (scanned 0 p) =? -1) = false).
  { rewrite Hend. apply Z.eqb_neq. pose proof (jslength_nonneg p). lia. }
  rewrite Hne, Hno, Hpart, Hend. cbn [Z.eqb andb orb path.name path.ext].
  pose proof (slice_prefix p []) as Hs. rewrite app_nil_r in Hs.
  repeat split. exact Hs.
Qed.

Lemma lastIndexOf_from_none c s i :
  0 <= i -> lastIndexOf_from c s i = -1 -> ~ In c s.
Proof.
  intros Hi H Hin. pose proof (lastIndexOf_from_present c s i Hi Hin). lia.
Qed.

(** A single segment either has no extension, and is its own name, or is a
    non-empty name, the last dot, and what follows it. *)
Lemma segment_parse p :
  ~ In CHAR_FORWARD_SLASH p ->
  (path.name (path.parse p) = p /\ path.ext (path.parse p) = []
   /\ path.extname p = [])
  \/ (exists s e,
        p = s ++ CHAR_DOT :: e /\ s <> [] /\ ~ In CHAR_DOT e
        /\ path.name (path.parse p) = s
        /\ path.ext (path.parse p) = CHAR_DOT :: e
        /\ path.extname p = CHAR_DOT :: e).
Proof.
  intros Hfree.
  destruct (lastIndexOf_from_range CHAR_DOT p 0 ltac:(lia)) as [Habs|Hpos].
  - left. apply segment_without_ext; [exact Hfree|].
    unfold path.no_ext. destruct p as [|c r]; [reflexivity|].
    cbn [scanned path.startDot]. rewrite Habs. reflexivity.
  - destruct (lastIndexOf_from_found CHAR_DOT p 0 _ ltac:(lia) eq_refl Hpos)
      as (s & e & Hp & He & _).
    assert (Hfs : ~ In CHAR_FORWARD_SLASH s).
    { intros H. apply Hfree. rewrite Hp. apply in_or_app. left. exact H. }
    assert (Hfe : ~ In CHAR_FORWARD_SLASH e).
    { intros H. apply Hfree. rewrite Hp. apply in_or_app. right. right.
      exact H. }
    destruct s as [|c s'].
    + left. apply segment_without_ext; [exact Hfree|].
      rewrite Hp. cbn [app].
      assert (Hpre : path.preDotState (scanned 0 (CHAR_DOT :: e)) = 0).
      { cbn [scanned path.preDotState].
        rewrite (lastIndexOf_from_absent CHAR_DOT e (0 + 1) He).
        reflexivity. }
      unfold path.no_ext. rewrite Hpre. cbn [Z.eqb].
      rewrite orb_true_r. reflexivity.
    + destruct (list_eq_dec N.eq_dec (c :: s') [CHAR_DOT]) as [Es|Es];
        [destruct e as [|x e']|].
      * left. rewrite Hp, Es. repeat split.
      * right. exists (c :: s'), (x :: e'). rewrite Hp.
        split; [reflexivity|]. split; [discriminate|]. split; [exact He|].
        apply parse_segment; auto; try discriminate.
        intros [_ H]. discriminate H.
      * right. exists (c :: s'), e. rewrite Hp.
        split; [reflexivity|]. split; [discriminate|]. split; [exact He|].
        apply parse_segment; auto; try discriminate.
        intros [H _]. exact (Es H).
Qed.

Lemma storage_filename_segment originalname :
  ~ In CHAR_FORWARD_SLASH originalname ->
  storage_filename originalname = originalname.
Proof.
  intros Hfree. unfold storage_filename.
  destruct (segment_parse originalname Hfree)
    as [(Hn & _ & He)|(s & e & Hp & _ & _ & Hn & _ & He)].
  - rewrite Hn, He. apply app_nil_r.
  - rewrite Hn, He. symmetry. exact Hp.
Qed.

Lemma getBaseName_prefix filename :
  exists rest,
    path.name (path.parse filename) = getBaseName filename ++ rest
    /\ (rest = [] \/ exists d, rest = CHAR_DASH :: d /\ decimal_digits d).
Proof.
  unfold getBaseName.
  set (stem := path.name (path.parse filename)).
  destruct (lastIndexOf CHAR_DASH stem >? 0) eqn:E;
    [|exists []; split; [symmetry; apply app_nil_r | left; reflexivity]].
  apply Z.gtb_lt in E. cbv zeta.
  destruct (lastIndexOf_found CHAR_DASH stem _ eq_refl ltac:(lia))
    as (p & d & Hs & Hd & Hk).
  rewrite Hk. clearbody stem. subst stem. rewrite substring_from_suffix.
  destruct (test_digits d) eqn:Ed;
    [|exists []; split; [symmetry; apply app_nil_r | left; reflexivity]].
  rewrite substring_prefix. exists (CHAR_DASH :: d).
  split; [reflexivity|]. right. exists d. split; [reflexivity|].
  apply test_digits_spec. exact Ed.
Qed.

Lemma getBaseName_no_separator filename :
  ~ In CHAR_FORWARD_SLASH (getBaseName filename).
Proof.
  destruct (getBaseName_prefix filename) as (rest & Hs & _).
  intros Hin. apply (parse_name_no_separator filename).
  rewrite Hs. apply in_or_app. left. exact Hin.
Qed.

Lemma js_wav_plain :
  ~ In CHAR_FORWARD_SLASH (js "wav") /\ ~ In CHAR_DOT (js "wav").
Proof. split; absent_char. Qed.

Lemma js_txt_plain :
  ~ In CHAR_FORWARD_SLASH (js "txt") /\ ~ In CHAR_DOT (js "txt").
Proof. split; absent_char. Qed.

(** ** Names chosen by the upload storage and by the handler *)

(** X1: whatever name the client sends, the name the upload is stored under
    and the names of the audio and prompt files hold no path separator: all
    three files are direct children of their directories. *)
Theorem written_names_have_no_separator originalname :
  ~ In CHAR_FORWARD_SLASH (storage_filename originalname)
  /\ ~ In CHAR_FORWARD_SLASH (generate_outputFilename originalname)
  /\ ~ In CHAR_FORWARD_SLASH (generate_textFilename originalname).
Proof.
  split; [|split].
  - unfold storage_filename. intros H. apply in_app_or in H.
    destruct H as [H|H].
    + exact (parse_name_no_separator _ H).
    + exact (extname_no_separator _ H).
  - unfold generate_outputFilename, generate_imageBaseName. intros H.
    apply in_app_or in H. destruct H as [H|H].
    + exact (parse_name_no_separator _ H).
    + revert H. absent_char.
  - unfold generate_textFilename, generate_imageBaseName. intros H.
    apply in_app_or in H. destruct H as [H|H].
    + exact (parse_name_no_separator _ H).
    + revert H. absent_char.
Qed.

(** X2: an upload whose name is a single path segment is stored under
    exactly that name (the storage callback puts the stem and the extension
    back together). *)
Theorem storage_keeps_segment_name originalname :
  ~ In CHAR_FORWARD_SLASH originalname ->
  storage_filename originalname = originalname.
Proof. apply storage_filename_segment. Qed.

Lemma storage_keeps_segment_name_witness :
  storage_filename (js "my.holiday.photo.JPG") = js "my.holiday.photo.JPG".
Proof.
  apply (storage_keeps_segment_name (js "my.holiday.photo.JPG")).
  absent_char.
Defined.

(** X3: the logical name of a file never holds a separator, and it is the
    file's stem with at most one trailing dash-digits segment removed; for a
    single-segment file name it is a prefix of the file name. *)
Theorem getBaseName_is_prefix :
  (forall filename, ~ In CHAR_FORWARD_SLASH (getBaseName filename))
  /\ (forall filename,
        exists rest,
          path.name (path.parse filename) = getBaseName filename ++ rest
          /\ (rest = []
              \/ exists d, rest = CHAR_DASH :: d /\ decimal_digits d))
  /\ (forall filename,
        ~ In CHAR_FORWARD_SLASH filename ->
        exists rest, filename = getBaseName filename ++ rest).
Proof.
  split; [exact getBaseName_no_separator|].
  split; [exact getBaseName_prefix|].
  intros filename Hfree.
  destruct (getBaseName_prefix filename) as (rest & Hs & _).
  destruct (segment_parse filename Hfree)
    as [(Hn & _)|(s & e & Hp & _ & _ & Hn & _)].
  - exists rest. rewrite <- Hs. symmetry. exact Hn.
  - exists (rest ++ CHAR_DOT :: e). rewrite app_assoc, <- Hs, Hn. exact Hp.
Qed.

Lemma getBaseName_is_prefix_witness :
  exists rest, js "trip-2024.final.png" = getBaseName (js "trip-2024.final.png") ++ rest.
Proof.
  destruct getBaseName_is_prefix as (_ & _ & H).
  apply (H (js "trip-2024.final.png")). absent_char.
Defined.

Lemma output_name_parse stem :
  stem <> [] -> ~ In CHAR_FORWARD_SLASH stem ->
  path.name (path.parse (stem ++ js ".wav")) = stem
  /\ path.extname (stem ++ js ".wav") = js ".wav".
Proof.
  intros Hne Hfree.
  destruct (parse_segment stem (js "wav")) as (Hn & _ & He); auto.
  - apply js_wav_plain.
  - apply js_wav_plain.
  - intros [_ H]. discriminate H.
Qed.

(** X4: the audio file the handler writes for an upload with a non-empty
    stem resolves, under the audio resolver of [matchFiles], to that stem, and
    its extension is accepted by the scanner; for an empty stem the handler
    writes ".wav", which has no extension and is never listed. *)
Theorem audio_name_round_trip originalname :
  (generate_imageBaseName originalname <> [] ->
   audioBaseName (generate_outputFilename originalname)
     = generate_imageBaseName originalname
   /\ includes AUDIO_EXTENSIONS
        (toLowerCase (path.extname (generate_outputFilename originalname)))
      = true)
  /\ (generate_imageBaseName originalname = [] ->
      includes AUDIO_EXTENSIONS
        (toLowerCase (path.extname (generate_outputFilename originalname)))
      = false).
Proof.
  unfold generate_outputFilename, audioBaseName. split.
  - intros Hne.
    destruct (output_name_parse (generate_imageBaseName originalname) Hne)
      as (Hn & He); [apply parse_name_no_separator|].
    rewrite Hn, He. split; reflexivity.
  - intros ->. reflexivity.
Qed.

Lemma audio_name_round_trip_witness :
  audioBaseName (generate_outputFilename (js "a.b-c.jpeg")) = js "a.b-c".
Proof.
  destruct (audio_name_round_trip (js "a.b-c.jpeg")) as [H _].
  apply H. vm_compute. discriminate.
Defined.

Lemma app_not_self {A : Type} (l : list A) (x : A) (r : list A) :
  l <> l ++ x :: r.
Proof.
  intros H. apply (f_equal (@List.length A)) in H.
  rewrite length_app in H. cbn [List.length] in H. lia.
Qed.

(** X5: when the stem of a single-segment upload ends in a dash and digits
    after a non-empty prefix, the stored image resolves to the prefix while
    the audio written for it resolves to the whole stem: the two names
    differ. *)
Theorem numbered_upload_names_differ originalname p d :
  ~ In CHAR_FORWARD_SLASH originalname ->
  path.name (path.parse originalname) = p ++ CHAR_DASH :: d ->
  p <> [] -> decimal_digits d ->
  getBaseName (storage_filename originalname) = p
  /\ audioBaseName (generate_outputFilename originalname)
     = p ++ CHAR_DASH :: d
  /\ getBaseName (storage_filename originalname)
     <> audioBaseName (generate_outputFilename originalname).
Proof.
  intros Hfree Hstem Hp Hd.
  assert (Hi : getBaseName (storage_filename originalname) = p).
  { rewrite storage_filename_segment by exact Hfree.
    apply (getBaseName_strips _ p d Hstem Hp Hd). }
  assert (Ha : audioBaseName (generate_outputFilename originalname)
               = p ++ CHAR_DASH :: d).
  { unfold generate_outputFilename, audioBaseName, generate_imageBaseName.
    rewrite Hstem.
    destruct (parse_segment (p ++ CHAR_DASH :: d) (js "wav")) as (Hn & _).
    - destruct p; discriminate.
    - rewrite <- Hstem. apply parse_name_no_separator.
    - apply js_wav_plain.
    - apply js_wav_plain.
    - intros [_ H]. discriminate H.
    - exact Hn. }
  split; [exact Hi|]. split; [exact Ha|].
  rewrite Hi, Ha. apply app_not_self.
Qed.

Lemma numbered_upload_names_differ_witness :
  getBaseName (storage_filename (js "IMG-20240131.png"))
  <> audioBaseName (generate_outputFilename (js "IMG-20240131.png")).
Proof.
  apply (numbered_upload_names_differ (js "IMG-20240131.png")
           (js "IMG") (js "20240131")).
  - absent_char.
  - vm_compute; reflexivity.
  - discriminate.
  - apply test_digits_spec. vm_compute; reflexivity.
Defined.

(** ** Writing a file *)

Lemma path_join_not_dir d f : path.join d f <> d.
Proof. unfold path.join. intros H. symmetry in H. exact (app_not_self _ _ _ H). Qed.

Lemma writeFileSync_file fs d f now content :
  writeFileSync fs d f now content (path.join d f)
  = Some (File now (Some content)).
Proof. unfold writeFileSync. rewrite jsstring_eqb_refl. reflexivity. Qed.

Lemma writeFileSync_dir fs d f now content t es :
  fs d = Some (Dir t es) ->
  readdirSync (writeFileSync fs d f now content) d
  = Some (if existsb (jsstring_eqb f) es then es else es ++ [f]).
Proof.
  intros H. unfold readdirSync, writeFileSync.
  assert (E : jsstring_eqb d (path.join d f) = false).
  { apply jsstring_eqb_neq. intros E. symmetry in E.
    exact (path_join_not_dir d f E). }
  rewrite E, jsstring_eqb_refl, H. reflexivity.
Qed.

Lemma writeFileSync_other fs d f now content p :
  p <> path.join d f -> p <> d ->
  writeFileSync fs d f now content p = fs p.
Proof.
  intros H1 H2. unfold writeFileSync.
  apply jsstring_eqb_neq in H1, H2. rewrite H1, H2. reflexivity.
Qed.

Lemma writeFileSync_lists fs d f now content t es :
  fs d = Some (Dir t es) ->
  exists es', readdirSync (writeFileSync fs d f now content) d = Some es'
              /\ In f es' /\ incl es es'.
Proof.
  intros H. rewrite (writeFileSync_dir fs d f now content t es H).
  destruct (existsb (jsstring_eqb f) es) eqn:E.
  - exists es. split; [reflexivity|]. split; [|apply incl_refl].
    apply existsb_eqb_In. exact E.
  - exists (es ++ [f]). split; [reflexivity|]. split.
    + apply in_or_app. right. left. reflexivity.
    + apply incl_appl, incl_refl.
Qed.

(** ** The upload filter *)

(** X6: an upload with a single-segment name that the upload filter accepts
    is, once stored in the uploads directory, among the files the scanner
    returns for the image extensions. *)
Theorem accepted_upload_is_scanned cwd fs originalname mimetype image now
  t es :
  ~ In CHAR_FORWARD_SLASH originalname ->
  fileFilter originalname mimetype = true ->
  fs (PATHS.UPLOADS cwd) = Some (Dir t es) ->
  exists files,
    getFilesByExtension
      (writeFileSync fs (PATHS.UPLOADS cwd) (storage_filename originalname)
         now image)
      (PATHS.UPLOADS cwd) IMAGE_EXTENSIONS = Some files
    /\ In originalname files.
Proof.
  intros Hfree Hok Hdir.
  rewrite (storage_filename_segment _ Hfree).
  destruct (writeFileSync_lists fs (PATHS.UPLOADS cwd) originalname now image
              t es Hdir) as (es' & Hes & Hin & _).
  rewrite (getFilesByExtension_listed _ _ _ _ Hes).
  eexists. split; [reflexivity|].
  apply filter_In. split; [exact Hin|].
  unfold fileFilter in Hok. apply andb_true_iff in Hok. apply Hok.
Qed.

Lemma accepted_upload_is_scanned_witness :
  exists files,
    getFilesByExtension
      (writeFileSync (empty_dirs cwd0) (PATHS.UPLOADS cwd0)
         (storage_filename (js "cat.PNG")) 7 (js "<png>"))
      (PATHS.UPLOADS cwd0) IMAGE_EXTENSIONS = Some files
    /\ In (js "cat.PNG") files.
Proof.
  apply (accepted_upload_is_scanned cwd0 (empty_dirs cwd0) (js "cat.PNG")
           (js "image/png") (js "<png>") 7 0 []).
  - absent_char.
  - vm_compute; reflexivity.
  - vm_compute; reflexivity.
Defined.

(** X7: the MIME type sent with an image is always one of the four types of
    the table and starts with "image/"; the table has an entry for exactly the
    extensions the upload filter accepts, so the fallback "image/png" is
    never used for an accepted upload other than by the table itself. *)
Theorem getMimeType_is_image :
  (forall filePath,
      In (getMimeType filePath)
        [js "image/jpeg"; js "image/png"; js "image/gif"; js "image/webp"]
      /\ startsWith (getMimeType filePath) (js "image/") = true)
  /\ (forall filePath,
      includes IMAGE_EXTENSIONS (toLowerCase (path.extname filePath)) = true
      <-> exists m, map_get (toLowerCase (path.extname filePath)) MIME_TYPES
                    = Some m /\ getMimeType filePath = m).
Proof.
  assert (Hrange : forall ext m, map_get ext MIME_TYPES = Some m ->
            In ext IMAGE_EXTENSIONS /\ m <> []
            /\ In m [js "image/jpeg"; js "image/png"; js "image/gif";
                     js "image/webp"]).
  { intros ext m H. unfold MIME_TYPES in H. cbn [map_get] in H.
    repeat match type of H with
    | (if jsstring_eqb ?a ?b then _ else _) = _ =>
        let E := fresh "E" in
        destruct (jsstring_eqb a b) eqn:E;
        [apply jsstring_eqb_eq in E; subst; injection H as <-;
         split; [vm_compute; tauto|]; split; [discriminate|];
         vm_compute; tauto|]
    end. discriminate H. }
  assert (Hdom : forall ext, In ext IMAGE_EXTENSIONS ->
            exists m, map_get ext MIME_TYPES = Some m).
  { intros ext H. unfold IMAGE_EXTENSIONS in H.
    repeat (destruct H as [<-|H]; [eexists; vm_compute; reflexivity|]).
    destruct H. }
  split.
  - intros filePath. unfold getMimeType. cbv zeta.
    destruct (map_get (toLowerCase (path.extname filePath)) MIME_TYPES)
      as [m|] eqn:E.
    + destruct (Hrange _ _ E) as (_ & Hm & Hin).
      assert (Hmatch : match m with
                       | c :: r => c :: r
                       | [] => js "image/png"
                       end = m) by (destruct m; congruence).
      rewrite Hmatch. split; [exact Hin|].
      cbn [In] in Hin.
      repeat (destruct Hin as [<-|Hin]; [vm_compute; reflexivity|]).
      destruct Hin.
    + split; [vm_compute; tauto | vm_compute; reflexivity].
  - intros filePath. rewrite includes_In. unfold getMimeType. cbv zeta.
    split.
    + intros H. destruct (Hdom _ H) as (m & Hm). exists m. rewrite Hm.
      split; [reflexivity|].
      destruct (Hrange _ _ Hm) as (_ & Hne & _).
      destruct m; [congruence | reflexivity].
    + intros (m & Hm & _). apply (Hrange _ _ Hm).
Qed.

Lemma getMimeType_is_image_witness :
  getMimeType (js "/srv/uploads/Photo.JPG") = js "image/jpeg".
Proof.
  destruct getMimeType_is_image as (_ & H).
  destruct (proj1 (H (js "/srv/uploads/Photo.JPG"))) as (m & Hm & Hg).
  - vm_compute; reflexivity.
  - rewrite Hg. vm_compute in Hm. injection Hm as <-. reflexivity.
Defined.

Lemma written_names_have_no_separator_witness :
  ~ In CHAR_FORWARD_SLASH (storage_filename (js "../../etc/cron.d/x.png"))
  /\ storage_filename (js "../../etc/cron.d/x.png") = js "x.png".
Proof.
  split.
  - apply (written_names_have_no_separator (js "../../etc/cron.d/x.png")).
  - vm_compute; reflexivity.
Defined.

(** ** More on [createFileMap] *)

Lemma map_set_keys k v m :
  map_keys (map_set k v m)
  = if map_has k m then map_keys m else map_keys m ++ [k].
Proof.
  unfold map_has. induction m as [|[k' v'] r IH]; cbn [map_set map_get].
  - reflexivity.
  - destruct (jsstring_eqb k k') eqn:E; [reflexivity|].
    cbn [map_keys List.map fst]. fold (map_keys (map_set k v r)).
    rewrite IH. fold (map_keys r).
    destruct (map_get k r); reflexivity.
Qed.

Lemma map_set_new k v m :
  map_get k m = None -> map_set k v m = m ++ [(k, v)].
Proof.
  induction m as [|[k' v'] r IH]; cbn [map_set map_get app];
    [reflexivity|].
  destruct (jsstring_eqb k k'); [discriminate|].
  intros H. rewrite (IH H). reflexivity.
Qed.

Lemma createFileMap_step_keys fs fn dir m f :
  map_keys (createFileMap_step fs fn dir m f)
  = if map_has (fn f) m then map_keys m else map_keys m ++ [fn f].
Proof.
  unfold createFileMap_step. cbv zeta.
  destruct (map_has (fn f) m) eqn:E; cbn [negb].
  - unfold map_has in E.
    destruct (map_get (fn f) m) as [e|] eqn:G; [|discriminate].
    destruct (_ >? _); [|reflexivity].
    rewrite map_set_keys. unfold map_has. rewrite G. reflexivity.
  - rewrite map_set_keys, E. reflexivity.
Qed.

Lemma existsb_rev_keys k m :
  existsb (jsstring_eqb k) (rev (map_keys m)) = map_has k m.
Proof.
  destruct (map_has k m) eqn:E.
  - apply existsb_eqb_In. rewrite <- in_rev. apply map_get_keys.
    apply map_has_get. exact E.
  - destruct (existsb (jsstring_eqb k) (rev (map_keys m))) eqn:E';
      [|reflexivity].
    apply existsb_eqb_In in E'. rewrite <- in_rev in E'.
    apply map_get_keys, map_has_get in E'. congruence.
Qed.

Lemma createFileMap_fold_keys fs fn dir files : forall m,
  map_keys (fold_left (createFileMap_step fs fn dir) files m)
  = new_Set_from (rev (map_keys m)) (List.map fn files).
Proof.
  induction files as [|f files IH]; intros m; cbn [fold_left List.map
                                                     new_Set_from].
  - symmetry. apply rev_involutive.
  - rewrite IH, createFileMap_step_keys, existsb_rev_keys.
    destruct (map_has (fn f) m); [reflexivity|].
    rewrite rev_app_distr. reflexivity.
Qed.

(** X8: the keys of the map are the logical names of the listed files, each
    once, in the order in which the names first occur in the listing. *)
Theorem createFileMap_keys_in_listing_order fs files fn dir :
  map_keys (createFileMap fs files fn dir) = new_Set (List.map fn files)
  /\ NoDup (map_keys (createFileMap fs files fn dir))
  /\ (forall k, In k (map_keys (createFileMap fs files fn dir))
                <-> exists f, In f files /\ fn f = k).
Proof.
  assert (E : map_keys (createFileMap fs files fn dir)
              = new_Set (List.map fn files)).
  { unfold createFileMap. rewrite createFileMap_fold_keys. reflexivity. }
  split; [exact E|]. rewrite E. split; [apply new_Set_NoDup|].
  intros k. rewrite new_Set_In, in_map_iff. split.
  - intros (f & Hf & Hin). exists f. auto.
  - intros (f & Hin & Hf). exists f. auto.
Qed.

Lemma createFileMap_keys_in_listing_order_witness :
  map_keys (createFileMap two_sunsets
              [js "b.png"; js "a-1.jpg"; js "b-7.gif"; js "a.webp"]
              getBaseName (PATHS.UPLOADS cwd0))
  = [js "b"; js "a"].
Proof.
  destruct (createFileMap_keys_in_listing_order two_sunsets
              [js "b.png"; js "a-1.jpg"; js "b-7.gif"; js "a.webp"]
              getBaseName (PATHS.UPLOADS cwd0)) as (E & _).
  rewrite E. vm_compute; reflexivity.
Defined.

Section CreateFileMapMore.
Variable fs : FS.
Variable getBaseNameFn : jsstring -> jsstring.
Variable dirPath : jsstring.

Local Abbreviation step := (createFileMap_step fs getBaseNameFn dirPath).
Local Abbreviation mt := (file_mtime fs dirPath).
Local Abbreviation built := (built fs getBaseNameFn dirPath).
Local Abbreviation first_newest := (first_newest fs getBaseNameFn dirPath).

Lemma first_newest_step l m f :
  built l m -> first_newest l m -> first_newest (l ++ [f]) (step m f).
Proof.
  intros [Hv Hk] Hfn.
  assert (Hold : forall k w, map_get k m = Some w ->
            exists l1 l2, l ++ [f] = l1 ++ w :: l2
              /\ (forall g, In g l1 -> getBaseNameFn g = k -> mt g < mt w)
              /\ (forall g, In g l2 -> g <> f -> getBaseNameFn g = k ->
                            mt g <= mt w)).
  { intros k w Hg. destruct (Hfn k w Hg) as (l1 & l2 & -> & H1 & H2).
    exists l1, (l2 ++ [f]). rewrite <- app_assoc. split; [reflexivity|].
    split; [exact H1|]. intros g Hin Hne Hb. apply in_app_or in Hin.
    destruct Hin as [Hin|[<-|[]]]; [auto | congruence]. }
  destruct (map_get (getBaseNameFn f) m) as [e|] eqn:E.
  - destruct (Hv _ _ E) as (_ & _ & Hmax).
    destruct (Z_lt_le_dec (mt e) (mt f)) as [Hlt|Hle].
    + rewrite (createFileMap_step_newer _ _ _ m f e E Hlt).
      intros k w Hg.
      destruct (jsstring_eq_dec k (getBaseNameFn f)) as [->|Hne].
      * rewrite map_get_set_eq in Hg. injection Hg as <-.
        exists l, []. split; [reflexivity|]. split; [|intros g []].
        intros g Hin Hb. specialize (Hmax g Hin Hb). lia.
      * rewrite map_get_set_neq in Hg by exact Hne.
        destruct (Hold k w Hg) as (l1 & l2 & Hl & H1 & H2).
        exists l1, l2. split; [exact Hl|]. split; [exact H1|].
        intros g Hin Hb. apply H2; auto. intros ->. congruence.
    + rewrite (createFileMap_step_kept _ _ _ m f e E Hle).
      intros k w Hg. destruct (Hold k w Hg) as (l1 & l2 & Hl & H1 & H2).
      exists l1, l2. split; [exact Hl|]. split; [exact H1|].
      intros g Hin Hb. destruct (jsstring_eq_dec g f) as [->|Hgf];
        [|apply H2; auto].
      assert (w = e) by congruence. subst w. exact Hle.
  - rewrite (createFileMap_step_unseen _ _ _ m f E).
    intros k w Hg.
    destruct (jsstring_eq_dec k (getBaseNameFn f)) as [->|Hne].
    + rewrite map_get_set_eq in Hg. injection Hg as <-.
      exists l, []. split; [reflexivity|]. split; [|intros g []].
      intros g Hin Hb. exfalso. apply (Hk g Hin). rewrite Hb. exact E.
    + rewrite map_get_set_neq in Hg by exact Hne.
      destruct (Hold k w Hg) as (l1 & l2 & Hl & H1 & H2).
      exists l1, l2. split; [exact Hl|]. split; [exact H1|].
      intros g Hin Hb. apply H2; auto. intros ->. congruence.
Qed.

Lemma first_newest_fold files : forall l m,
  built l m -> first_newest l m ->
  first_newest (l ++ files) (fold_left step files m).
Proof.
  induction files as [|f files IH]; intros l m Hb Hfn; cbn [fold_left].
  - rewrite app_nil_r. exact Hfn.
  - replace (l ++ f :: files) with ((l ++ [f]) ++ files)
      by (rewrite <- app_assoc; reflexivity).
    apply IH; [apply built_step, Hb | apply first_newest_step; assumption].
Qed.

Lemma createFileMap_first_newest files :
  first_newest files (createFileMap fs files getBaseNameFn dirPath).
Proof.
  apply (first_newest_fold files [] []).
  - apply built_nil.
  - intros k w H. discriminate H.
Qed.

Lemma createFileMap_fold_distinct files : forall m,
  NoDup (List.map getBaseNameFn files) ->
  (forall f, In f files -> map_get (getBaseNameFn f) m = None) ->
  fold_left step files m
  = m ++ List.map (fun f => (getBaseNameFn f, f)) files.
Proof.
  induction files as [|f files IH]; intros m Hnd Hfresh;
    cbn [fold_left List.map].
  - symmetry. apply app_nil_r.
  - cbn [List.map] in Hnd. apply NoDup_cons_iff in Hnd.
    destruct Hnd as [Hf Hnd].
    rewrite (createFileMap_step_unseen _ _ _ m f
               (Hfresh f (or_introl eq_refl))).
    rewrite (map_set_new _ _ _ (Hfresh f (or_introl eq_refl))).
    rewrite IH; [rewrite <- app_assoc; reflexivity | exact Hnd |].
    intros g Hg.
    assert (Hne : getBaseNameFn g <> getBaseNameFn f).
    { intros E. apply Hf. rewrite <- E. apply in_map. exact Hg. }
    rewrite <- (map_set_new _ f m (Hfresh f (or_introl eq_refl))).
    rewrite map_get_set_neq by exact Hne.
    apply Hfresh. right. exact Hg.
Qed.

End CreateFileMapMore.

(** X9: of the listed files of one logical name, the map keeps the first one
    in listing order that no other is newer than: every file of that name
    listed before the kept one is strictly older, every one listed after it
    is not newer. *)
Theorem createFileMap_first_of_the_newest fs files fn dir k w :
  map_get k (createFileMap fs files fn dir) = Some w ->
  exists l1 l2,
    files = l1 ++ w :: l2
    /\ (forall f, In f l1 -> fn f = k ->
                  file_mtime fs dir f < file_mtime fs dir w)
    /\ (forall f, In f l2 -> fn f = k ->
                  file_mtime fs dir f <= file_mtime fs dir w).
Proof. apply createFileMap_first_newest. Qed.

Lemma createFileMap_first_of_the_newest_witness :
  exists l1 l2,
    [js "a-2.jpg"; js "b.jpg"; js "a-3.jpg"; js "a-1.jpg"]
    = l1 ++ js "a-2.jpg" :: l2
    /\ forall f, In f l2 -> getBaseName f = js "a" ->
         file_mtime gallery (PATHS.UPLOADS cwd0) f
         <= file_mtime gallery (PATHS.UPLOADS cwd0) (js "a-2.jpg").
Proof.
  destruct (createFileMap_first_of_the_newest gallery
              [js "a-2.jpg"; js "b.jpg"; js "a-3.jpg"; js "a-1.jpg"]
              getBaseName (PATHS.UPLOADS cwd0) (js "a") (js "a-2.jpg"))
    as (l1 & l2 & E & _ & H2).
  - vm_compute; reflexivity.
  - exists l1, l2. split; assumption.
Defined.

(** X10: when no two listed files share a logical name, the map holds every
    listed file under its name, in listing order. *)
Theorem createFileMap_without_collisions fs files fn dir :
  NoDup (List.map fn files) ->
  createFileMap fs files fn dir = List.map (fun f => (fn f, f)) files.
Proof.
  intros Hnd. unfold createFileMap.
  rewrite createFileMap_fold_distinct; [reflexivity | exact Hnd |].
  intros f _. reflexivity.
Qed.

Lemma createFileMap_without_collisions_witness :
  createFileMap gallery [js "a.jpg"; js "b.png"; js "c.gif"] getBaseName
    (PATHS.UPLOADS cwd0)
  = [(js "a", js "a.jpg"); (js "b", js "b.png"); (js "c", js "c.gif")].
Proof.
  rewrite (createFileMap_without_collisions gallery
             [js "a.jpg"; js "b.png"; js "c.gif"] getBaseName
             (PATHS.UPLOADS cwd0)).
  - vm_compute; reflexivity.
  - vm_compute. repeat constructor; simpl; intuition discriminate.
Defined.

(** ** More on [trim] *)

Lemma trimStart_clean s :
  match trimStart s with
  | [] => True
  | c :: _ => is_white_space c = false
  end.
Proof.
  induction s as [|c r IH]; cbn [trimStart]; [exact I|].
  destruct (is_white_space c) eqn:E; [exact IH | exact E].
Qed.

Lemma trimStart_fixed s :
  match s with
  | [] => True
  | c :: _ => is_white_space c = false
  end -> trimStart s = s.
Proof.
  destruct s as [|c r]; [reflexivity|]. cbn [trimStart]. intros ->.
  reflexivity.
Qed.

Lemma trimStart_last l c :
  is_white_space c = false -> trimStart (l ++ [c]) = trimStart l ++ [c].
Proof.
  intros Hc. induction l as [|x l IH]; cbn [app trimStart].
  - rewrite Hc. reflexivity.
  - destruct (is_white_space x); [exact IH | reflexivity].
Qed.

Lemma trimEnd_head c r :
  is_white_space c = false ->
  exists r', trimEnd (c :: r) = c :: r'.
Proof.
  intros Hc. unfold trimEnd. cbn [rev].
  rewrite (trimStart_last _ _ Hc), rev_app_distr. cbn [rev app].
  eexists. reflexivity.
Qed.

Lemma trim_trimmed s : trimmed (trim s).
Proof.
  unfold trimmed, trim. split.
  - pose proof (trimStart_clean s) as H.
    destruct (trimStart s) as [|c r]; [exact I|].
    destruct (trimEnd_head c r H) as (r' & ->). exact H.
  - unfold trimEnd. rewrite rev_involutive. apply trimStart_clean.
Qed.

Lemma trimmed_trim s : trimmed s -> trim s = s.
Proof.
  intros [Hs He]. unfold trim, trimEnd.
  rewrite (trimStart_fixed s Hs), (trimStart_fixed (rev s) He).
  apply rev_involutive.
Qed.

Lemma trim_idempotent s : trim (trim s) = trim s.
Proof. apply trimmed_trim, trim_trimmed. Qed.

Lemma readTextFile_cases fs filePath :
  readTextFile fs filePath = []
  \/ exists content, readFileSync fs filePath = Some content
                     /\ readTextFile fs filePath = trim content.
Proof.
  unfold readTextFile. destruct (negb (existsSync fs filePath));
    [left; reflexivity|].
  destruct (readFileSync fs filePath) as [content|];
    [right; exists content; auto | left; reflexivity].
Qed.

(** ** More on [matchFiles] *)

Lemma listed_named cwd fs uploadFiles outputFiles :
  getFilesByExtension fs (PATHS.UPLOADS cwd) IMAGE_EXTENSIONS
    = Some uploadFiles ->
  getFilesByExtension fs (PATHS.OUTPUTS cwd) AUDIO_EXTENSIONS
    = Some outputFiles ->
  (forall f, In f uploadFiles -> f <> [])
  /\ (forall f, In f outputFiles -> f <> []).
Proof.
  intros Hu Ho. split; intros f.
  - apply (getFilesByExtension_nonempty _ _ _ _ _
             IMAGE_EXTENSIONS_nonempty Hu).
  - apply (getFilesByExtension_nonempty _ _ _ _ _
             AUDIO_EXTENSIONS_nonempty Ho).
Qed.

(** X11: every record [matchFiles] returns is made of a listed image and a
    listed audio file that both resolve to the record's name: the image URL
    and the audio URL name files with accepted extensions whose logical names
    are the record's [name]. *)
Theorem matchFiles_records_are_pairs cwd fs uploadFiles outputFiles :
  getFilesByExtension fs (PATHS.UPLOADS cwd) IMAGE_EXTENSIONS
    = Some uploadFiles ->
  getFilesByExtension fs (PATHS.OUTPUTS cwd) AUDIO_EXTENSIONS
    = Some outputFiles ->
  exists recs,
    matchFiles cwd fs = Some recs
    /\ forall r, In r recs ->
         exists i a,
           In i uploadFiles /\ In a outputFiles
           /\ imageUrl r = js "/uploads/" ++ i
           /\ audioUrl r = js "/outputs/" ++ a
           /\ getBaseName i = name r
           /\ audioBaseName a = name r
           /\ In (toLowerCase (path.extname i)) IMAGE_EXTENSIONS
           /\ toLowerCase (path.extname a) = js ".wav".
Proof.
  intros Hu Ho. exists (matchFiles_from cwd fs uploadFiles outputFiles).
  split; [apply matchFiles_listed; assumption|].
  intros r Hr.
  destruct (matchFiles_from_In cwd fs uploadFiles outputFiles r Hr)
    as (k & i & a & Hi & Ha & ->).
  exists i, a.
  destruct (createFileMap_built fs getBaseName (PATHS.UPLOADS cwd) uploadFiles)
    as [Hvi _].
  destruct (createFileMap_built fs audioBaseName (PATHS.OUTPUTS cwd)
              outputFiles) as [Hva _].
  destruct (Hvi k i Hi) as (Hini & Hbi & _).
  destruct (Hva k a Ha) as (Hina & Hba & _).
  repeat split; auto.
  - exact (getFilesByExtension_In _ _ _ _ _ Hu Hini).
  - pose proof (getFilesByExtension_In _ _ _ _ _ Ho Hina) as H.
    destruct H as [H|[]]. symmetry. exact H.
Qed.

Lemma matchFiles_records_are_pairs_witness :
  exists recs,
    matchFiles cwd0 gallery = Some recs
    /\ forall r, In r recs ->
         exists i a,
           imageUrl r = js "/uploads/" ++ i
           /\ audioUrl r = js "/outputs/" ++ a
           /\ getBaseName i = audioBaseName a.
Proof.
  destruct (matchFiles_records_are_pairs cwd0 gallery gallery_uploads
              gallery_outputs) as (recs & Hr & H).
  - vm_compute; reflexivity.
  - vm_compute; reflexivity.
  - exists recs. split; [exact Hr|]. intros r Hin.
    destruct (H r Hin) as (i & a & _ & _ & Hi & Ha & Hbi & Hba & _).
    exists i, a. split; [exact Hi|]. split; [exact Ha|]. congruence.
Defined.

(** X12: a prompt that [matchFiles] attaches to a record is never empty,
    has no white space at either end, and is the trimmed content of the
    prompt file of the record's name. *)
Theorem matchFiles_prompts_are_trimmed cwd fs uploadFiles outputFiles :
  getFilesByExtension fs (PATHS.UPLOADS cwd) IMAGE_EXTENSIONS
    = Some uploadFiles ->
  getFilesByExtension fs (PATHS.OUTPUTS cwd) AUDIO_EXTENSIONS
    = Some outputFiles ->
  exists recs,
    matchFiles cwd fs = Some recs
    /\ forall r s, In r recs -> prompt r = Some s ->
         s <> [] /\ trimmed s /\ trim s = s
         /\ exists content,
              readFileSync fs (textFilePath cwd (name r)) = Some content
              /\ s = trim content.
Proof.
  intros Hu Ho. exists (matchFiles_from cwd fs uploadFiles outputFiles).
  split; [apply matchFiles_listed; assumption|].
  intros r s Hr Hp.
  destruct (matchFiles_from_In cwd fs uploadFiles outputFiles r Hr)
    as (k & i & a & _ & _ & ->).
  unfold record_for in Hp. cbn [prompt name] in *.
  destruct (readTextFile_cases fs (textFilePath cwd k))
    as [E|(content & Hc & E)]; rewrite E in Hp.
  - discriminate Hp.
  - unfold or_undefined in Hp.
    destruct (trim content) as [|c t] eqn:Et; [discriminate Hp|].
    injection Hp as <-. split; [discriminate|]. rewrite <- Et.
    split; [apply trim_trimmed|]. split; [apply trim_idempotent|].
    exists content. auto.
Qed.

Lemma matchFiles_prompts_are_trimmed_witness :
  exists recs,
    matchFiles cwd0 gallery = Some recs
    /\ forall r s, In r recs -> prompt r = Some s -> s <> [] /\ trim s = s.
Proof.
  destruct (matchFiles_prompts_are_trimmed cwd0 gallery gallery_uploads
              gallery_outputs) as (recs & Hr & H).
  - vm_compute; reflexivity.
  - vm_compute; reflexivity.
  - exists recs. split; [exact Hr|]. intros r s Hin Hp.
    destruct (H r s Hin Hp) as (Hne & _ & Ht & _). split; assumption.
Defined.

Lemma getBaseName_stem_nonempty filename :
  path.name (path.parse filename) <> [] -> getBaseName filename <> [].
Proof.
  intros Hne. unfold getBaseName.
  set (stem := path.name (path.parse filename)) in *.
  destruct (lastIndexOf CHAR_DASH stem >? 0) eqn:E; [|exact Hne].
  apply Z.gtb_lt in E. cbv zeta.
  destruct (test_digits _); [|exact Hne].
  destruct (lastIndexOf_found CHAR_DASH stem _ eq_refl ltac:(lia))
    as (p & d & Hs & Hd & Hk).
  rewrite Hk. rewrite Hs at 1. rewrite substring_prefix.
  intros ->. rewrite Hk, jslength_nil in E. lia.
Qed.

Lemma segment_with_ext_named f :
  ~ In CHAR_FORWARD_SLASH f -> path.extname f <> [] ->
  path.name (path.parse f) <> [].
Proof.
  intros Hfree Hext.
  destruct (segment_parse f Hfree)
    as [(_ & _ & He)|(s & e & _ & Hs & _ & Hn & _)]; [congruence|].
  rewrite Hn. exact Hs.
Qed.

(** X13: when the entries of the uploads directory are single path
    segments, every record [matchFiles] returns has a non-empty name without
    separator, so its prompt file is a direct child of the texts directory
    with a non-empty stem. *)
Theorem matchFiles_names_are_proper cwd fs uploadFiles outputFiles :
  getFilesByExtension fs (PATHS.UPLOADS cwd) IMAGE_EXTENSIONS
    = Some uploadFiles ->
  getFilesByExtension fs (PATHS.OUTPUTS cwd) AUDIO_EXTENSIONS
    = Some outputFiles ->
  (forall f, In f uploadFiles -> ~ In CHAR_FORWARD_SLASH f) ->
  exists recs,
    matchFiles cwd fs = Some recs
    /\ forall r, In r recs ->
         name r <> [] /\ ~ In CHAR_FORWARD_SLASH (name r).
Proof.
  intros Hu Ho Hseg. exists (matchFiles_from cwd fs uploadFiles outputFiles).
  split; [apply matchFiles_listed; assumption|].
  intros r Hr.
  destruct (matchFiles_from_In cwd fs uploadFiles outputFiles r Hr)
    as (k & i & a & Hi & _ & ->).
  destruct (createFileMap_built fs getBaseName (PATHS.UPLOADS cwd) uploadFiles)
    as [Hvi _].
  destruct (Hvi k i Hi) as (Hini & Hbi & _).
  cbn [name record_for]. rewrite <- Hbi. split.
  - apply getBaseName_stem_nonempty, segment_with_ext_named.
    + apply Hseg, Hini.
    + intros E.
      pose proof (getFilesByExtension_In _ _ _ _ _ Hu Hini) as H.
      rewrite E in H. exact (IMAGE_EXTENSIONS_nonempty H).
  - apply getBaseName_no_separator.
Qed.

Lemma matchFiles_names_are_proper_witness :
  exists recs,
    matchFiles cwd0 gallery = Some recs
    /\ forall r, In r recs -> name r <> [].
Proof.
  destruct (matchFiles_names_are_proper cwd0 gallery gallery_uploads
              gallery_outputs) as (recs & Hr & H).
  - vm_compute; reflexivity.
  - vm_compute; reflexivity.
  - intros f [<-|[<-|[<-|[<-|[<-|[]]]]]]; absent_char.
  - exists recs. split; [exact Hr|]. intros r Hin. apply (H r Hin).
Defined.

(** X14: when the scanner finds no image, or no audio file, [matchFiles]
    returns the empty list; in particular when the uploads or the outputs
    directory does not exist (and the other one can be listed). *)
Theorem matchFiles_empty_side cwd fs uploadFiles outputFiles :
  getFilesByExtension fs (PATHS.UPLOADS cwd) IMAGE_EXTENSIONS
    = Some uploadFiles ->
  getFilesByExtension fs (PATHS.OUTPUTS cwd) AUDIO_EXTENSIONS
    = Some outputFiles ->
  uploadFiles = [] \/ outputFiles = [] ->
  matchFiles cwd fs = Some [].
Proof.
  intros Hu Ho Hempty. rewrite (matchFiles_listed _ _ _ _ Hu Ho). f_equal.
  destruct (listed_named _ _ _ _ Hu Ho) as [Hun Hon].
  destruct (matchFiles_from_names cwd fs uploadFiles outputFiles Hun Hon)
    as [_ Hin].
  destruct (matchFiles_from cwd fs uploadFiles outputFiles) as [|r recs];
    [reflexivity|].
  exfalso. destruct (proj1 (Hin (name r)) (or_introl eq_refl)) as [Hi Ha].
  destruct Hempty as [->| ->].
  - change (imageMapOf cwd fs []) with (@nil (jsstring * jsstring)) in Hi.
    discriminate Hi.
  - change (audioMapOf cwd fs []) with (@nil (jsstring * jsstring)) in Ha.
    discriminate Ha.
Qed.

Lemma matchFiles_empty_side_witness :
  matchFiles cwd0 two_sunsets = Some [].
Proof.
  apply (matchFiles_empty_side cwd0 two_sunsets
           [js "sunset-1.jpg"; js "sunset-2.jpg"] []).
  - vm_compute; reflexivity.
  - vm_compute; reflexivity.
  - right. reflexivity.
Defined.

(** X15: [GET /api/files] answers with status 500 exactly when the uploads
    path or the outputs path exists and is not a directory; in every other
    snapshot, also when a directory is missing, it answers 200 with the
    records of [matchFiles]. *)
Theorem api_files_fails_on_non_directory cwd fs :
  (api_files cwd fs = Files500
   <-> (exists t c, fs (PATHS.UPLOADS cwd) = Some (File t c))
       \/ (exists t c, fs (PATHS.OUTPUTS cwd) = Some (File t c)))
  /\ (forall files, api_files cwd fs = Files200 files
                    <-> matchFiles cwd fs = Some files).
Proof.
  unfold api_files. split.
  - rewrite <- (getFilesByExtension_throws fs (PATHS.UPLOADS cwd)
                  IMAGE_EXTENSIONS).
    rewrite <- (getFilesByExtension_throws fs (PATHS.OUTPUTS cwd)
                  AUDIO_EXTENSIONS).
    unfold matchFiles.
    destruct (getFilesByExtension fs (PATHS.UPLOADS cwd) IMAGE_EXTENSIONS);
      [|split; auto].
    destruct (getFilesByExtension fs (PATHS.OUTPUTS cwd) AUDIO_EXTENSIONS);
      [|split; auto].
    split; [discriminate | intros [H|H]; discriminate H].
  - intros files. destruct (matchFiles cwd fs); split; intros H;
      try discriminate H; injection H as ->; reflexivity.
Qed.

Lemma api_files_fails_on_non_directory_witness :
  api_files cwd0 uploads_is_a_file = Files500.
Proof.
  apply (proj1 (api_files_fails_on_non_directory cwd0 uploads_is_a_file)).
  left. exists 1, (Some (js "x")). vm_compute; reflexivity.
Defined.

(** ** From a successful generation to the listing *)

(** Two paths built from [cwd] that differ right after it. *)
Ltac path_neq :=
  let H := fresh in
  repeat match goal with x := _ : jsstring |- _ => subst x end;
  unfold textFilePath, PATHS.UPLOADS, PATHS.OUTPUTS, PATHS.TEXTS, path.join;
  rewrite <- ?app_assoc; intros H; apply app_inv_head in H;
  vm_compute in H; discriminate H.

Section Generated.
Variable cwd : jsstring.
Variable fs : FS.
Variables originalname image musicPrompt audio : jsstring.
Variable now : Z.
Variables (tu tout : Z) (eu eo : list jsstring).

Hypothesis uploads_dir : fs (PATHS.UPLOADS cwd) = Some (Dir tu eu).
Hypothesis outputs_dir : fs (PATHS.OUTPUTS cwd) = Some (Dir tout eo).

Local Abbreviation U := (PATHS.UPLOADS cwd).
Local Abbreviation O := (PATHS.OUTPUTS cwd).
Local Abbreviation T := (PATHS.TEXTS cwd).
Local Abbreviation F := (storage_filename originalname).
Local Abbreviation W := (generate_outputFilename originalname).
Local Abbreviation X := (generate_textFilename originalname).
Local Abbreviation fs1 := (writeFileSync fs U F now image).
Local Abbreviation fs2 := (writeFileSync fs1 O W now audio).
Local Abbreviation fs3 := (writeFileSync fs2 T X now musicPrompt).

Lemma generate_success_fs :
  fst (generate_success cwd fs originalname image musicPrompt audio now)
  = fs3.
Proof. reflexivity. Qed.

Lemma generated_uploads_listing :
  exists es, readdirSync fs3 U = Some es
             /\ In F es /\ forall f, In f es -> In f eu \/ f = F.
Proof.
  assert (E3 : fs3 U = fs2 U) by (apply writeFileSync_other; path_neq).
  assert (E2 : fs2 U = fs1 U) by (apply writeFileSync_other; path_neq).
  unfold readdirSync. rewrite E3, E2.
  pose proof (writeFileSync_dir fs U F now image tu eu uploads_dir) as Hd.
  unfold readdirSync in Hd.
  destruct (existsb (jsstring_eqb F) eu) eqn:E.
  - exists eu. split; [exact Hd|]. split; [|auto].
    apply existsb_eqb_In. exact E.
  - exists (eu ++ [F]). split; [exact Hd|]. split.
    + apply in_or_app. right. left. reflexivity.
    + intros f Hin. apply in_app_or in Hin.
      destruct Hin as [Hin|[<-|[]]]; auto.
Qed.

Lemma generated_outputs_listing :
  exists es, readdirSync fs3 O = Some es
             /\ In W es /\ forall f, In f es -> In f eo \/ f = W.
Proof.
  assert (E3 : fs3 O = fs2 O) by (apply writeFileSync_other; path_neq).
  assert (E1 : fs1 O = Some (Dir tout eo)).
  { rewrite <- outputs_dir. apply writeFileSync_other; path_neq. }
  unfold readdirSync. rewrite E3.
  pose proof (writeFileSync_dir fs1 O W now audio tout eo E1) as Hd.
  unfold readdirSync in Hd.
  destruct (existsb (jsstring_eqb W) eo) eqn:E.
  - exists eo. split; [exact Hd|]. split; [|auto].
    apply existsb_eqb_In. exact E.
  - exists (eo ++ [W]). split; [exact Hd|]. split.
    + apply in_or_app. right. left. reflexivity.
    + intros f Hin. apply in_app_or in Hin.
      destruct Hin as [Hin|[<-|[]]]; auto.
Qed.

Lemma generated_prompt_read :
  readTextFile fs3 (textFilePath cwd (generate_imageBaseName originalname))
  = trim musicPrompt.
Proof.
  change (textFilePath cwd (generate_imageBaseName originalname))
    with (path.join T X).
  unfold readTextFile, existsSync, readFileSync.
  rewrite writeFileSync_file. reflexivity.
Qed.

End Generated.

Lemma accepted_ext_nonempty f :
  includes IMAGE_EXTENSIONS (toLowerCase (path.extname f)) = true ->
  path.extname f <> [].
Proof.
  intros H E. rewrite E in H. apply includes_In in H.
  exact (IMAGE_EXTENSIONS_nonempty H).
Qed.

(** Once the upload, the audio and the prompt of an accepted upload have
    been written, the listing holds its record. *)
Lemma three_writes_listed cwd fs originalname image musicPrompt audio
  now tu eu tout eo tt et :
  ~ In CHAR_FORWARD_SLASH originalname ->
  includes IMAGE_EXTENSIONS (toLowerCase (path.extname originalname)) = true ->
  getBaseName originalname = generate_imageBaseName originalname ->
  fs (PATHS.UPLOADS cwd) = Some (Dir tu eu) ->
  fs (PATHS.OUTPUTS cwd) = Some (Dir tout eo) ->
  fs (PATHS.TEXTS cwd) = Some (Dir tt et) ->
  (forall f, In f eu ->
             getBaseName f = generate_imageBaseName originalname ->
             f = originalname) ->
  (forall f, In f eo ->
             audioBaseName f = generate_imageBaseName originalname ->
             f = generate_outputFilename originalname) ->
  exists recs,
    matchFiles cwd
      (fst (generate_success cwd fs originalname image musicPrompt audio now))
      = Some recs
    /\ In (generated_record originalname musicPrompt) recs.
Proof.
  intros Hfree Hacc Hbase Hu Ho _ Hfu Hfo.
  rewrite generate_success_fs.
  destruct (generated_uploads_listing cwd fs originalname image musicPrompt
              audio now tu eu Hu) as (esu & Hlu & Hinu & Hsubu).
  destruct (generated_outputs_listing cwd fs originalname image musicPrompt
              audio now tout eo Ho) as (eso & Hlo & Hino & Hsubo).
  pose proof (generated_prompt_read cwd fs originalname image musicPrompt
                audio now) as Hprompt.
  rewrite (storage_filename_segment _ Hfree) in *.
  set (fs3 := writeFileSync _ (PATHS.TEXTS cwd) _ now musicPrompt) in *.
  set (S := generate_imageBaseName originalname) in *.
  set (W := generate_outputFilename originalname) in *.
  pose proof (getFilesByExtension_listed fs3 _ IMAGE_EXTENSIONS _ Hlu) as Gu.
  pose proof (getFilesByExtension_listed fs3 _ AUDIO_EXTENSIONS _ Hlo) as Go.
  set (upl := filter _ esu) in Gu. set (outl := filter _ eso) in Go.
  exists (matchFiles_from cwd fs3 upl outl).
  split; [apply matchFiles_listed; assumption|].
  destruct (listed_named _ _ _ _ Gu Go) as [Hun Hon].
  assert (HS : S <> []).
  { apply segment_with_ext_named; [exact Hfree|].
    apply accepted_ext_nonempty, Hacc. }
  destruct (output_name_parse S HS (parse_name_no_separator originalname))
    as (HWn & HWe).
  (* the image map *)
  assert (Hi : map_get S (imageMapOf cwd fs3 upl) = Some originalname).
  { destruct (createFileMap_built fs3 getBaseName (PATHS.UPLOADS cwd) upl)
      as [Hv Hk].
    assert (Hin : In originalname upl).
    { apply filter_In. split; [exact Hinu | exact Hacc]. }
    specialize (Hk originalname Hin). rewrite Hbase in Hk.
    unfold imageMapOf.
    destruct (map_get S (createFileMap fs3 upl getBaseName
                           (PATHS.UPLOADS cwd))) as [w|] eqn:E;
      [|congruence].
    destruct (Hv _ _ E) as (Hw & Hbw & _). f_equal.
    apply filter_In in Hw. destruct Hw as [Hw _].
    destruct (Hsubu w Hw) as [Hold|Hnew]; [apply Hfu; assumption|exact Hnew]. }
  (* the audio map *)
  assert (Ha : map_get S (audioMapOf cwd fs3 outl) = Some W).
  { destruct (createFileMap_built fs3 audioBaseName (PATHS.OUTPUTS cwd) outl)
      as [Hv Hk].
    assert (HbW : audioBaseName W = S) by exact HWn.
    assert (HeW : path.extname W = js ".wav") by exact HWe.
    assert (Hin : In W outl).
    { apply filter_In. split; [exact Hino|]. rewrite HeW. reflexivity. }
    specialize (Hk W Hin). rewrite HbW in Hk. unfold audioMapOf.
    destruct (map_get S (createFileMap fs3 outl audioBaseName
                           (PATHS.OUTPUTS cwd))) as [w|] eqn:E;
      [|congruence].
    destruct (Hv _ _ E) as (Hw & Hbw & _). f_equal.
    apply filter_In in Hw. destruct Hw as [Hw _].
    destruct (Hsubo w Hw) as [Hold|Hnew]; [apply Hfo; assumption|exact Hnew]. }
  pose proof (matchFiles_from_record cwd fs3 upl outl Hun Hon S originalname W
                Hi Ha) as Hrec.
  unfold record_for in Hrec. rewrite Hprompt in Hrec. exact Hrec.
Qed.

(** ** Authentication set-up *)

(** X17: when [setupAuthentication] returns, the credentials variable holds
    a non-empty path, and it throws only if the variable was unset or empty
    and the key file does not exist; once it has returned, running it again
    returns the same value whatever the file system holds. *)
Theorem setupAuthentication_sets_credentials cwd fs credentials :
  (forall c, setupAuthentication cwd fs credentials = Ok c ->
             truthy c = true
             /\ forall fs', setupAuthentication cwd fs' c = Ok c)
  /\ (forall m, setupAuthentication cwd fs credentials = Throw m ->
                truthy credentials = false
                /\ existsSync fs (SERVICE_ACCOUNT_KEY cwd) = false).
Proof.
  unfold setupAuthentication. split.
  - intros c H.
    assert (Ht : truthy c = true).
    { destruct (truthy credentials) eqn:E; cbn [negb] in H.
      - injection H as <-. exact E.
      - destruct (negb (existsSync fs (SERVICE_ACCOUNT_KEY cwd)));
          [discriminate H|].
        injection H as <-. unfold SERVICE_ACCOUNT_KEY, path.join, truthy.
        destruct cwd; reflexivity. }
    split; [exact Ht|]. intros fs'. rewrite Ht. reflexivity.
  - intros m H. destruct (truthy credentials); cbn [negb] in H;
      [discriminate H|].
    destruct (existsSync fs (SERVICE_ACCOUNT_KEY cwd)); cbn [negb] in H;
      [discriminate H|]. split; reflexivity.
Qed.

Lemma setupAuthentication_sets_credentials_witness :
  truthy (Some (js "/srv/service-account-key.json")) = true
  /\ setupAuthentication cwd0 (empty_dirs cwd0)
       (Some (js "/srv/service-account-key.json"))
     = Ok (Some (js "/srv/service-account-key.json")).
Proof.
  destruct (setupAuthentication_sets_credentials cwd0
              (snapshot cwd0 [] []
                 [(js "/srv/service-account-key.json", File 1 None)])
              (Some [])) as (H & _).
  destruct (H (Some (js "/srv/service-account-key.json"))) as (Ht & Hagain).
  - vm_compute; reflexivity.
  - split; [exact Ht | apply Hagain].
Defined.

(** ** The answer of the analysis service *)

Lemma musicPrompt_trimmed answer p :
  Gemini.musicPromptOf answer = Ok p <->
  exists c others part parts t,
    answer = Some {| Gemini.response :=
                Some {| Gemini.candidates := Some (Some c :: others) |} |}
    /\ Gemini.content c
       = Some {| Gemini.parts := Some (part :: parts) |}
    /\ Gemini.text part = Some t
    /\ p = trim t /\ p <> [].
Proof.
  split.
  - unfold Gemini.musicPromptOf. intros H.
    destruct answer as [[[[cands]|]]|]; try discriminate H.
    cbn [Gemini.candidates] in H.
    destruct cands as [[|cand others]|]; try discriminate H.
    destruct cand as [[[[ps]|]]|]; try discriminate H.
    cbn [Gemini.parts] in H.
    destruct ps as [[|part parts]|]; try discriminate H.
    destruct part as [[t|]]; cbn [Gemini.text option_map] in H;
      try discriminate H.
    destruct (trim t) as [|x r] eqn:Et; [discriminate H|].
    injection H as <-.
    exists {| Gemini.content :=
                Some {| Gemini.parts :=
                          Some ({| Gemini.text := Some t |} :: parts) |} |},
      others, {| Gemini.text := Some t |}, parts, t.
    split; [reflexivity|]. split; [reflexivity|]. split; [reflexivity|].
    split; [symmetry; exact Et | discriminate].
  - intros (c & others & part & parts & t & -> & Hc & Ht & -> & Hne).
    unfold Gemini.musicPromptOf. cbn [Gemini.candidates].
    destruct c as [cc]. cbn [Gemini.content] in Hc. subst cc.
    cbn [Gemini.parts]. rewrite Ht. cbn [option_map].
    destruct (trim t); [congruence | reflexivity].
Qed.

(** X18: [generateMusicPromptFromImage] returns a prompt exactly when the
    first part of the first candidate of the answer has a text that is not
    blank; the prompt is that text trimmed, so it is never empty, has no white
    space at either end, and trimming it again, as [readTextFile] does with
    what it reads, leaves it unchanged. *)
Theorem musicPrompt_is_trimmed_text answer p :
  Gemini.musicPromptOf answer = Ok p <->
  exists c others part parts t,
    answer = Some {| Gemini.response :=
                Some {| Gemini.candidates := Some (Some c :: others) |} |}
    /\ Gemini.content c
       = Some {| Gemini.parts := Some (part :: parts) |}
    /\ Gemini.text part = Some t
    /\ p = trim t /\ p <> [] /\ trimmed p /\ trim p = p.
Proof.
  rewrite musicPrompt_trimmed. split.
  - intros (c & others & part & parts & t & Ha & Hc & Ht & Hp & Hne).
    exists c, others, part, parts, t. repeat (split; [assumption|]).
    subst p. split; [apply trim_trimmed | apply trim_idempotent].
  - intros (c & others & part & parts & t & Ha & Hc & Ht & Hp & Hne & _).
    exists c, others, part, parts, t. auto.
Qed.

Lemma musicPrompt_is_trimmed_text_witness :
  Gemini.musicPromptOf
    (Some {| Gemini.response :=
        Some {| Gemini.candidates :=
          Some [Some {| Gemini.content :=
            Some {| Gemini.parts :=
              Some [{| Gemini.text := Some (js " Mood: calm ") |}] |} |}]
        |} |})
  = Ok (js "Mood: calm").
Proof.
  apply musicPrompt_is_trimmed_text.
  eexists _, _, _, _, (js " Mood: calm ").
  split; [reflexivity|]. split; [reflexivity|]. split; [reflexivity|].
  split; [vm_compute; reflexivity|]. split; [discriminate|].
  split; [split; vm_compute; reflexivity|].
  vm_compute; reflexivity.
Defined.

(** ** The handler of [POST /api/generate] *)

Lemma writeFileSync_checked_some fs d f now content fs' :
  writeFileSync_checked fs d f now content = Some fs' ->
  fs' = writeFileSync fs d f now content
  /\ (exists t es, fs d = Some (Dir t es))
  /\ (forall t es, fs (path.join d f) <> Some (Dir t es)).
Proof.
  unfold writeFileSync_checked.
  destruct (fs d) as [[t c|t es]|]; try discriminate.
  destruct (fs (path.join d f)) as [[t' c'|t' es']|]; try discriminate;
    intros H; injection H as <-;
    (split; [reflexivity|]); (split; [exists t, es; reflexivity|]);
    intros t0 es0; discriminate.
Qed.

Lemma writeFileSync_checked_ok fs d f now content t es :
  fs d = Some (Dir t es) ->
  (forall t' es', fs (path.join d f) <> Some (Dir t' es')) ->
  writeFileSync_checked fs d f now content
  = Some (writeFileSync fs d f now content).
Proof.
  intros Hd Hf. unfold writeFileSync_checked. rewrite Hd.
  destruct (fs (path.join d f)) as [[t' c'|t' es']|]; try reflexivity.
  exfalso. exact (Hf t' es' eq_refl).
Qed.

Lemma saveTextFile_cases fs d f now content :
  saveTextFile fs d f now content = writeFileSync fs d f now content
  \/ saveTextFile fs d f now content = fs.
Proof.
  unfold saveTextFile.
  destruct (writeFileSync_checked fs d f now content) as [fs'|] eqn:E;
    [left | right; reflexivity].
  apply writeFileSync_checked_some in E. apply E.
Qed.

(** X19: the handler answers 400 exactly when the request carries no file,
    and whenever its answer is not 200 it has written nothing: the file
    system is as the upload middleware left it. *)
Theorem api_generate_failure_writes_nothing cwd fs file analysis synthesis
  decode now :
  (snd (api_generate cwd fs file analysis synthesis decode now) = Generate400
   <-> file = None)
  /\ ((forall body,
         snd (api_generate cwd fs file analysis synthesis decode now)
         <> Generate200 body) ->
      fst (api_generate cwd fs file analysis synthesis decode now) = fs).
Proof.
  unfold api_generate. destruct file as [file|]; cbv zeta.
  - destruct (generateMusicPromptFromImage fs (path_ file) analysis)
      as [p|m]; cbn [fst snd].
    + destruct (generateMusicWithLyria fs synthesis decode (PATHS.OUTPUTS cwd)
                  (generate_outputFilename (originalname file)) now)
        as [fs'|m]; cbn [fst snd].
      * split; [split; discriminate|]. intros H. exfalso.
        eapply H. reflexivity.
      * split; [split; discriminate | reflexivity].
    + split; [split; discriminate | reflexivity].
  - cbn [fst snd]. split; [split; reflexivity | reflexivity].
Qed.

Lemma api_generate_failure_writes_nothing_witness :
  fst (api_generate cwd0 gallery (Some (multer_file cwd0 (js "a.jpg")))
         (Throw None) (Throw None) (fun s => s) 5) = gallery.
Proof.
  apply (api_generate_failure_writes_nothing cwd0 gallery
           (Some (multer_file cwd0 (js "a.jpg"))) (Throw None) (Throw None)
           (fun s => s) 5).
  intros body. vm_compute. discriminate.
Defined.

(** X20: when the handler answers 200, the image could be read, the
    analysis gave a prompt and the synthesis an audio text; the answer names
    the audio after the stem of the upload, its prompt is the trimmed,
    non-empty text of the analysis, and the file system holds the decoded
    audio at that name in the outputs directory, whether or not the prompt
    could be saved. *)
Theorem api_generate_success cwd fs file analysis synthesis decode now body :
  snd (api_generate cwd fs file analysis synthesis decode now)
    = Generate200 body ->
  exists f answer response b64,
    file = Some f
    /\ analysis = Ok answer /\ synthesis = Ok response
    /\ existsSync fs (path_ f) = true
    /\ Gemini.musicPromptOf answer = Ok (res_prompt body)
    /\ res_prompt body <> [] /\ trimmed (res_prompt body)
    /\ Lyria.audioContentOf response = Ok b64 /\ b64 <> []
    /\ res_filename body = generate_outputFilename (originalname f)
    /\ res_audioUrl body = js "/outputs/" ++ res_filename body
    /\ res_imageUrl body = js "/uploads/" ++ filename f
    /\ fst (api_generate cwd fs file analysis synthesis decode now)
         (path.join (PATHS.OUTPUTS cwd) (res_filename body))
       = Some (File now (Some (decode b64))).
Proof.
  unfold api_generate. destruct file as [f|]; [|discriminate]. cbv zeta.
  destruct (generateMusicPromptFromImage fs (path_ f) analysis) as [p|m]
    eqn:Ep; [|discriminate].
  destruct (generateMusicWithLyria fs synthesis decode (PATHS.OUTPUTS cwd)
              (generate_outputFilename (originalname f)) now) as [fs'|m]
    eqn:El; [|discriminate].
  cbn [fst snd]. intros H. injection H as <-.
  cbn [res_prompt res_filename res_audioUrl res_imageUrl].
  unfold generateMusicPromptFromImage in Ep.
  destruct (existsSync fs (path_ f)) eqn:Ex; cbn [negb] in Ep;
    [|discriminate Ep].
  destruct (readFileSync fs (path_ f)); [|discriminate Ep].
  destruct analysis as [answer|]; [|discriminate Ep].
  unfold generateMusicWithLyria in El.
  destruct synthesis as [response|]; [|discriminate El].
  destruct (Lyria.audioContentOf response) as [b64|] eqn:Eb;
    [|discriminate El].
  destruct (writeFileSync_checked fs (PATHS.OUTPUTS cwd)
              (generate_outputFilename (originalname f)) now (decode b64))
    as [fs2|] eqn:Ew; [|discriminate El].
  injection El as <-.
  apply writeFileSync_checked_some in Ew. destruct Ew as (-> & _ & _).
  exists f, answer, response, b64.
  assert (Hne : p <> [] /\ trimmed p).
  { destruct (proj1 (musicPrompt_trimmed answer p) Ep)
      as (c & others & part & parts & t & _ & _ & _ & -> & Hne).
    split; [exact Hne | apply trim_trimmed]. }
  destruct Hne as [Hne Htr].
  assert (Hb : b64 <> []).
  { unfold Lyria.audioContentOf in Eb.
    destruct (negb (Lyria.ok response)); [discriminate Eb|].
    destruct (Lyria.predictions response) as [[[|pr ?]|]|];
      try discriminate Eb.
    destruct (Lyria.or_else _ _) as [[|c r]|]; try discriminate Eb.
    injection Eb as <-. discriminate. }
  repeat (split; [reflexivity || assumption|]).
  set (W := generate_outputFilename (originalname f)).
  set (X := generate_textFilename (originalname f)).
  destruct (saveTextFile_cases
              (writeFileSync fs (PATHS.OUTPUTS cwd) W now (decode b64))
              (PATHS.TEXTS cwd) X now p) as [-> | ->].
  - rewrite writeFileSync_other; [apply writeFileSync_file | |]; path_neq.
  - apply writeFileSync_file.
Qed.

Lemma api_generate_success_witness :
  exists b64,
    fst (api_generate cwd0
           (writeFileSync (empty_dirs cwd0) (PATHS.UPLOADS cwd0)
              (js "sea.png") 3 (js "<png>"))
           (Some (multer_file cwd0 (js "sea.png")))
           (Ok (gemini_ok (js " slow waves ")))
           (Ok (lyria_ok (js "UklGRg==")))
           (fun s => s) 4)
      (path.join (PATHS.OUTPUTS cwd0) (js "sea.wav"))
    = Some (File 4 (Some b64)).
Proof.
  destruct (api_generate_success cwd0
              (writeFileSync (empty_dirs cwd0) (PATHS.UPLOADS cwd0)
                 (js "sea.png") 3 (js "<png>"))
              (Some (multer_file cwd0 (js "sea.png")))
              (Ok (gemini_ok (js " slow waves ")))
              (Ok (lyria_ok (js "UklGRg==")))
              (fun s => s) 4
              {| res_imageUrl := js "/uploads/sea.png";
                 res_prompt := js "slow waves";
                 res_audioUrl := js "/outputs/sea.wav";
                 res_filename := js "sea.wav" |})
    as (f & answer & response & b64 & _ & _ & _ & _ & _ & _ & _ & _ & _ & _
        & _ & _ & H).
  - vm_compute; reflexivity.
  - exists b64. exact H.
Defined.

(** X21: for an upload the middleware has stored, an analysis that gives the
    prompt [p] and a synthesis that gives the audio text [b64], the handler
    answers 200; when the outputs and texts directories exist (and neither
    target is a directory) it leaves the file system with the upload, the
    audio and the prompt written one after the other, and its answer names
    these files.  When the texts directory is missing, the answer is the same
    and only the prompt is not written. *)
Theorem api_generate_writes_audio_then_prompt cwd fs uploaded image
  answer response decode now p b64 tout eo :
  Gemini.musicPromptOf answer = Ok p ->
  Lyria.audioContentOf response = Ok b64 ->
  fs (PATHS.OUTPUTS cwd) = Some (Dir tout eo) ->
  (forall t es, fs (path.join (PATHS.OUTPUTS cwd)
                      (generate_outputFilename uploaded))
                <> Some (Dir t es)) ->
  let stored :=
    writeFileSync fs (PATHS.UPLOADS cwd) (storage_filename uploaded)
      now image in
  let result :=
    api_generate cwd stored (Some (multer_file cwd uploaded))
      (Ok answer) (Ok response) decode now in
  snd result
    = Generate200 (snd (generate_success cwd fs uploaded image p
                          (decode b64) now))
  /\ ((exists tt et, fs (PATHS.TEXTS cwd) = Some (Dir tt et)) ->
      (forall t es, fs (path.join (PATHS.TEXTS cwd)
                          (generate_textFilename uploaded))
                    <> Some (Dir t es)) ->
      fst result
        = fst (generate_success cwd fs uploaded image p (decode b64) now))
  /\ (fs (PATHS.TEXTS cwd) = None ->
      fst result
        = writeFileSync stored (PATHS.OUTPUTS cwd)
            (generate_outputFilename uploaded) now (decode b64)).
Proof.
  intros Hp Hb Ho Hw stored result.
  set (U := PATHS.UPLOADS cwd) in *. set (O := PATHS.OUTPUTS cwd) in *.
  set (T := PATHS.TEXTS cwd) in *.
  set (F := storage_filename uploaded) in *.
  set (W := generate_outputFilename uploaded) in *.
  set (X := generate_textFilename uploaded) in *.
  assert (Hprompt : generateMusicPromptFromImage stored (path.join U F)
                      (Ok answer) = Ok p).
  { unfold generateMusicPromptFromImage, existsSync, readFileSync, stored.
    rewrite writeFileSync_file. exact Hp. }
  assert (HsO : stored O = Some (Dir tout eo)).
  { rewrite <- Ho. apply writeFileSync_other; path_neq. }
  assert (HsW : stored (path.join O W) = fs (path.join O W)).
  { apply writeFileSync_other; path_neq. }
  assert (Hlyria : generateMusicWithLyria stored (Ok response) decode O W now
                   = Ok (writeFileSync stored O W now (decode b64))).
  { unfold generateMusicWithLyria. rewrite Hb.
    rewrite (writeFileSync_checked_ok stored O W now (decode b64) tout eo HsO);
      [reflexivity|].
    intros t es. rewrite HsW. apply Hw. }
  assert (Hres : result
    = (saveTextFile (writeFileSync stored O W now (decode b64)) T X now p,
       Generate200 (snd (generate_success cwd fs uploaded image p
                           (decode b64) now)))).
  { unfold result, api_generate. cbv zeta.
    cbn [path_ multer_file originalname filename].
    fold U F W X. rewrite Hprompt. fold O. rewrite Hlyria. reflexivity. }
  rewrite Hres. cbn [fst snd]. split; [reflexivity|].
  set (fs2 := writeFileSync stored O W now (decode b64)).
  assert (H2T : fs2 T = fs T).
  { unfold fs2. rewrite writeFileSync_other by path_neq.
    apply writeFileSync_other; path_neq. }
  assert (H2X : fs2 (path.join T X) = fs (path.join T X)).
  { unfold fs2. rewrite writeFileSync_other by path_neq.
    apply writeFileSync_other; path_neq. }
  split.
  - intros (tt & et & Ht) Hx. unfold saveTextFile.
    rewrite (writeFileSync_checked_ok fs2 T X now p tt et);
      [reflexivity | rewrite H2T; exact Ht |].
    intros t es. rewrite H2X. apply Hx.
  - intros Ht. unfold saveTextFile, writeFileSync_checked.
    rewrite H2T, Ht. reflexivity.
Qed.

Lemma api_generate_writes_audio_then_prompt_witness :
  snd (api_generate cwd0
         (writeFileSync (empty_dirs cwd0) (PATHS.UPLOADS cwd0)
            (storage_filename (js "sea.png")) 3 (js "<png>"))
         (Some (multer_file cwd0 (js "sea.png")))
         (Ok (gemini_ok (js " slow waves ")))
         (Ok (lyria_ok (js "UklGRg==")))
         (fun s => s) 3)
  = Generate200 {| res_imageUrl := js "/uploads/sea.png";
                   res_prompt := js "slow waves";
                   res_audioUrl := js "/outputs/sea.wav";
                   res_filename := js "sea.wav" |}.
Proof.
  destruct (api_generate_writes_audio_then_prompt cwd0 (empty_dirs cwd0)
              (js "sea.png") (js "<png>") (gemini_ok (js " slow waves "))
              (lyria_ok (js "UklGRg==")) (fun s => s) 3 (js "slow waves")
              (js "UklGRg==") 0 []) as (H & _).
  - vm_compute; reflexivity.
  - vm_compute; reflexivity.
  - vm_compute; reflexivity.
  - intros t es. vm_compute. discriminate.
  - exact H.
Defined.

(** ** From the handler to the listing *)

Lemma api_generate_run cwd fs uploaded image answer response decode now p b64
  tout eo tt et :
  Gemini.musicPromptOf answer = Ok p ->
  Lyria.audioContentOf response = Ok b64 ->
  fs (PATHS.OUTPUTS cwd) = Some (Dir tout eo) ->
  (forall t es, fs (path.join (PATHS.OUTPUTS cwd)
                      (generate_outputFilename uploaded))
                <> Some (Dir t es)) ->
  fs (PATHS.TEXTS cwd) = Some (Dir tt et) ->
  (forall t es, fs (path.join (PATHS.TEXTS cwd)
                      (generate_textFilename uploaded))
                <> Some (Dir t es)) ->
  api_generate cwd
    (writeFileSync fs (PATHS.UPLOADS cwd) (storage_filename uploaded)
       now image)
    (Some (multer_file cwd uploaded)) (Ok answer) (Ok response) decode now
  = (fst (generate_success cwd fs uploaded image p (decode b64) now),
     Generate200 (snd (generate_success cwd fs uploaded image p
                         (decode b64) now))).
Proof.
  intros Hp Hb Ho Hw Ht Hx.
  set (stored := writeFileSync fs (PATHS.UPLOADS cwd) _ now image).
  set (U := PATHS.UPLOADS cwd) in *. set (O := PATHS.OUTPUTS cwd) in *.
  set (T := PATHS.TEXTS cwd) in *.
  set (F := storage_filename uploaded) in *.
  set (W := generate_outputFilename uploaded) in *.
  set (X := generate_textFilename uploaded) in *.
  assert (Hprompt : generateMusicPromptFromImage stored (path.join U F)
                      (Ok answer) = Ok p).
  { unfold generateMusicPromptFromImage, existsSync, readFileSync, stored.
    rewrite writeFileSync_file. exact Hp. }
  assert (HsO : stored O = Some (Dir tout eo)).
  { rewrite <- Ho. apply writeFileSync_other; path_neq. }
  assert (HsW : stored (path.join O W) = fs (path.join O W)).
  { apply writeFileSync_other; path_neq. }
  assert (Hlyria : generateMusicWithLyria stored (Ok response) decode O W now
                   = Ok (writeFileSync stored O W now (decode b64))).
  { unfold generateMusicWithLyria. rewrite Hb.
    rewrite (writeFileSync_checked_ok stored O W now (decode b64) tout eo HsO);
      [reflexivity|].
    intros t es. rewrite HsW. apply Hw. }
  set (fs2 := writeFileSync stored O W now (decode b64)) in *.
  assert (H2T : fs2 T = fs T).
  { unfold fs2. rewrite writeFileSync_other by path_neq.
    apply writeFileSync_other; path_neq. }
  assert (H2X : fs2 (path.join T X) = fs (path.join T X)).
  { unfold fs2. rewrite writeFileSync_other by path_neq.
    apply writeFileSync_other; path_neq. }
  assert (Hsave : saveTextFile fs2 T X now p = writeFileSync fs2 T X now p).
  { unfold saveTextFile.
    rewrite (writeFileSync_checked_ok fs2 T X now p tt et);
      [reflexivity | rewrite H2T; exact Ht |].
    intros t es. rewrite H2X. apply Hx. }
  unfold api_generate. cbv zeta.
  cbn [path_ multer_file originalname filename].
  fold U F W X. rewrite Hprompt. fold O. rewrite Hlyria. fold T.
  fold fs2. rewrite Hsave. reflexivity.
Qed.

(** X16: a successful generation is listed.  For an accepted upload with a
    name without separator or NUL whose stem has no dash-digits suffix to
    strip, stored into existing directories in which no directory stands in
    the way of a write and no other file has that logical name, an analysis
    that gives a well-formed prompt and a synthesis that gives an audio text
    make the handler answer 200, and [matchFiles] afterwards returns the
    record the answer describes: its image URL, its audio URL, the stem as
    name, and its prompt. *)
Theorem generated_item_is_listed cwd fs originalname image answer response
  decode now p b64 tu eu tout eo tt et :
  plain_name originalname ->
  includes IMAGE_EXTENSIONS (toLowerCase (path.extname originalname)) = true ->
  getBaseName originalname = generate_imageBaseName originalname ->
  Gemini.musicPromptOf answer = Ok p ->
  isWellFormed p = true ->
  Lyria.audioContentOf response = Ok b64 ->
  fs (PATHS.UPLOADS cwd) = Some (Dir tu eu) ->
  fs (PATHS.OUTPUTS cwd) = Some (Dir tout eo) ->
  fs (PATHS.TEXTS cwd) = Some (Dir tt et) ->
  (forall t es, fs (path.join (PATHS.UPLOADS cwd) originalname)
                <> Some (Dir t es)) ->
  (forall t es, fs (path.join (PATHS.OUTPUTS cwd)
                      (generate_outputFilename originalname))
                <> Some (Dir t es)) ->
  (forall t es, fs (path.join (PATHS.TEXTS cwd)
                      (generate_textFilename originalname))
                <> Some (Dir t es)) ->
  (forall f, In f eu ->
             getBaseName f = generate_imageBaseName originalname ->
             f = originalname) ->
  (forall f, In f eo ->
             audioBaseName f = generate_imageBaseName originalname ->
             f = generate_outputFilename originalname) ->
  let stored :=
    writeFileSync fs (PATHS.UPLOADS cwd) (storage_filename originalname)
      now image in
  let result :=
    api_generate cwd stored (Some (multer_file cwd originalname))
      (Ok answer) (Ok response) decode now in
  exists body recs,
    snd result = Generate200 body
    /\ res_prompt body = p
    /\ matchFiles cwd (fst result) = Some recs
    /\ In {| imageUrl := res_imageUrl body;
             audioUrl := res_audioUrl body;
             name := generate_imageBaseName originalname;
             prompt := Some (res_prompt body) |} recs.
Proof.
  intros [Hfree _] Hacc Hbase Hp _ Hb Hu Ho Ht _ HwO HwT Hfu Hfo stored result.
  unfold result, stored.
  rewrite (api_generate_run cwd fs originalname image answer response decode
             now p b64 tout eo tt et Hp Hb Ho HwO Ht HwT).
  destruct (three_writes_listed cwd fs originalname image p (decode b64) now
              tu eu tout eo tt et Hfree Hacc Hbase Hu Ho Ht Hfu Hfo)
    as (recs & Hm & Hin).
  exists (snd (generate_success cwd fs originalname image p (decode b64) now)),
    recs.
  cbn [fst snd]. split; [reflexivity|]. split; [reflexivity|].
  split; [exact Hm|].
  apply musicPrompt_trimmed in Hp.
  destruct Hp as (_ & _ & _ & _ & t & _ & _ & _ & Et & Hne).
  unfold generated_record in Hin.
  assert (Hprompt : or_undefined (trim p) = Some p).
  { rewrite Et, trim_idempotent, <- Et. destruct p; [congruence|reflexivity]. }
  rewrite Hprompt in Hin.
  unfold generate_success. cbv zeta.
  cbn [snd res_imageUrl res_audioUrl res_prompt].
  rewrite (storage_filename_segment _ Hfree). exact Hin.
Qed.

Lemma generated_item_is_listed_witness :
  exists body recs,
    snd (api_generate cwd0
           (writeFileSync (empty_dirs cwd0) (PATHS.UPLOADS cwd0)
              (storage_filename (js "sea.view.jpeg")) 9 (js "<jpeg>"))
           (Some (multer_file cwd0 (js "sea.view.jpeg")))
           (Ok (gemini_ok (js " calm piano ")))
           (Ok (lyria_ok (js "UklGRg==")))
           (fun s => s) 9)
      = Generate200 body
    /\ res_prompt body = js "calm piano"
    /\ matchFiles cwd0
         (fst (api_generate cwd0
                 (writeFileSync (empty_dirs cwd0) (PATHS.UPLOADS cwd0)
                    (storage_filename (js "sea.view.jpeg")) 9 (js "<jpeg>"))
                 (Some (multer_file cwd0 (js "sea.view.jpeg")))
                 (Ok (gemini_ok (js " calm piano ")))
                 (Ok (lyria_ok (js "UklGRg==")))
                 (fun s => s) 9))
       = Some recs
    /\ In {| imageUrl := res_imageUrl body;
             audioUrl := res_audioUrl body;
             name := js "sea.view";
             prompt := Some (res_prompt body) |} recs.
Proof.
  apply (generated_item_is_listed cwd0 (empty_dirs cwd0) (js "sea.view.jpeg")
           (js "<jpeg>") (gemini_ok (js " calm piano "))
           (lyria_ok (js "UklGRg==")) (fun s => s) 9 (js "calm piano")
           (js "UklGRg==") 0 [] 0 [] 0 []).
  - split; absent_char.
  - vm_compute; reflexivity.
  - vm_compute; reflexivity.
  - vm_compute; reflexivity.
  - vm_compute; reflexivity.
  - vm_compute; reflexivity.
  - vm_compute; reflexivity.
  - vm_compute; reflexivity.
  - vm_compute; reflexivity.
  - intros t es. vm_compute. discriminate.
  - intros t es. vm_compute. discriminate.
  - intros t es. vm_compute. discriminate.
  - intros f [].
  - intros f [].
Defined.

(** ** Records of equal time *)

Section SortStable.
Context {A : Type} (compareFn : A -> A -> Z) (key : A -> Z).
Hypothesis compareFn_key : forall a b, compareFn a b = key b - key a.

Lemma sort_insert_filter t x l :
  filter (fun a => key a =? t) (sort_insert compareFn x l)
  = filter (fun a => key a =? t) (x :: l).
Proof.
  induction l as [|y r IH]; [reflexivity|]. cbn [sort_insert].
  rewrite compareFn_key.
  destruct (Z.leb_spec (key y - key x) 0) as [Hle|Hgt]; [reflexivity|].
  cbn [filter] in *. rewrite IH.
  destruct (Z.eqb_spec (key x) t) as [Ex|Ex];
    destruct (Z.eqb_spec (key y) t) as [Ey|Ey]; try reflexivity.
  lia.
Qed.

Lemma sort_filter t l :
  filter (fun a => key a =? t) (sort compareFn l)
  = filter (fun a => key a =? t) l.
Proof.
  induction l as [|x r IH]; [reflexivity|]. cbn [sort].
  rewrite sort_insert_filter. cbn [filter]. rewrite IH. reflexivity.
Qed.

End SortStable.

Lemma new_Set_from_tail seen l :
  exists rest, new_Set_from seen l = rev seen ++ rest
               /\ forall x, In x rest -> ~ In x seen.
Proof.
  revert seen; induction l as [|k r IH]; intros seen; cbn [new_Set_from].
  - exists []. split; [symmetry; apply app_nil_r | intros x []].
  - destruct (existsb (jsstring_eqb k) seen) eqn:E; [apply IH|].
    destruct (IH (k :: seen)) as (rest & Hr & Hd).
    exists (k :: rest). split.
    + rewrite Hr. cbn [rev]. rewrite <- app_assoc. reflexivity.
    + intros x [<-|Hx].
      * intros Hin. apply existsb_eqb_In in Hin. congruence.
      * intros Hin. apply (Hd x Hx). right. exact Hin.
Qed.

Lemma new_Set_from_app seen l1 l2 :
  NoDup l1 -> (forall x, In x l1 -> ~ In x seen) ->
  new_Set_from seen (l1 ++ l2) = new_Set_from (rev l1 ++ seen) l2.
Proof.
  revert seen; induction l1 as [|k r IH]; intros seen Hnd Hdis;
    [reflexivity|].
  cbn [app new_Set_from].
  assert (E : existsb (jsstring_eqb k) seen = false).
  { destruct (existsb (jsstring_eqb k) seen) eqn:E; [|reflexivity].
    apply existsb_eqb_In in E. exfalso.
    exact (Hdis k (or_introl eq_refl) E). }
  rewrite E. apply NoDup_cons_iff in Hnd. destruct Hnd as [Hk Hnd].
  rewrite IH; [cbn [rev]; rewrite <- app_assoc; reflexivity | exact Hnd |].
  intros x Hx [<-|Hin]; [exact (Hk Hx)|].
  exact (Hdis x (or_intror Hx) Hin).
Qed.

Lemma new_Set_app_NoDup l1 l2 :
  NoDup l1 ->
  exists rest, new_Set (l1 ++ l2) = l1 ++ rest
               /\ forall x, In x rest -> ~ In x l1.
Proof.
  intros Hnd. unfold new_Set.
  rewrite (new_Set_from_app [] l1 l2 Hnd) by (intros x _ []).
  rewrite app_nil_r.
  destruct (new_Set_from_tail (rev l1) l2) as (rest & Hr & Hd).
  exists rest. rewrite Hr, rev_involutive. split; [reflexivity|].
  intros x Hx Hin. apply (Hd x Hx). rewrite <- in_rev. exact Hin.
Qed.

Lemma filter_none {A : Type} (f : A -> bool) (l : list A) :
  (forall x, In x l -> f x = false) -> filter f l = [].
Proof.
  induction l as [|x r IH]; intros H; [reflexivity|]. cbn [filter].
  rewrite (H x (or_introl eq_refl)). apply IH.
  intros y Hy. apply H. right. exact Hy.
Qed.

Lemma emitted_filter_names cwd fs imageMap audioMap (P : MatchedFile -> bool)
  keys :
  List.map name
    (filter P (flat_map (emitted cwd fs imageMap audioMap) keys))
  = filter (fun k =>
              truthy (map_get k imageMap) && truthy (map_get k audioMap)
              && P (record_for cwd fs k (template (map_get k imageMap))
                      (template (map_get k audioMap)))) keys.
Proof.
  induction keys as [|k r IH]; [reflexivity|].
  cbn [flat_map filter]. rewrite filter_app, map_app, IH.
  destruct (emitted_cases cwd fs imageMap audioMap k)
    as [(i & a & Hi & Ha & Hin & Han & ->)|[Ht ->]].
  - rewrite Hi, Ha. cbn [template].
    destruct i; [congruence|]. destruct a; [congruence|].
    cbn [truthy andb filter].
    destruct (P _); reflexivity.
  - rewrite Ht. reflexivity.
Qed.

(** X22: among the records [matchFiles] returns, those whose images have the
    same modification time stand in the order in which their names first
    occur in the listing of the uploads directory: the sort does not reorder
    ties. *)
Theorem matchFiles_ties_keep_listing_order cwd fs uploadFiles outputFiles :
  getFilesByExtension fs (PATHS.UPLOADS cwd) IMAGE_EXTENSIONS
    = Some uploadFiles ->
  getFilesByExtension fs (PATHS.OUTPUTS cwd) AUDIO_EXTENSIONS
    = Some outputFiles ->
  (forall f, In f uploadFiles -> ~ In CHAR_FORWARD_SLASH f) ->
  exists recs,
    matchFiles cwd fs = Some recs
    /\ forall t,
         List.map name (filter (fun r => sort_mtime cwd fs r =? t) recs)
         = filter (fun k => map_has k (audioMapOf cwd fs outputFiles)
                            && (image_time cwd fs uploadFiles k =? t))
             (new_Set (List.map getBaseName uploadFiles)).
Proof.
  intros Hu Ho Hseg. exists (matchFiles_from cwd fs uploadFiles outputFiles).
  split; [apply matchFiles_listed; assumption|]. intros t.
  destruct (listed_named _ _ _ _ Hu Ho) as [Hun Hon].
  unfold matchFiles_from. rewrite matchFiles_fold. cbn [app].
  rewrite (sort_filter (matchFiles_compare cwd fs) (sort_mtime cwd fs))
    by reflexivity.
  rewrite emitted_filter_names.
  fold (imageMapOf cwd fs uploadFiles) (audioMapOf cwd fs outputFiles).
  set (im := imageMapOf cwd fs uploadFiles).
  set (am := audioMapOf cwd fs outputFiles).
  assert (Hkeys : map_keys im = new_Set (List.map getBaseName uploadFiles)).
  { unfold im, imageMapOf, createFileMap.
    rewrite createFileMap_fold_keys. reflexivity. }
  destruct (new_Set_app_NoDup (map_keys im) (map_keys am)) as (rest & Hr & Hd).
  { rewrite Hkeys. apply new_Set_NoDup. }
  rewrite Hr, filter_app, <- Hkeys.
  rewrite (filter_none _ rest).
  - rewrite app_nil_r. apply filter_ext_in. intros k Hk.
    apply map_get_keys in Hk.
    destruct (map_get k im) as [i|] eqn:Ei; [|congruence].
    pose proof (imageMap_value cwd fs uploadFiles k i Ei) as Hin.
    pose proof (imageMap_truthy cwd fs uploadFiles Hun k) as Hti.
    pose proof (audioMap_truthy cwd fs outputFiles Hon k) as Hta.
    fold im in Hti. fold am in Hta. rewrite Ei in Hti.
    unfold map_has in Hti at 1. rewrite Ei in Hti.
    rewrite Hti, Hta. cbn [andb template]. f_equal. f_equal.
    unfold image_time. fold im. rewrite Ei.
    unfold sort_mtime, file_mtime, record_for. cbn [imageUrl].
    change (js "/uploads/" ++ i)
      with (js "/uploads" ++ CHAR_FORWARD_SLASH :: i).
    rewrite pop_split_url; [reflexivity | apply Hseg, Hin].
  - intros k Hk. specialize (Hd k Hk).
    destruct (map_get k im) as [i|] eqn:Ei; [|reflexivity].
    exfalso. apply Hd. apply map_get_keys. congruence.
Qed.

Lemma matchFiles_ties_keep_listing_order_witness :
  exists recs,
    matchFiles cwd0 tied_images = Some recs
    /\ List.map name
         (filter (fun r => sort_mtime cwd0 tied_images r =? 5) recs)
       = [js "y"; js "x"].
Proof.
  destruct (matchFiles_ties_keep_listing_order cwd0 tied_images
              [js "w.jpg"; js "y.jpg"; js "x.jpg"]
              [js "x.wav"; js "w.wav"; js "y.wav"]) as (recs & Hr & H).
  - vm_compute; reflexivity.
  - vm_compute; reflexivity.
  - intros f [<-|[<-|[<-|[]]]]; absent_char.
  - exists recs. split; [exact Hr|]. rewrite (H 5).
    vm_compute; reflexivity.
Defined.

(** ** Saving and reading a prompt *)

Lemma path_join_inj d f f' : path.join d f = path.join d f' -> f = f'.
Proof.
  unfold path.join. intros H. apply app_inv_head in H.
  injection H as H. exact H.
Qed.

(** X23: for a name without separator or NUL, a well-formed prompt saved
    as the prompt file of that name in the existing texts directory is read
    back trimmed, and the prompts of the other such names are left as they
    were; when the write fails (the texts path is not a directory, or a
    directory stands in the way) nothing changes and no error is raised. *)
Theorem saveTextFile_then_read cwd fs k now content :
  plain_name k ->
  let saved :=
    saveTextFile fs (PATHS.TEXTS cwd) (k ++ js ".txt") now content in
  (forall t es,
      fs (PATHS.TEXTS cwd) = Some (Dir t es) ->
      (forall t' es', fs (textFilePath cwd k) <> Some (Dir t' es')) ->
      (isWellFormed content = true ->
       readTextFile saved (textFilePath cwd k) = trim content)
      /\ forall k', plain_name k' -> k' <> k ->
           readTextFile saved (textFilePath cwd k')
           = readTextFile fs (textFilePath cwd k'))
  /\ ((forall t es, fs (PATHS.TEXTS cwd) <> Some (Dir t es)) -> saved = fs)
  /\ (forall t es,
        fs (textFilePath cwd k) = Some (Dir t es) -> saved = fs).
Proof.
  intros _ saved. unfold saved, textFilePath. split; [|split].
  - intros t es Hd Hf. unfold saveTextFile.
    rewrite (writeFileSync_checked_ok fs _ _ now content t es Hd Hf). split.
    + intros _. unfold readTextFile, existsSync, readFileSync.
      rewrite writeFileSync_file. reflexivity.
    + intros k' _ Hne. unfold readTextFile, existsSync, readFileSync.
      rewrite writeFileSync_other; [reflexivity | |].
      * intros E. apply path_join_inj, app_inv_tail in E. exact (Hne E).
      * apply path_join_not_dir.
  - intros Hd. unfold saveTextFile, writeFileSync_checked.
    destruct (fs (PATHS.TEXTS cwd)) as [[t c|t es]|]; try reflexivity.
    exfalso. exact (Hd t es eq_refl).
  - intros t es Hf. unfold saveTextFile, writeFileSync_checked.
    rewrite Hf. destruct (fs (PATHS.TEXTS cwd)) as [[t' c|t' es']|];
      reflexivity.
Qed.

Lemma saveTextFile_then_read_witness :
  readTextFile
    (saveTextFile (empty_dirs cwd0) (PATHS.TEXTS cwd0) (js "sea.txt") 4
       (js " slow waves "))
    (textFilePath cwd0 (js "sea"))
  = js "slow waves"
  /\ saveTextFile uploads_is_a_file (PATHS.TEXTS cwd0) (js "sea.txt") 4
       (js " slow waves ")
     = uploads_is_a_file.
Proof.
  assert (Hplain : plain_name (js "sea")) by (split; absent_char).
  destruct (saveTextFile_then_read cwd0 (empty_dirs cwd0) (js "sea") 4
              (js " slow waves ") Hplain) as (Hok & _).
  destruct (saveTextFile_then_read cwd0 uploads_is_a_file (js "sea") 4
              (js " slow waves ") Hplain) as (_ & Hfail & _).
  split.
  - destruct (Hok 0 []) as (H & _).
    + vm_compute; reflexivity.
    + intros t es. vm_compute. discriminate.
    + change (js "sea.txt") with (js "sea" ++ js ".txt").
      rewrite H; vm_compute; reflexivity.
  - apply Hfail. intros t es. vm_compute. discriminate.
Defined.
